(** * Navigation toolbox: simulation core

    A shallow embedding of the simulation core of the navigation toolbox
    (the A* pathfinder of [utils/astar.js], the geometry helpers, the
    two-hypothesis belief filter and action policy of the Bidirectionality
    panel, and the demo sequencer of the Level 2 auto-play panel) together
    with the properties stated for it.

    Numbers.  JavaScript numbers are IEEE doubles.  They are idealised here
    as real numbers: [Math.hypot], [Math.exp], [Math.pow], [Math.cos],
    [Math.sin] and [Math.atan2] are the mathematical functions, and no
    rounding is modelled.  Where the difference decides what the code
    does, the definitions leave the idealisation: the pathfinder on
    JavaScript objects (module [Js]) has [Infinity], [NaN] and overflow,
    and module [Double] computes [wrapPi] and the timeline of the demo
    sequencer on binary64 numbers.

    Randomness.  Every draw from [Math.random] (directly, or through the
    Box-Muller helper [randn]) is an input of the step it is used in. *)

From Stdlib Require Import Reals Lra Lia ZArith List String.
From Stdlib Require PrimFloat.
From stdpp Require Import base option list gmap strings.

Local Open Scope R_scope.

(** * Part I: the program *)

(** ** Geometry helpers (shared by every panel) *)

(** [function clamp(v, lo, hi) { return Math.max(lo, Math.min(hi, v)); }] *)
Definition clamp (v lo hi : R) : R := Rmax lo (Rmin hi v).

(** [Math.hypot(a, b)] *)
Definition hypot (a b : R) : R := sqrt (a * a + b * b).

(** [Math.atan2(y, x)], by quadrant. *)
Definition atan2 (y x : R) : R :=
  if Rlt_dec 0 x then atan (y / x)
  else if Rlt_dec x 0 then
    (if Rle_dec 0 y then atan (y / x) + PI else atan (y / x) - PI)
  else if Rlt_dec 0 y then PI / 2
  else if Rlt_dec y 0 then - (PI / 2)
  else 0.

(** The two loops of [wrapPi], each with an iteration budget: [None] means
    that the budget ran out while the loop condition still held.

    [while (a > Math.PI) a -= 2 * Math.PI;] *)
Fixpoint wrapPi_down (fuel : nat) (a : R) : option R :=
  if Rgt_dec a PI then
    match fuel with
    | O => None
    | S fuel' => wrapPi_down fuel' (a - 2 * PI)
    end
  else Some a.

(** [while (a < -Math.PI) a += 2 * Math.PI;] *)
Fixpoint wrapPi_up (fuel : nat) (a : R) : option R :=
  if Rlt_dec a (- PI) then
    match fuel with
    | O => None
    | S fuel' => wrapPi_up fuel' (a + 2 * PI)
    end
  else Some a.

(** [function wrapPi(a)]: the first loop, then the second, then [return a]. *)
Definition wrapPi_fuel (fuel : nat) (a : R) : option R :=
  match wrapPi_down fuel a with
  | Some a1 => wrapPi_up fuel a1
  | None => None
  end.

(** An iteration budget that is enough for [a] (see [wrapPi_fuel_enough]):
    each loop moves [a] by a full turn, so it runs at most about
    [|a| / 2π] times. *)
Definition wrapPi_budget (a : R) : nat := Z.to_nat (up (Rabs a / (2 * PI))).

(** [wrapPi] as a total function. *)
Definition wrapPi (a : R) : R :=
  match wrapPi_fuel (wrapPi_budget a) a with
  | Some r => r
  | None => a
  end.

(** [function angleDiff(a, b) { return wrapPi(a - b); }] *)
Definition angleDiff (a b : R) : R := wrapPi (a - b).

(** ** Demo sequencer (Level 2 auto-play panel) *)

(** One entry of [DEMO_SEQUENCE]; the caption fields ([title], [desc],
    [showGhost]) are display-only and left out. *)
Record phase := mkPhase {
  phaseId : string;
  duration : R;
  phaseKind : string;      (* the [phase] field: IDLE, OUTBOUND, RETURN, HOLD, RESET *)
  phaseMode : string;      (* the [mode] field *)
  resetOnEnter : bool;
  fadeTrails : bool
}.

Definition DEMO_SEQUENCE : list phase := [
  mkPhase "INTRO"       1.8       "IDLE"     "ODOMETRY" false false;
  mkPhase "ODO_OUT"     7         "OUTBOUND" "ODOMETRY" true  false;
  mkPhase "ODO_RET"     7         "RETURN"   "ODOMETRY" false false;
  mkPhase "ODO_HOLD"    2.2       "HOLD"     "ODOMETRY" false false;
  mkPhase "TO_COMPASS"  1.4       "RESET"    "ODOMETRY" false true;
  mkPhase "COM_OUT"     6         "OUTBOUND" "COMPASS"  true  false;
  mkPhase "COM_RET"     6.2       "RETURN"   "COMPASS"  false false;
  mkPhase "COM_HOLD"    1.8       "HOLD"     "COMPASS"  false false;
  mkPhase "TO_LANDMARK" 1.4       "RESET"    "COMPASS"  false true;
  mkPhase "LM_OUT"      7.2       "OUTBOUND" "LANDMARK" true  false;
  mkPhase "LM_RET"      9         "RETURN"   "LANDMARK" false false;
  mkPhase "LM_HOLD"     2         "HOLD"     "LANDMARK" false false;
  mkPhase "LOOP_RESET"  1.2       "RESET"    "LANDMARK" false true
].

(** [seqRef.current = { idx, t }] *)
Record seqCursor := mkCursor { idx : nat; t : R }.

(** The tick length the loop works with:
    [const dt = clamp(dtRaw > 1 ? dtRaw / 1000 : dtRaw, 0, 0.05);] *)
Definition effectiveDt (dtRaw : R) : R :=
  clamp (if Rgt_dec dtRaw 1 then dtRaw / 1000 else dtRaw) 0 0.05.

(** Step 1 of the game loop, "MANAGE DEMO TIMELINE".  The result is the
    cursor written back to [seqRef] and whether [resetSim()] was called;
    [None] stands for the [TypeError] of reading a field of
    [DEMO_SEQUENCE[idx]] when that entry does not exist. *)
Definition manageDemoTimeline (seq : list phase) (c : seqCursor) (dtRaw : R)
  : option (seqCursor * bool) :=
  let dt := effectiveDt dtRaw in
  let t' := t c + dt in
  cur ← seq !! idx c;
  if Rgt_dec t' (duration cur) then
    let nextIdx := ((idx c + 1) mod length seq)%nat in
    nextStep ← seq !! nextIdx;
    Some (mkCursor nextIdx 0, resetOnEnter nextStep)
  else Some (mkCursor (idx c) t', false).

(** The cursor after a series of frames. *)
Fixpoint runTimeline (seq : list phase) (c : seqCursor) (dts : list R)
  : option seqCursor :=
  match dts with
  | [] => Some c
  | dtRaw :: rest =>
      match manageDemoTimeline seq c dtRaw with
      | Some (c', _) => runTimeline seq c' rest
      | None => None
      end
  end.

(** The ticks of one pass through all phases. *)
Definition cycleTicks (ns : list nat) : nat := fold_right Nat.add 0%nat (map S ns).

(** ** Binary64 arithmetic

    The definitions of this module compute on IEEE 754 doubles, the
    numbers JavaScript has, where the difference to the reals decides what
    the code does: a loop that stops making progress, and a running sum
    compared with a threshold.  A decimal literal denotes the nearest
    double, as it does in JavaScript. *)

Module Double.

Import PrimFloat.

#[local] Set Warnings "-inexact-float".

(** [Math.PI] *)
Definition PI : float := 0x1.921fb54442d18p+1%float.

(** [while (a > Math.PI) a -= 2 * Math.PI;] with an iteration budget;
    [None] means that the budget ran out while the condition still held. *)
Fixpoint wrapPi_down (fuel : nat) (a : float) : option float :=
  if (PI <? a)%float then
    match fuel with
    | O => None
    | S fuel' => wrapPi_down fuel' (a - 2 * PI)%float
    end
  else Some a.

(** [while (a < -Math.PI) a += 2 * Math.PI;] *)
Fixpoint wrapPi_up (fuel : nat) (a : float) : option float :=
  if (a <? - PI)%float then
    match fuel with
    | O => None
    | S fuel' => wrapPi_up fuel' (a + 2 * PI)%float
    end
  else Some a.

(** [function wrapPi(a)] *)
Definition wrapPi_fuel (fuel : nat) (a : float) : option float :=
  match wrapPi_down fuel a with
  | Some a1 => wrapPi_up fuel a1
  | None => None
  end.

(** [Math.min(a, b)]: [NaN] if either is, and [-0] below [+0]. *)
Definition min (a b : float) : float :=
  if is_nan a || is_nan b then nan
  else if (a <? b)%float then a
  else if (b <? a)%float then b
  else if get_sign a then a else b.

(** [Math.max(a, b)]: [NaN] if either is, and [+0] above [-0]. *)
Definition max (a b : float) : float :=
  if is_nan a || is_nan b then nan
  else if (a <? b)%float then b
  else if (b <? a)%float then a
  else if get_sign a then b else a.

(** [function clamp(v, lo, hi) { return Math.max(lo, Math.min(hi, v)); }] *)
Definition clamp (v lo hi : float) : float := max lo (min hi v).

(** One entry of [DEMO_SEQUENCE], as in [phase] above, with the duration
    a double. *)
Record phase := mkPhase {
  phaseId : string;
  duration : float;
  phaseKind : string;
  phaseMode : string;
  resetOnEnter : bool;
  fadeTrails : bool
}.

Definition DEMO_SEQUENCE : list phase := [
  mkPhase "INTRO"       1.8       "IDLE"     "ODOMETRY" false false;
  mkPhase "ODO_OUT"     7         "OUTBOUND" "ODOMETRY" true  false;
  mkPhase "ODO_RET"     7         "RETURN"   "ODOMETRY" false false;
  mkPhase "ODO_HOLD"    2.2       "HOLD"     "ODOMETRY" false false;
  mkPhase "TO_COMPASS"  1.4       "RESET"    "ODOMETRY" false true;
  mkPhase "COM_OUT"     6         "OUTBOUND" "COMPASS"  true  false;
  mkPhase "COM_RET"     6.2       "RETURN"   "COMPASS"  false false;
  mkPhase "COM_HOLD"    1.8       "HOLD"     "COMPASS"  false false;
  mkPhase "TO_LANDMARK" 1.4       "RESET"    "COMPASS"  false true;
  mkPhase "LM_OUT"      7.2       "OUTBOUND" "LANDMARK" true  false;
  mkPhase "LM_RET"      9         "RETURN"   "LANDMARK" false false;
  mkPhase "LM_HOLD"     2         "HOLD"     "LANDMARK" false false;
  mkPhase "LOOP_RESET"  1.2       "RESET"    "LANDMARK" false true
]%float.

(** [seqRef.current = { idx, t }] *)
Record seqCursor := mkCursor { idx : nat; t : float }.

(** [const dt = clamp(dtRaw > 1 ? dtRaw / 1000 : dtRaw, 0, 0.05);] *)
Definition effectiveDt (dtRaw : float) : float :=
  clamp (if (1 <? dtRaw)%float then (dtRaw / 1000)%float else dtRaw) 0 0.05.

(** Step 1 of the game loop, "MANAGE DEMO TIMELINE": the cursor written
    back to [seqRef] and whether [resetSim()] was called; [None] stands
    for the [TypeError] of reading a field of [DEMO_SEQUENCE[idx]] when
    that entry does not exist. *)
Definition manageDemoTimeline (seq : list phase) (c : seqCursor) (dtRaw : float)
  : option (seqCursor * bool) :=
  let dt := effectiveDt dtRaw in
  let t' := (t c + dt)%float in
  match seq !! idx c with
  | Some cur =>
      if (duration cur <? t')%float then
        let nextIdx := ((idx c + 1) mod length seq)%nat in
        match seq !! nextIdx with
        | Some nextStep => Some (mkCursor nextIdx 0, resetOnEnter nextStep)
        | None => None
        end
      else Some (mkCursor (idx c) t', false)
  | None => None
  end.

(** The cursor after a series of frames. *)
Fixpoint runTimeline (seq : list phase) (c : seqCursor) (dts : list float)
  : option seqCursor :=
  match dts with
  | [] => Some c
  | dtRaw :: rest =>
      match manageDemoTimeline seq c dtRaw with
      | Some (c', _) => runTimeline seq c' rest
      | None => None
      end
  end.

(** The elapsed time [n] ticks of length [dt] after a phase was entered:
    [t] starts at 0 and every tick adds [dt]. *)
Definition elapsedAfter (dt : float) (n : nat) : float :=
  Nat.iter n (fun t => (t + dt)%float) 0%float.

(** Simulated time, as a clock that adds up the tick lengths shows it. *)
Definition simulatedTime (dts : list float) : float :=
  fold_left (fun clock dtRaw => (clock + effectiveDt dtRaw)%float) dts 0%float.

(** The sum of the durations, added up in the order of the script. *)
Definition totalDuration (seq : list phase) : float :=
  fold_left (fun sum p => (sum + duration p)%float) seq 0%float.

(** With a constant tick [dt]: the first [n] ticks stay within the phase
    and tick [n + 1] is the first to take the elapsed time past its
    duration. *)
Definition phaseTicks (dt : float) (p : phase) (n : nat) : bool :=
  forallb (fun i => negb (duration p <? elapsedAfter dt i)%float) (List.seq 1 n)
  && (duration p <? elapsedAfter dt (S n))%float.

End Double.

(** ** Bidirectionality panel: belief filter and action policy *)

Record point := mkPoint { px : R; py : R }.

(** The robot pose [{ x, y, theta }]. *)
Record pose := mkPose { rx : R; ry : R; theta : R }.

Definition WORLD_W : R := 400.
Definition WORLD_H : R := 300.
Definition L1 : point := mkPoint 340 80.
Definition L2 : point := mkPoint 340 220.
Definition VANTAGE : point := mkPoint 200 150.
Definition BEACON : point := mkPoint 320 60.
Definition START : pose := mkPose 60 150 0.
Definition SHIFT_Y : R := 140.
Definition V_SENSE_RADIUS : R := 55.
Definition CONF_THRESH : R := 0.40.
Definition SPEED : R := 90.
Definition TURN_RATE : R := 3.5.
Definition STUB_DITHER_PERIOD : R := 1.6.
Definition SENSE_PERIOD : R := 0.35.

(** ['WEAK' | 'STRONG_CORRECT' | 'STRONG_WRONG'] *)
Inductive priorMode := WEAK | STRONG_CORRECT | STRONG_WRONG.

(** ['BIDIR' | 'STUBBORN'] *)
Inductive simMode := BIDIR | STUBBORN.

(** The record stored by [setMeasInfo]. *)
Record measInfo := mkMeasInfo {
  meas : R;
  sigma : R;
  pred1 : R;
  pred2 : R;
  err1 : R;
  err2 : R;
  winner : string;
  inVantage : bool
}.

(** The refs the game loop reads and writes. *)
Record sim := mkSim {
  robot : pose;               (* robotRef *)
  belief : R * R;             (* beliefRef, [w1, w2] *)
  prior : priorMode;          (* priorRef *)
  mode : simMode;             (* simModeRef *)
  running : bool;             (* runningRef *)
  action : string;            (* actionRef *)
  measRef : option measInfo;  (* measRef, [None] is null *)
  elapsed : R;                (* elapsedRef *)
  senseTimer : R;             (* senseTimerRef *)
  stubTimer : R;              (* stubTimerRef *)
  stubSide : Z                (* stubSideRef: 0 -> L1, 1 -> L2 *)
}.

(** The random draws one step may consume: the value of [randn()] in the
    measurement, and the value of [Math.random()] in [reset]. *)
Record draws := mkDraws { randn : R; random : R }.

Definition computeInitialBelief (p : priorMode) : R * R :=
  match p with
  | WEAK => (0.5, 0.5)
  | STRONG_CORRECT => (0.9, 0.1)
  | STRONG_WRONG => (0.1, 0.9)
  end.

(** [reset(newPrior, newSimMode)] *)
Definition reset (newPrior : priorMode) (newSimMode : simMode) (rnd : R) : sim :=
  {| robot := START;
     belief := computeInitialBelief newPrior;
     prior := newPrior;
     mode := newSimMode;
     running := false;
     action := "IDLE";
     measRef := None;
     elapsed := 0;
     senseTimer := 0;
     stubTimer := 0;
     stubSide := if Rlt_dec rnd 0.5 then 0%Z else 1%Z |}.

Definition start (st : sim) : sim :=
  {| robot := robot st; belief := belief st; prior := prior st; mode := mode st;
     running := true;
     action := action st; measRef := measRef st; elapsed := elapsed st;
     senseTimer := senseTimer st; stubTimer := stubTimer st; stubSide := stubSide st |}.

Definition pause (st : sim) : sim :=
  {| robot := robot st; belief := belief st; prior := prior st; mode := mode st;
     running := false;
     action := action st; measRef := measRef st; elapsed := elapsed st;
     senseTimer := senseTimer st; stubTimer := stubTimer st; stubSide := stubSide st |}.

(** *** TOP-DOWN: choose target *)

(** [Math.abs(w1 - w2) >= CONF_THRESH] *)
Definition confident (b : R * R) : bool :=
  if Rge_dec (Rabs (fst b - snd b)) CONF_THRESH then true else false.

Record decision := mkDecision {
  target : point;
  nextAction : string;
  stubTimer' : R;
  stubSide' : Z
}.

Definition topDown (st : sim) (dt : R) : decision :=
  let w1 := fst (belief st) in
  let w2 := snd (belief st) in
  match mode st with
  | BIDIR =>
      if confident (belief st) then
        if Rge_dec w1 w2
        then mkDecision L1 "GO_TO_L1 (belief commit)" (stubTimer st) (stubSide st)
        else mkDecision L2 "GO_TO_L2 (belief commit)" (stubTimer st) (stubSide st)
      else mkDecision VANTAGE "GO_TO_V (active localization)" (stubTimer st) (stubSide st)
  | STUBBORN =>
      match prior st with
      | STRONG_CORRECT =>
          mkDecision L1 "GO_TO_L1 (stubborn prior)" (stubTimer st) (stubSide st)
      | STRONG_WRONG =>
          mkDecision L2 "GO_TO_L2 (stubborn prior)" (stubTimer st) (stubSide st)
      | WEAK =>
          let timer := stubTimer st + dt in
          let flip := if Rgt_dec timer STUB_DITHER_PERIOD then true else false in
          let timer' := if flip then 0 else timer in
          let side' := if flip then (1 - stubSide st)%Z else stubSide st in
          mkDecision (if (side' =? 0)%Z then L1 else L2)
                     "DITHER (weak prior; no updates)" timer' side'
      end
  end.

(** *** MOVE *)

Definition move (r : pose) (tgt : point) (dt : R) : pose :=
  let dx := px tgt - rx r in
  let dy := py tgt - ry r in
  let dist := hypot dx dy in
  if Rgt_dec dist 2.5 then
    let desired := atan2 dy dx in
    let dth := angleDiff desired (theta r) in
    let step := clamp dth (- TURN_RATE * dt) (TURN_RATE * dt) in
    let theta1 := wrapPi (theta r + step) in
    let x1 := rx r + cos theta1 * (SPEED * dt) in
    let y1 := ry r + sin theta1 * (SPEED * dt) in
    mkPose (clamp x1 10 (WORLD_W - 10)) (clamp y1 10 (WORLD_H - 10)) theta1
  else r.

(** *** BOTTOM-UP: measurement update *)

(** [dV], the distance of the (moved) robot from the vantage point. *)
Definition vantageDistance (r : pose) : R :=
  hypot (px VANTAGE - rx r) (py VANTAGE - ry r).

(** The sensing gate:
    [allowBottomUp && senseTimerRef.current >= SENSE_PERIOD &&
     (mode === 'BIDIR' && inVantage)],
    with [timer] the sense timer after [+= dt]. *)
Definition shouldSense (m : simMode) (timer : R) (r : pose) : bool :=
  (match m with STUBBORN => false | BIDIR => true end)
  && (if Rge_dec timer SENSE_PERIOD then true else false)
  && ((match m with BIDIR => true | STUBBORN => false end)
      && (if Rle_dec (vantageDistance r) V_SENSE_RADIUS then true else false)).

(** The measurement record built inside the gate, from the moved pose and
    the value [noise] of [randn()]. *)
Definition measure (r : pose) (noise : R) : measInfo :=
  let dV := vantageDistance r in
  let sigma := clamp (0.045 + 0.15 * (dV / V_SENSE_RADIUS)) 0.045 0.20 in
  let trueBear := wrapPi (atan2 (py BEACON - ry r) (px BEACON - rx r) - theta r) in
  let meas := wrapPi (trueBear + noise * sigma) in
  let pred1 := wrapPi (atan2 (py BEACON - ry r) (px BEACON - rx r) - theta r) in
  let ghostY := clamp (ry r + SHIFT_Y) 10 (WORLD_H - 10) in
  let pred2 := wrapPi (atan2 (py BEACON - ghostY) (px BEACON - rx r) - theta r) in
  let err1 := Rabs (angleDiff meas pred1) in
  let err2 := Rabs (angleDiff meas pred2) in
  {| meas := meas; sigma := sigma; pred1 := pred1; pred2 := pred2;
     err1 := err1; err2 := err2;
     winner := if Rle_dec err1 err2 then "H1 (Near L1)" else "H2 (Near L2)";
     inVantage := if Rle_dec dV V_SENSE_RADIUS then true else false |}.

(** [Math.exp(-0.5 * (err / sigma) * (err / sigma))] *)
Definition likelihood (err sg : R) : R := exp (- 0.5 * (err / sg) * (err / sg)).

(** The tempering exponent, [const alpha = 0.70]. *)
Definition alpha : R := 0.70.

(** [Math.pow(lh, alpha)]; the likelihoods are positive. *)
Definition tempered (lh : R) : R := Rpower lh alpha.

(** [s = nw1 + nw2], the sum before normalisation. *)
Definition likelihoodSum (b : R * R) (m : measInfo) : R :=
  fst b * tempered (likelihood (err1 m) (sigma m))
  + snd b * tempered (likelihood (err2 m) (sigma m)).

(** [if (s > 1e-9) { nw1 /= s; nw2 /= s; b = [nw1, nw2]; }] *)
Definition updateBelief (b : R * R) (m : measInfo) : R * R :=
  let nw1 := fst b * tempered (likelihood (err1 m) (sigma m)) in
  let nw2 := snd b * tempered (likelihood (err2 m) (sigma m)) in
  let s := nw1 + nw2 in
  if Rgt_dec s 1e-9 then (nw1 / s, nw2 / s) else b.

(** *** The game-loop callback *)

Definition tick (st : sim) (dtMs : R) (d : draws) : sim :=
  if negb (running st) then st else
  let dt := dtMs / 1000 in
  if Rle_dec dt 0 then st else
  if Rgt_dec dt 0.25 then st else
  (* TOP-DOWN *)
  let dec := topDown st dt in
  let action1 :=
    if negb (String.eqb (nextAction dec) (action st)) then nextAction dec else action st in
  (* MOVE *)
  let r := move (robot st) (target dec) dt in
  (* BOTTOM-UP *)
  let timer := senseTimer st + dt in
  let sensing := shouldSense (mode st) timer r in
  let info := measure r (randn d) in
  let b := if sensing then updateBelief (belief st) info else belief st in
  let timer1 := if sensing then 0 else timer in
  let meas1 :=
    if sensing then Some info
    else match mode st, measRef st with
         | STUBBORN, Some _ => None
         | _, m => m
         end in
  (* Save back *)
  let elapsed1 := elapsed st + dt in
  let st1 :=
    {| robot := r; belief := b; prior := prior st; mode := mode st;
       running := true; action := action1; measRef := meas1;
       elapsed := elapsed1; senseTimer := timer1;
       stubTimer := stubTimer' dec; stubSide := stubSide' dec |} in
  (* Auto loop *)
  if Rgt_dec elapsed1 28 then reset (prior st1) (mode st1) (random d) else st1.

(** What can happen to a panel: a frame, or one of the buttons. *)
Inductive event :=
| Tick (dtMs : R) (d : draws)
| Start
| Pause
| Reset (newPrior : priorMode) (newSimMode : simMode) (rnd : R).

Definition step (st : sim) (ev : event) : sim :=
  match ev with
  | Tick dtMs d => tick st dtMs d
  | Start => start st
  | Pause => pause st
  | Reset p m rnd => reset p m rnd
  end.

Definition run (st : sim) (evs : list event) : sim := fold_left step evs st.

(** An event that leaves the configuration [(p, m)] as it is: a frame, a
    start or pause, or a reset to the same prior and mode. *)
Definition sameConfig (p : priorMode) (m : simMode) (ev : event) : Prop :=
  match ev with
  | Reset p' m' _ => p' = p /\ m' = m
  | _ => True
  end.

(** Whether this frame passes both early returns of the callback. *)
Definition frameRuns (st : sim) (dtMs : R) : Prop :=
  running st = true /\ 0 < dtMs / 1000 <= 0.25.

(** The pose after the MOVE part of the frame. *)
Definition movedPose (st : sim) (dtMs : R) : pose :=
  move (robot st) (target (topDown st (dtMs / 1000))) (dtMs / 1000).

(** Whether the frame passes the sensing gate. *)
Definition senses (st : sim) (dtMs : R) : bool :=
  shouldSense (mode st) (senseTimer st + dtMs / 1000) (movedPose st dtMs).

(** The record written back by a frame that runs ("Save back"), before
    the auto-loop check; [tick_frame] below relates it to [tick]. *)
Definition savedBack (st : sim) (dtMs : R) (d : draws) : sim :=
  let dt := dtMs / 1000 in
  let dec := topDown st dt in
  let info := measure (movedPose st dtMs) (randn d) in
  {| robot := movedPose st dtMs;
     belief := if senses st dtMs then updateBelief (belief st) info else belief st;
     prior := prior st;
     mode := mode st;
     running := true;
     action := nextAction dec;
     measRef := if senses st dtMs then Some info
                else match mode st, measRef st with
                     | STUBBORN, Some _ => None
                     | _, m => m
                     end;
     elapsed := elapsed st + dt;
     senseTimer := if senses st dtMs then 0 else senseTimer st + dt;
     stubTimer := stubTimer' dec;
     stubSide := stubSide' dec |}.

(** A belief vector is normalised: non-negative weights that sum to 1. *)
Definition normalised (b : R * R) : Prop :=
  fst b + snd b = 1 /\ 0 <= fst b /\ 0 <= snd b.

(** A frame of one run whose measurement, if it takes one and updates the
    belief from it, strictly favours hypothesis 1.  A frame that ends the
    run (the auto loop after 28 s) and a reset are excluded: they start
    another run from the prior. *)
Definition confirmingEvent (st : sim) (ev : event) : Prop :=
  match ev with
  | Tick dtMs d =>
      frameRuns st dtMs ->
      elapsed st + dtMs / 1000 <= 28 /\
      (senses st dtMs = true ->
       let m := measure (movedPose st dtMs) (randn d) in
       likelihoodSum (belief st) m > 1e-9 -> err1 m < err2 m)
  | Start | Pause => True
  | Reset _ _ _ => False
  end.

Fixpoint confirming (st : sim) (evs : list event) : Prop :=
  match evs with
  | [] => True
  | ev :: rest => confirmingEvent st ev /\ confirming (step st ev) rest
  end.

(** A scripted run used to exercise the sensing path: from the weak prior
    in bidirectional mode, three 250 ms frames bring the robot from the
    start to (127.5, 150), one frame short of the sensing radius. *)
Definition noDraw : draws := mkDraws 0 0.
Definition approach : list event :=
  [Start; Tick 250 noDraw; Tick 250 noDraw; Tick 250 noDraw].
Definition atTheGate : sim := run (reset WEAK BIDIR 0) approach.

(** The fields of a state on that approach: running in bidirectional mode
    from the weak prior, undecided, at [(x, 150)] heading along the x axis,
    [tm] seconds into the run, with no measurement taken yet. *)
Definition cruising (st : sim) (x tm : R) : Prop :=
  running st = true /\ mode st = BIDIR /\ prior st = WEAK /\
  belief st = (0.5, 0.5) /\ robot st = mkPose x 150 0 /\
  senseTimer st = tm /\ elapsed st = tm /\ measRef st = None.

(** The pose reached by the frame after [atTheGate], 50 px from the
    vantage point, and there: the bearings of the beacon predicted under H1
    and under H2, and the measurement noise [sigma]. *)
Definition insidePose : pose := mkPose 150 150 0.
Definition bearing1 : R := atan ((60 - 150) / (320 - 150)).
Definition bearing2 : R := atan ((60 - 290) / (320 - 150)).
Definition sigmaInside : R := 0.045 + 0.15 * (50 / 55).

(** ** Pathfinder ([utils/astar.js]) *)

(** A node [{ x, y, neighbors }]; the graph [nodes] is an object from node
    id to node.  The definitions of this section read the graph and the
    tables of the search as finite maps with string keys, over the reals.
    Module [Js] below follows the reads and writes on JavaScript objects,
    with overflow; the two agree when no id is the name of a member of
    [Object.prototype] and no sum of distances overflows
    ([findPath_plain]). *)
Record node := mkNode { nx : R; ny : R; neighbors : list string }.

(** An entry of a score table: a finite number or [Infinity]. *)
Inductive num := Fin (r : R) | Inf.

(** [a < b] on two table reads; a missing entry reads [undefined], and a
    comparison with it is false. *)
Definition ltScore (a b : option num) : bool :=
  match a, b with
  | Some (Fin x), Some (Fin y) => if Rlt_dec x y then true else false
  | Some (Fin _), Some Inf => true
  | _, _ => false
  end.

(** [a + d] for a table entry [a] and a finite [d]. *)
Definition addNum (a : num) (d : R) : num :=
  match a with
  | Fin x => Fin (x + d)
  | Inf => Inf
  end.

(** The heuristic [h(id)], the straight-line distance to the goal.  [None]
    is the [TypeError] of reading [.x] of a node that does not exist. *)
Definition heuristic (nodes : gmap string node) (endId id : string) : option R :=
  n ← nodes !! id;
  e ← nodes !! endId;
  Some (hypot (nx n - nx e) (ny n - ny e)).

(** The mutable state of the search. *)
Record search := mkSearch {
  openSet : list string;
  cameFrom : gmap string string;
  gScore : gmap string num;
  fScore : gmap string num
}.

(** What a call can do: return a path, return [null], throw a
    [TypeError], or still be running when the iteration budget of the model
    is used up. *)
Inductive result :=
| Route (path : list string)
| Null
| TypeError
| OutOfFuel.

(** [openSet.reduce((a, b) => fScore[a] < fScore[b] ? a : b)];
    [None] for the empty open set, which the loop condition excludes. *)
Definition lowest (fScore : gmap string num) (openSet : list string) : option string :=
  match openSet with
  | [] => None
  | first :: rest =>
      Some (fold_left (fun a b => if ltScore (fScore !! a) (fScore !! b) then a else b)
                      rest first)
  end.

(** [openSet.splice(openSet.indexOf(current), 1)] for a [current] that is
    in the open set: the first occurrence is removed. *)
Fixpoint removeFirst (current : string) (openSet : list string) : list string :=
  match openSet with
  | [] => []
  | a :: rest => if String.eqb a current then rest else a :: removeFirst current rest
  end.

(** [openSet.includes(nextId)] *)
Definition includes (openSet : list string) (nextId : string) : bool :=
  existsb (String.eqb nextId) openSet.

(** A string is truthy when it is not empty. *)
Definition truthy (s : string) : bool := negb (String.eqb s "").

(** Path reconstruction,
    [while (cameFrom[current]) { current = cameFrom[current]; path.unshift(current); }],
    with an iteration budget. *)
Fixpoint reconstruct (fuel : nat) (cameFrom : gmap string string)
    (current : string) (path : list string) : option (list string) :=
  match cameFrom !! current with
  | Some prev =>
      if truthy prev then
        match fuel with
        | O => None
        | S fuel' => reconstruct fuel' cameFrom prev (prev :: path)
        end
      else Some path
  | None => Some path
  end.

(** The body of [for (let nextId of neighbors)]; [None] is a [TypeError]. *)
Definition relax (nodes : gmap string node) (endId current : string)
    (st : search) (nextId : string) : option search :=
  cur ← nodes !! current;
  nxt ← nodes !! nextId;
  let dist := hypot (nx cur - nx nxt) (ny cur - ny nxt) in
  let tentativeG := (fun g => addNum g dist) <$> gScore st !! current in
  if ltScore tentativeG (gScore st !! nextId) then
    match tentativeG with
    | Some g =>
        hNext ← heuristic nodes endId nextId;
        Some {| cameFrom := <[nextId := current]> (cameFrom st);
                gScore := <[nextId := g]> (gScore st);
                fScore := <[nextId := addNum g hNext]> (fScore st);
                openSet := if includes (openSet st) nextId then openSet st
                           else openSet st ++ [nextId] |}
    | None => Some st
    end
  else Some st.

Fixpoint relaxAll (nodes : gmap string node) (endId current : string)
    (st : search) (todo : list string) : option search :=
  match todo with
  | [] => Some st
  | nextId :: rest =>
      match relax nodes endId current st nextId with
      | Some st' => relaxAll nodes endId current st' rest
      | None => None
      end
  end.

(** [while (openSet.length > 0) { ... }]; [budget] is the iteration budget
    of the path reconstruction, [fuel] that of this loop. *)
Fixpoint searchLoop (fuel budget : nat) (nodes : gmap string node) (endId : string)
    (st : search) : result :=
  match lowest (fScore st) (openSet st) with
  | None => Null
  | Some current =>
      if String.eqb current endId then
        match reconstruct budget (cameFrom st) current [current] with
        | Some path => Route path
        | None => OutOfFuel
        end
      else
        match fuel with
        | O => OutOfFuel
        | S fuel' =>
            let st1 := {| openSet := removeFirst current (openSet st);
                          cameFrom := cameFrom st;
                          gScore := gScore st;
                          fScore := fScore st |} in
            match nodes !! current with
            | None => TypeError
            | Some cur =>
                match relaxAll nodes endId current st1 (neighbors cur) with
                | Some st2 => searchLoop fuel' budget nodes endId st2
                | None => TypeError
                end
            end
        end
  end.

(** The state before the loop. *)
Definition initialSearch (nodes : gmap string node) (startId : string) (h0 : R) : search :=
  let allInf : gmap string num := (fun _ => Inf) <$> nodes in
  {| openSet := [startId];
     cameFrom := ∅;
     gScore := <[startId := Fin 0]> allInf;
     fScore := <[startId := Fin h0]> allInf |}.

Definition findPath_fuel (fuel : nat) (nodes : gmap string node)
    (startId endId : string) : result :=
  match heuristic nodes endId startId with
  | None => TypeError
  | Some h0 => searchLoop fuel fuel nodes endId (initialSearch nodes startId h0)
  end.

(** [findPath(nodes, startId, endId)].  As many iterations as the graph has
    nodes are enough for each of its loops. *)
Definition findPath (nodes : gmap string node) (startId endId : string) : result :=
  findPath_fuel (size nodes) nodes startId endId.

(** *** Routes of a graph *)

(** [v] is listed as a neighbour of [u], and both are nodes. *)
Definition edge (nodes : gmap string node) (u v : string) : Prop :=
  exists nu, nodes !! u = Some nu /\ v ∈ neighbors nu /\ is_Some (nodes !! v).

(** The Euclidean length of the edge between two nodes. *)
Definition edgeLength (nodes : gmap string node) (u v : string) : R :=
  match nodes !! u, nodes !! v with
  | Some a, Some b => hypot (nx a - nx b) (ny a - ny b)
  | _, _ => 0
  end.

(** [route nodes s v p c]: the list [p] is an ordered route from [s] to
    [v] along edges of the graph, of cumulative edge length [c]. *)
Inductive route (nodes : gmap string node) (s : string)
  : string -> list string -> R -> Prop :=
| route_start :
    is_Some (nodes !! s) -> route nodes s s [s] 0
| route_step (u v : string) (p : list string) (c : R) :
    route nodes s u p c -> edge nodes u v ->
    route nodes s v (p ++ [v]) (c + edgeLength nodes u v).

Definition reachable (nodes : gmap string node) (s e : string) : Prop :=
  exists p c, route nodes s e p c.

(** Every listed neighbour is a node of the graph. *)
Definition wellFormed (nodes : gmap string node) : Prop :=
  forall u nu v, nodes !! u = Some nu -> v ∈ neighbors nu -> is_Some (nodes !! v).

(** *** The invariant of the search *)

(** [treePath nodes s came closed v p c]: following [came] back from [v]
    gives the route [p] from [s], of length [c], through nodes of [closed]
    only, none of them twice. *)
Inductive treePath (nodes : gmap string node) (s : string)
    (came : gmap string string) (closed : list string)
  : string -> list string -> R -> Prop :=
| treePath_start :
    came !! s = None -> treePath nodes s came closed s [s] 0
| treePath_step (u v : string) (p : list string) (c : R) :
    treePath nodes s came closed u p c ->
    u ∈ closed -> v ∉ p -> came !! v = Some u -> edge nodes u v ->
    treePath nodes s came closed v (p ++ [v]) (c + edgeLength nodes u v).

(** The state of the search while the node [cur] is being expanded;
    [closed] lists the nodes expanded so far ([cur] last) and [todo] the
    neighbours of [cur] the inner loop has yet to visit.  Between two
    iterations of the outer loop [todo] is empty. *)
Record searchInv (nodes : gmap string node) (startId endId : string)
    (closed : list string) (cur : string) (todo : list string) (st : search)
  : Prop := mkSearchInv {
  inv_closed_nodup : NoDup closed;
  inv_closed_nodes : forall u, u ∈ closed -> is_Some (nodes !! u);
  inv_closed_end : endId ∉ closed;
  inv_open_nodup : NoDup (openSet st);
  inv_open : forall v, v ∈ openSet st ->
    (v ∉ closed) /\ is_Some (nodes !! v) /\
    exists r fr, gScore st !! v = Some (Fin r) /\ fScore st !! v = Some (Fin fr) /\
                 fr = r + edgeLength nodes v endId;
  inv_frontier : forall v r, gScore st !! v = Some (Fin r) -> v ∈ openSet st \/ v ∈ closed;
  inv_gdom : forall v, is_Some (nodes !! v) -> is_Some (gScore st !! v);
  inv_start : gScore st !! startId = Some (Fin 0);
  inv_tree : forall v r, gScore st !! v = Some (Fin r) ->
    exists p, treePath nodes startId (cameFrom st) closed v p r;
  inv_closed_opt : forall u, u ∈ closed ->
    exists r, gScore st !! u = Some (Fin r) /\
              forall p c, route nodes startId u p c -> r <= c;
  inv_relaxed : forall u nu v, u ∈ closed -> nodes !! u = Some nu -> v ∈ neighbors nu ->
    (u = cur /\ v ∈ todo) \/
    (is_Some (nodes !! v) /\
     exists ru rv, gScore st !! u = Some (Fin ru) /\ gScore st !! v = Some (Fin rv) /\
                   rv <= ru + edgeLength nodes u v)
}.

(** What the search establishes about its result: a returned path is a
    shortest route (the path of the tree, when no id on it is falsy); null
    means that there is no route; a [TypeError] means that some neighbour
    list names a node the graph does not have; and the iteration budget is
    not used up. *)
Definition searchPost (nodes : gmap string node) (startId endId : string)
    (res : result) : Prop :=
  match res with
  | Route p =>
      exists p0 c,
        route nodes startId endId p0 c /\
        (forall q c', route nodes startId endId q c' -> c <= c') /\
        ((forall w, w ∈ p0 -> truthy w = true) -> p = p0)
  | Null => ~ reachable nodes startId endId
  | TypeError => ~ wellFormed nodes
  | OutOfFuel => False
  end.

(** *** Example graphs *)

(** The graph of the Level 3 panel. *)
Definition GRAPH_NODES : gmap string node :=
  <["start"  := mkNode 50 50 ["n1"; "n2"]]> (
  <["n1"     := mkNode 150 50 ["start"; "n3"]]> (
  <["n2"     := mkNode 50 150 ["start"; "n4"]]> (
  <["n3"     := mkNode 250 50 ["n1"; "n5"; "center"]]> (
  <["n4"     := mkNode 50 250 ["n2"; "n6"]]> (
  <["center" := mkNode 200 150 ["n3"; "n6"; "n5"]]> (
  <["n5"     := mkNode 350 50 ["n3"; "goal_A"]]> (
  <["n6"     := mkNode 200 250 ["n4"; "center"; "goal_B"]]> (
  <["goal_A" := mkNode 350 150 ["n5"]]> (
  <["goal_B" := mkNode 200 280 ["n6"]]> ∅))))))))).

(** Two nodes [a] and [b] at the same place, each between [s] and [g]:
    the routes through them tie. *)
Definition tieGraph : gmap string node :=
  <["s" := mkNode 0 0 ["a"; "b"]]> (
  <["a" := mkNode 1 0 ["g"]]> (
  <["b" := mkNode 1 0 ["g"]]> (
  <["g" := mkNode 2 0 []]> ∅))).

(** A start node whose id is the empty string. *)
Definition emptyIdGraph : gmap string node :=
  <["" := mkNode 0 0 ["g"]]> (<["g" := mkNode 1 0 []]> ∅).

(** A neighbour list that names a node the graph does not have. *)
Definition danglingGraph : gmap string node :=
  <["a" := mkNode 0 0 ["zz"]]> (<["b" := mkNode 1 0 []]> ∅).

(** A decidable form of [wellFormed]. *)
Definition wellFormedb (nodes : gmap string node) : bool :=
  forallb (fun '(_, n) => forallb (fun v => bool_decide (is_Some (nodes !! v))) (neighbors n))
          (map_to_list nodes).

(** The state of the search on [tieGraph] after the start node has been
    expanded. *)
Definition tieOpen : option search :=
  match heuristic tieGraph "g" "s" with
  | Some h0 =>
      let st := initialSearch tieGraph "s" h0 in
      relaxAll tieGraph "g" "s"
        {| openSet := removeFirst "s" (openSet st); cameFrom := cameFrom st;
           gScore := gScore st; fScore := fScore st |} ["a"; "b"]
  | None => None
  end.

(** ** The pathfinder on JavaScript objects

    [findPath] reads its tables and the graph with [obj[key]].  On an
    ordinary object that finds an own property first and a member of
    [Object.prototype] otherwise, and an assignment to the key
    ["__proto__"] stores nothing when the value is a number or a string.
    The definitions above treat every read as a finite-map lookup, which
    is what the code does as long as no id is the name of such a member.
    The definitions of this module follow the reads and writes as
    JavaScript performs them, for a graph that is an ordinary object whose
    own properties are nodes [{ x, y, neighbors }] with numeric [x], [y]
    and an array of strings, and for ids that are strings. *)

Module Js.

(** The own property names of [Object.prototype] (ECMAScript, with the
    legacy accessors every browser and Node.js define). *)
Definition PROTOTYPE_MEMBERS : list string := [
  "constructor"; "__defineGetter__"; "__defineSetter__"; "hasOwnProperty";
  "__lookupGetter__"; "__lookupSetter__"; "isPrototypeOf";
  "propertyIsEnumerable"; "toString"; "valueOf"; "__proto__"; "toLocaleString"
].

Definition inherited (k : string) : bool := existsb (String.eqb k) PROTOTYPE_MEMBERS.

(** What [obj[k]] finds: an own property, the member of
    [Object.prototype] named [k], or [undefined]. *)
Inductive read (V : Type) : Type :=
| Own (v : V)
| Member
| Undefined.
Arguments Own {V} v.
Arguments Member {V}.
Arguments Undefined {V}.

(** [obj[k]], for the own properties [obj]. *)
Definition get {V : Type} (obj : gmap string V) (k : string) : read V :=
  match obj !! k with
  | Some v => Own v
  | None => if inherited k then Member else Undefined
  end.

(** [obj[k] = v] for a number or a string [v]: the setter of ["__proto__"]
    ignores a value that is not an object. *)
Definition set {V : Type} (k : string) (v : V) (obj : gmap string V) : gmap string V :=
  if String.eqb k "__proto__" then obj else <[k := v]> obj.

(** A value of [current] or of an element of the path: a string, or the
    member of [Object.prototype] named [k] (for ["constructor"] the
    function [Object], for ["__proto__"] the object [Object.prototype]
    itself).  All of the latter are truthy. *)
Inductive value :=
| Str (s : string)
| Proto (k : string).

(** [String(member)], the property key a member turns into: the text V8
    (Node.js, Chrome) and JavaScriptCore give for a built-in function, and
    ["[object Object]"] for [Object.prototype]. *)
Definition memberKey (k : string) : string :=
  if String.eqb k "__proto__" then "[object Object]"
  else ("function " ++ (if String.eqb k "constructor" then "Object" else k)
        ++ "() { [native code] }")%string.

(** The property key of a value. *)
Definition keyOf (v : value) : string :=
  match v with
  | Str s => s
  | Proto k => memberKey k
  end.

(** A number: finite (a real, see the note on numbers), [Infinity] or
    [NaN].  The numbers of the pathfinder are never negative. *)
Inductive number := Num (r : R) | Infinity | NaN.

(** [Number.MAX_VALUE], the largest finite double. *)
Definition MAX_VALUE : R := (2 - / 2 ^ 52) * 2 ^ 1023.

(** The result of an operation whose exact value is [r]: [Infinity] when
    that is out of the range of the doubles. *)
Definition overflow (r : R) : number :=
  if Rlt_dec MAX_VALUE r then Infinity else Num r.

(** [Math.hypot(a.x - b.x, a.y - b.y)] for two nodes; a difference out of
    range is infinite, and so is the result then. *)
Definition distance (a b : node) : number :=
  overflow (hypot (nx a - nx b) (ny a - ny b)).

(** [a < b] on numbers. *)
Definition ltNumber (a b : number) : bool :=
  match a, b with
  | Num x, Num y => if Rlt_dec x y then true else false
  | Num _, Infinity => true
  | _, _ => false
  end.

(** [a + b] *)
Definition addNumber (a b : number) : number :=
  match a, b with
  | Num x, Num y => overflow (x + y)
  | Infinity, Num _ => Infinity
  | Infinity, Infinity => Infinity
  | Num _, Infinity => Infinity
  | _, _ => NaN
  end.

(** An operand of [<] or [+] read from a score table. *)
Inductive operand :=
| Val (n : number)
| Obj (k : string)
| Undef.

Definition readScore (tbl : gmap string number) (k : string) : operand :=
  match get tbl k with
  | Own n => Val n
  | Member => Obj k
  | Undefined => Undef
  end.

(** [a < b]: numbers compare as numbers; [undefined] and an object
    compared with a number turn into [NaN], which compares false; two
    objects compare as the strings they turn into. *)
Definition lt (a b : operand) : bool :=
  match a, b with
  | Val x, Val y => ltNumber x y
  | Obj k1, Obj k2 => String.ltb (memberKey k1) (memberKey k2)
  | _, _ => false
  end.

(** The heuristic [h(id)].  [None] is the [TypeError] of reading [.x] of
    [undefined]; [.x] of a member of [Object.prototype] is [undefined],
    and the difference with it is [NaN]. *)
Definition h (nodes : gmap string node) (endId id : string) : option number :=
  match get nodes id, get nodes endId with
  | Undefined, _ => None
  | _, Undefined => None
  | Own n, Own e => Some (distance n e)
  | _, _ => Some NaN
  end.

Record search := mkSearch {
  openSet : list string;
  cameFrom : gmap string string;
  gScore : gmap string number;
  fScore : gmap string number
}.

(** What a call can do: return a path, return [null], throw a
    [TypeError], add a distance to a score that is an object (the node
    expanded is named ["__proto__"]; the sum is a string, and the model
    does not follow the run further), or still be running when the
    iteration budget of the model is used up. *)
Inductive outcome :=
| Path (path : list value)
| ReturnsNull
| Throws
| Exotic
| OutOfBudget.

(** [openSet.reduce((a, b) => fScore[a] < fScore[b] ? a : b)] *)
Definition lowest (fScore : gmap string number) (openSet : list string) : option string :=
  match openSet with
  | [] => None
  | first :: rest =>
      Some (fold_left (fun a b => if lt (readScore fScore a) (readScore fScore b)
                                  then a else b)
                      rest first)
  end.

(** Path reconstruction,
    [while (cameFrom[current]) { current = cameFrom[current]; path.unshift(current); }],
    with an iteration budget; [None] when the budget runs out. *)
Fixpoint reconstruct (fuel : nat) (cameFrom : gmap string string)
    (current : value) (path : list value) : option (list value) :=
  match get cameFrom (keyOf current) with
  | Own prev =>
      if truthy prev then
        match fuel with
        | O => None
        | S fuel' => reconstruct fuel' cameFrom (Str prev) (Str prev :: path)
        end
      else Some path
  | Member =>
      match fuel with
      | O => None
      | S fuel' =>
          reconstruct fuel' cameFrom (Proto (keyOf current))
                      (Proto (keyOf current) :: path)
      end
  | Undefined => Some path
  end.

(** What the body of [for (let nextId of neighbors)] can do. *)
Inductive relaxed :=
| Relaxed (st : search)
| RelaxThrows
| RelaxExotic.

Definition relax (nodes : gmap string node) (endId current : string)
    (st : search) (nextId : string) : relaxed :=
  match get nodes current, get nodes nextId with
  | Undefined, _ => RelaxThrows
  | _, Undefined => RelaxThrows
  | rc, rn =>
      let dist := match rc, rn with
                  | Own c, Own n => distance c n
                  | _, _ => NaN
                  end in
      match readScore (gScore st) current with
      | Obj _ => RelaxExotic
      | g0 =>
          let tentativeG := match g0 with Val g => addNumber g dist | _ => NaN end in
          if lt (Val tentativeG) (readScore (gScore st) nextId) then
            let gScore1 := set nextId tentativeG (gScore st) in
            match h nodes endId nextId with
            | None => RelaxThrows
            | Some hNext =>
                match readScore gScore1 nextId with
                | Obj _ => RelaxExotic
                | g1 =>
                    let f := match g1 with Val g => addNumber g hNext | _ => NaN end in
                    Relaxed {| cameFrom := set nextId current (cameFrom st);
                               gScore := gScore1;
                               fScore := set nextId f (fScore st);
                               openSet := if includes (openSet st) nextId then openSet st
                                          else openSet st ++ [nextId] |}
                end
            end
          else Relaxed st
      end
  end.

Fixpoint relaxAll (nodes : gmap string node) (endId current : string)
    (st : search) (todo : list string) : relaxed :=
  match todo with
  | [] => Relaxed st
  | nextId :: rest =>
      match relax nodes endId current st nextId with
      | Relaxed st' => relaxAll nodes endId current st' rest
      | other => other
      end
  end.

(** [while (openSet.length > 0) { ... }]; [budget] is the iteration budget
    of the path reconstruction, [fuel] that of this loop.  Iterating over
    [.neighbors] of a member of [Object.prototype], which is [undefined],
    throws. *)
Fixpoint searchLoop (fuel budget : nat) (nodes : gmap string node) (endId : string)
    (st : search) : outcome :=
  match lowest (fScore st) (openSet st) with
  | None => ReturnsNull
  | Some current =>
      if String.eqb current endId then
        match reconstruct budget (cameFrom st) (Str current) [Str current] with
        | Some path => Path path
        | None => OutOfBudget
        end
      else
        match fuel with
        | O => OutOfBudget
        | S fuel' =>
            let st1 := {| openSet := removeFirst current (openSet st);
                          cameFrom := cameFrom st;
                          gScore := gScore st;
                          fScore := fScore st |} in
            match get nodes current with
            | Own cur =>
                match relaxAll nodes endId current st1 (neighbors cur) with
                | Relaxed st2 => searchLoop fuel' budget nodes endId st2
                | RelaxThrows => Throws
                | RelaxExotic => Exotic
                end
            | _ => Throws
            end
        end
  end.

(** The state before the loop: [Object.keys(nodes).forEach] stores
    [Infinity] under every own key of the graph except ["__proto__"]. *)
Definition initialSearch (nodes : gmap string node) (startId : string) (h0 : number)
  : search :=
  let allInf : gmap string number := (fun _ => Infinity) <$> delete "__proto__" nodes in
  {| openSet := [startId];
     cameFrom := ∅;
     gScore := set startId (Num 0) allInf;
     fScore := set startId h0 allInf |}.

(** [findPath(nodes, startId, endId)], with an iteration budget for each of
    its loops. *)
Definition findPath_fuel (fuel : nat) (nodes : gmap string node)
    (startId endId : string) : outcome :=
  match h nodes endId startId with
  | None => Throws
  | Some h0 => searchLoop fuel fuel nodes endId (initialSearch nodes startId h0)
  end.

(** No id the call can meet is the name of a member of
    [Object.prototype]: not the start, not the goal, no key of the graph
    and no listed neighbour. *)
Definition plainIds (nodes : gmap string node) (startId endId : string) : Prop :=
  inherited startId = false /\ inherited endId = false /\
  forall k n, nodes !! k = Some n ->
              inherited k = false /\ forall v, v ∈ neighbors n -> inherited v = false.

Definition plainIdsb (nodes : gmap string node) (startId endId : string) : bool :=
  negb (inherited startId) && negb (inherited endId)
  && forallb (fun kn => negb (inherited (fst kn))
                        && forallb (fun v => negb (inherited v)) (neighbors (snd kn)))
             (map_to_list nodes).

(** The coordinates are small enough for every sum of distances the
    search can form to be in the range of the doubles: no coordinate
    exceeds [B] in absolute value, and [4 * B] times the number of nodes
    plus one does not exceed [MAX_VALUE]. *)
Definition noOverflow (nodes : gmap string node) : Prop :=
  exists B : R,
    (forall k n, nodes !! k = Some n -> Rabs (nx n) <= B /\ Rabs (ny n) <= B) /\
    4 * B * (INR (size nodes) + 1) <= MAX_VALUE.

(** A path of node ids, as values. *)
Definition ids (p : list string) : list value := map Str p.

(** A result of the finite-map definitions, as an outcome of this
    module. *)
Definition ofResult (r : result) : outcome :=
  match r with
  | Route p => Path (ids p)
  | Null => ReturnsNull
  | TypeError => Throws
  | OutOfFuel => OutOfBudget
  end.

(** A score of the finite-map definitions, as a number. *)
Definition ofNum (n : num) : number :=
  match n with
  | Fin r => Num r
  | Inf => Infinity
  end.

(** A graph with a start node named ["constructor"] and a goal named as
    the function [Object] prints. *)
Definition OBJECT_KEY : string := memberKey "constructor".
Definition prototypeGraph : gmap string node :=
  <["constructor" := mkNode 0 0 [OBJECT_KEY]]> (<[OBJECT_KEY := mkNode 1 0 []]> ∅).

(** A graph with a start node named ["constructor"] and a goal ["g"]. *)
Definition constructorGraph : gmap string node :=
  <["constructor" := mkNode 0 0 ["g"]]> (<["g" := mkNode 1 0 []]> ∅).

(** A graph of one node. *)
Definition loneGraph : gmap string node := <["a" := mkNode 0 0 []]> ∅.

(** Five nodes in a column, with a detour [s, c, a] and a short way
    [s, b, a], and a goal so far to the right that every heuristic value
    is [Infinity]. *)
Definition columnGraph : gmap string node :=
  <["s" := mkNode (- 2 ^ 1023) 0 ["b"; "c"]]> (
  <["b" := mkNode (- 2 ^ 1023) 1 ["a"]]> (
  <["c" := mkNode (- 2 ^ 1023) 10 ["a"]]> (
  <["a" := mkNode (- 2 ^ 1023) 2 ["d"]]> (
  <["d" := mkNode (- 2 ^ 1023) 3 []]> (
  <["e" := mkNode (2 ^ 1023) 0 []]> ∅))))).

(** Two nodes, joined by an edge, further apart than [MAX_VALUE]. *)
Definition farGraph : gmap string node :=
  <["a" := mkNode (- 2 ^ 1023) 0 ["b"]]> (<["b" := mkNode (2 ^ 1023) 0 []]> ∅).

End Js.

(** A state of the finite-map definitions, as a state of [Js]. *)
Definition ofSearch (st : search) : Js.search :=
  {| Js.openSet := openSet st;
     Js.cameFrom := cameFrom st;
     Js.gScore := Js.ofNum <$> gScore st;
     Js.fScore := Js.ofNum <$> fScore st |}.

(** The states the search goes through when every id is plain: the open
    set and the values of [cameFrom] are plain ids. *)
Definition plainState (st : search) : Prop :=
  Forall (fun k => Js.inherited k = false) (openSet st) /\
  forall k v, cameFrom st !! k = Some v -> Js.inherited v = false.

(** No finite entry of [gScore] exceeds [M]. *)
Definition scoresBelow (M : R) (st : search) : Prop :=
  forall v x, gScore st !! v = Some (Fin x) -> x <= M.

(** *** Further predicates on the Bidirectionality panel *)

(** The pose is inside the walls the MOVE step clamps to, with a wrapped
    heading. *)
Definition inWorld (r : pose) : Prop :=
  10 <= rx r <= WORLD_W - 10 /\ 10 <= ry r <= WORLD_H - 10 /\ - PI <= theta r <= PI.

(** A stored measurement record, as the sensing branch builds it. *)
Definition wellFormedRecord (m : measInfo) : Prop :=
  inVantage m = true /\
  0.045 <= sigma m <= 0.20 /\
  - PI <= meas m <= PI /\
  0 <= err1 m <= PI /\ 0 <= err2 m <= PI /\
  (winner m = "H1 (Near L1)" <-> err1 m <= err2 m) /\
  (winner m = "H2 (Near L2)" <-> err2 m < err1 m).

(** A stretch of frames of one run, none of which senses. *)
Fixpoint quietFrames (st : sim) (frames : list (R * draws)) : Prop :=
  match frames with
  | [] => True
  | (dtMs, d) :: rest =>
      frameRuns st dtMs /\ senses st dtMs = false /\
      elapsed st + dtMs / 1000 <= 28 /\
      quietFrames (tick st dtMs d) rest
  end.

Definition runFrames (st : sim) (frames : list (R * draws)) : sim :=
  fold_left (fun s f => tick s (fst f) (snd f)) frames st.

(** Simulated seconds of a list of frames. *)
Definition framesTime (frames : list (R * draws)) : R :=
  fold_right (fun f acc => fst f / 1000 + acc) 0 frames.

(** The state after the frame that follows [atTheGate], when the
    measurement it takes is eight standard deviations off: the update is
    skipped, so the robot stays undecided on its way to the vantage point,
    now at (150, 150) with the sense timer back at 0. *)
Definition afterOutlier : sim := tick atTheGate 250 (mkDraws 8 0).

(** Running in bidirectional mode, still undecided, at [(x, 150)] heading
    along the x axis, with the sense timer at [tm], [el] seconds into the
    run. *)
Definition undecidedAt (st : sim) (x tm el : R) : Prop :=
  running st = true /\ mode st = BIDIR /\ belief st = (0.5, 0.5) /\
  robot st = mkPose x 150 0 /\ senseTimer st = tm /\ elapsed st = el.

(** The dither state of the stubborn robot under the weak prior. *)
Definition dithering (st : sim) : Prop :=
  prior st = WEAK /\ mode st = STUBBORN /\
  (stubSide st = 0%Z \/ stubSide st = 1%Z) /\
  0 <= stubTimer st <= STUB_DITHER_PERIOD /\
  belief st = (0.5, 0.5) /\ measRef st = None.

(** ** Level 2 auto-play panel: the physics behind the sequencer
    ([Level2Auto] in [components/TabViews/Limitations.js]) *)

Module Level2.

Definition WORLD_W : R := 1000.
Definition WORLD_H : R := 720.
Definition MARGIN : R := 40.
Definition HOME : point := mkPoint (WORLD_W - 140) (WORLD_H - 120).
Definition LANDMARK : point := mkPoint 210 170.
Definition LANDMARK_LOCK_R : R := 18.
Definition SPEED : R := 90.
Definition TURN_RATE : R := 3.6.
Definition TRAIL_MAX : nat := 900.
Definition TRAIL_SAMPLE_DT : R := 0.045.
Definition DRIFT_WIND : R := 1.7.

(** [s.drift = { bx, by }] *)
Record bias := mkBias { bx : R; by_ : R }.

(** [stateRef.current].  The [flash] and [isBeaconing] values are React
    state used for drawing only and are left out. *)
Record simState := mkState {
  agent : pose;
  odo : point;
  trail : list point;
  odoTrail : list point;
  drift : bias;
  lmLocked : bool;
  foodIdx : nat;
  foods : list point;
  trailAcc : R;
  desiredAngle : R;
  homeBearing : R
}.

(** The refs of the panel: the sequencer cursor and the simulation. *)
Record refs := mkRefs { seqRef : seqCursor; stateRef : simState }.

(** The values of the three [randn()] calls of one frame: the heading
    noise of the foraging walk and the two drift samples. *)
Record noise := mkNoise { headingNoise : R; driftNoiseX : R; driftNoiseY : R }.

(** The initial value of [stateRef], given the food locations. *)
Definition initialState (fs : list point) : simState :=
  {| agent := mkPose (px HOME) (py HOME) (- PI * 0.75);
     odo := mkPoint 0 0; trail := []; odoTrail := [];
     drift := mkBias 0 0; lmLocked := false; foodIdx := 0; foods := fs;
     trailAcc := 0; desiredAngle := - PI * 0.75; homeBearing := 0 |}.

(** [resetSim()] *)
Definition resetSim (s : simState) : simState :=
  {| agent := mkPose (px HOME) (py HOME) (- PI * 0.75);
     odo := mkPoint 0 0;
     trail := [mkPoint (px HOME) (py HOME)];
     odoTrail := [mkPoint (px HOME) (py HOME)];
     drift := mkBias 0 0;
     lmLocked := false;
     foodIdx := 0;
     foods := foods s;
     trailAcc := 0;
     desiredAngle := - PI * 0.75;
     homeBearing := 0 |}.

(** The simulation once the mount effect has stored the food locations
    and called [resetSim()]; the game loop starts from here. *)
Definition mounted (fs : list point) : simState := resetSim (initialState fs).

(** [curStep.phase === 'IDLE' || ... === 'HOLD' || ... === 'RESET'] *)
Definition paused (curStep : phase) : bool :=
  String.eqb (phaseKind curStep) "IDLE"
  || String.eqb (phaseKind curStep) "HOLD"
  || String.eqb (phaseKind curStep) "RESET".

(** The OUTBOUND block: what it leaves in [s.foodIdx] and in the local
    [desiredAngle]; [None] is the [TypeError] of [target.x] when
    [s.foods[s.foodIdx]] is undefined. *)
Definition outbound (s : simState) (n : noise) : option (nat * R) :=
  target ← foods s !! foodIdx s;
  let d := hypot (px target - rx (agent s)) (py target - ry (agent s)) in
  Some (if Rlt_dec d 18 then ((foodIdx s + 1) mod length (foods s))%nat else foodIdx s,
        atan2 (py target - ry (agent s)) (px target - rx (agent s))
        + headingNoise n * 0.25).

(** The RETURN block: what it leaves in the local [desiredAngle], in
    [s.lmLocked] and in [s.odo]. *)
Definition homing (md : string) (s : simState) (desired : R) : R * bool * point :=
  let a := agent s in
  if String.eqb md "COMPASS" then
    (atan2 (py HOME - ry a) (px HOME - rx a), lmLocked s, odo s)
  else if String.eqb md "ODOMETRY" then
    (atan2 (- py (odo s)) (- px (odo s)), lmLocked s, odo s)
  else if String.eqb md "LANDMARK" then
    let dLm := hypot (rx a - px LANDMARK) (ry a - py LANDMARK) in
    if negb (lmLocked s) then
      if Rlt_dec dLm (LANDMARK_LOCK_R + 6)
      then (atan2 (py LANDMARK - ry a) (px LANDMARK - rx a), true,
            mkPoint (rx a - px HOME) (ry a - py HOME))
      else (atan2 (py LANDMARK - ry a) (px LANDMARK - rx a), lmLocked s, odo s)
    else (atan2 (- py (odo s)) (- px (odo s)), lmLocked s, odo s)
  else (desired, lmLocked s, odo s).

(** "Soft Wall Avoidance": the desired angle after the probe. *)
Definition wallAvoid (a : pose) (desired : R) : R :=
  let probeX := rx a + cos desired * 42 in
  let probeY := ry a + sin desired * 42 in
  let wallX := clamp probeX MARGIN (WORLD_W - MARGIN) in
  let wallY := clamp probeY MARGIN (WORLD_H - MARGIN) in
  if Req_dec_T wallX probeX then
    if Req_dec_T wallY probeY then desired
    else atan2 (WORLD_H / 2 - ry a) (WORLD_W / 2 - rx a)
  else atan2 (WORLD_H / 2 - ry a) (WORLD_W / 2 - rx a).

(** [speedNow] *)
Definition speedNow (curStep : phase) (locked : bool) (a : pose) : R :=
  let dHome := hypot (rx a - px HOME) (ry a - py HOME) in
  let canAutoStop :=
    String.eqb (phaseMode curStep) "COMPASS"
    || (String.eqb (phaseMode curStep) "LANDMARK" && locked) in
  if String.eqb (phaseKind curStep) "RETURN" && canAutoStop
     && (if Rlt_dec dHome 14 then true else false)
  then 0 else SPEED.

(** "Move Agent" *)
Definition moveAgent (a : pose) (desired speed dt : R) : pose :=
  let dTh := angleDiff desired (theta a) in
  let theta1 := wrapPi (theta a + clamp dTh (- TURN_RATE * dt) (TURN_RATE * dt)) in
  mkPose (clamp (rx a + cos theta1 * speed * dt) MARGIN (WORLD_W - MARGIN))
         (clamp (ry a + sin theta1 * speed * dt) MARGIN (WORLD_H - MARGIN))
         theta1.

(** [s.drift.bx += (randn() * 1.3 + DRIFT_WIND) * dt], and the same for
    [by]. *)
Definition driftStep (b : bias) (dt : R) (n : noise) : bias :=
  mkBias (bx b + (driftNoiseX n * 1.3 + DRIFT_WIND) * dt)
         (by_ b + (driftNoiseY n * 1.3 + DRIFT_WIND) * dt).

(** [noiseScale] *)
Definition noiseScale (curStep : phase) : R :=
  if String.eqb (phaseMode curStep) "ODOMETRY"
     || String.eqb (phaseMode curStep) "LANDMARK"
  then 1 else 0.

(** [push] then [if (length > TRAIL_MAX) shift()] *)
Definition pushTrail (tr : list point) (p : point) : list point :=
  let tr' := tr ++ [p] in
  if (TRAIL_MAX <? length tr')%nat then tail tr' else tr'.

(** Step 2 of the game loop, "SIMULATION LOGIC", for a phase that is not
    paused. *)
Definition physics (curStep : phase) (s : simState) (dt : R) (n : noise)
  : option simState :=
  out ← (if String.eqb (phaseKind curStep) "OUTBOUND"
         then outbound s n else Some (foodIdx s, theta (agent s)));
  let ret :=
    if String.eqb (phaseKind curStep) "RETURN"
    then homing (phaseMode curStep) s (snd out)
    else (snd out, lmLocked s, odo s) in
  let locked := snd (fst ret) in
  let odo1 := snd ret in
  let a := agent s in
  let desired := wallAvoid a (fst (fst ret)) in
  let a1 := moveAgent a desired (speedNow curStep locked a) dt in
  let dX := rx a1 - rx a in
  let dY := ry a1 - ry a in
  let drift1 := driftStep (drift s) dt n in
  let odo2 := mkPoint (px odo1 + (dX + bx drift1 * dt * noiseScale curStep))
                      (py odo1 + (dY + by_ drift1 * dt * noiseScale curStep)) in
  let acc := trailAcc s + dt in
  let sample := if Rge_dec acc TRAIL_SAMPLE_DT then true else false in
  Some {| agent := a1;
          odo := odo2;
          trail := if sample then pushTrail (trail s) (mkPoint (rx a1) (ry a1))
                   else trail s;
          odoTrail := if sample
                      then pushTrail (odoTrail s)
                             (mkPoint (px HOME + px odo2) (py HOME + py odo2))
                      else odoTrail s;
          drift := drift1;
          lmLocked := locked;
          foodIdx := fst out;
          foods := foods s;
          trailAcc := if sample then 0 else acc;
          desiredAngle := desired;
          homeBearing := atan2 (py HOME - ry a) (px HOME - rx a) |}.

(** One call of the game-loop callback.  [None] is a [TypeError], which
    ends the animation loop. *)
Definition frame (seq : list phase) (w : refs) (dtRaw : R) (n : noise)
  : option refs :=
  match manageDemoTimeline seq (seqRef w) dtRaw with
  | None => None
  | Some (cursor, resetCalled) =>
      let s0 := if resetCalled : bool then resetSim (stateRef w) else stateRef w in
      curStep ← seq !! idx cursor;
      if paused curStep then Some (mkRefs cursor s0)
      else s1 ← physics curStep s0 (effectiveDt dtRaw) n;
           Some (mkRefs cursor s1)
  end.

(** The refs after a series of frames. *)
Fixpoint runFrames (seq : list phase) (w : refs) (fs : list (R * noise))
  : option refs :=
  match fs with
  | [] => Some w
  | f :: rest =>
      match frame seq w (fst f) (snd f) with
      | Some w' => runFrames seq w' rest
      | None => None
      end
  end.

(** The agent is inside the margins, with a wrapped heading. *)
Definition inBounds (a : pose) : Prop :=
  MARGIN <= rx a <= WORLD_W - MARGIN /\ MARGIN <= ry a <= WORLD_H - MARGIN /\
  - PI <= theta a <= PI.

(** The believed position [HOME + odo] is the real one. *)
Definition odometryExact (s : simState) : Prop :=
  px HOME + px (odo s) = rx (agent s) /\ py HOME + py (odo s) = ry (agent s).

(** The trails are as long as each other and within [TRAIL_MAX]; the food
    cursor points at a food. *)
Definition tidy (s : simState) : Prop :=
  length (trail s) = length (odoTrail s) /\
  (length (trail s) <= TRAIL_MAX)%nat /\
  (foodIdx s < length (foods s))%nat /\
  0 <= trailAcc s.

(** An agent on its way home in LANDMARK mode that has just reached the
    landmark, its odometry off by (50, 30). *)
Definition atLandmark : simState :=
  {| agent := mkPose 210 170 0; odo := mkPoint (-600) (-400);
     trail := []; odoTrail := []; drift := mkBias 1 1; lmLocked := false;
     foodIdx := 0; foods := []; trailAcc := 0; desiredAngle := 0; homeBearing := 0 |}.

End Level2.

(** ** Limitations panel: two controllers on one path
    ([Limitations] in [components/TabViews/Limitations.js]) *)

Module Limitations.

Definition PATH : list point := [
  mkPoint 20 150;
  mkPoint 100 150;
  mkPoint 150 50;
  mkPoint 250 250;
  mkPoint 350 150;
  mkPoint 380 150
].

(** [dist(a, b)] *)
Definition dist (a b : point) : R := hypot (px a - px b) (py a - py b).

(** The result [{ x, y, t }] of [closestPointOnSegment]. *)
Record projection := mkProjection { cx : R; cy : R; ct : R }.

(** [closestPointOnSegment(p, a, b)]; [ab2] is [abx * abx + aby * aby || 1e-9],
    where a zero is falsy. *)
Definition closestPointOnSegment (p a b : point) : projection :=
  let abx := px b - px a in
  let aby := py b - py a in
  let apx := px p - px a in
  let apy := py p - py a in
  let ab2 := if Req_dec_T (abx * abx + aby * aby) 0 then 1e-9
             else abx * abx + aby * aby in
  let t := clamp ((apx * abx + apy * aby) / ab2) 0 1 in
  mkProjection (px a + t * abx) (py a + t * aby) t.

(** [best = { d, seg, pt, t }] *)
Record best := mkBest { bd : num; seg : nat; pt : point; bt : R }.

(** The first loop of [getLookaheadPoint], over the segments from index
    [i] on: [segs] are the pairs [(PATH[i], PATH[i + 1])] still to visit. *)
Fixpoint closestLoop (pos : point) (i : nat) (segs : list (point * point)) (b : best)
  : best :=
  match segs with
  | [] => b
  | (a, b') :: rest =>
      let cp := closestPointOnSegment pos a b' in
      let d := hypot (px pos - cx cp) (py pos - cy cp) in
      closestLoop pos (S i) rest
        (if ltScore (Some (Fin d)) (Some (bd b))
         then mkBest (Fin d) i (mkPoint (cx cp) (cy cp)) (ct cp)
         else b)
  end.

(** The pairs [(PATH[i], PATH[i + 1])] for [i < PATH.length - 1]. *)
Definition segments (path : list point) : list (point * point) :=
  zip path (tail path).

(** What [getLookaheadPoint] can give: a point, an object without
    coordinates (the spread of [undefined], for an empty path), or, in the
    model only, a loop budget that ran out. *)
Inductive lookaheadResult :=
| At (p : point)
| NoCoordinates
| OutOfBudget.

(** The last point of the path, [{ ...PATH[PATH.length - 1] }]. *)
Definition endOfPath (path : list point) : lookaheadResult :=
  match last path with
  | Some p => At p
  | None => NoCoordinates
  end.

(** The second loop, [while (remaining > 0 && i < PATH.length - 1)], with
    an iteration budget.  After [i++], [cur = { ...PATH[i] }] is the point
    [b] just read as [PATH[i + 1]]. *)
Fixpoint march (fuel : nat) (path : list point) (remaining : R) (i : nat) (cur : point)
  : lookaheadResult :=
  if (if Rgt_dec remaining 0 then true else false) && (i <? length path - 1)%nat then
    match fuel with
    | O => OutOfBudget
    | S fuel' =>
        match path !! (i + 1)%nat with
        | None => NoCoordinates
        | Some b =>
            let segLen := hypot (px b - px cur) (py b - py cur) in
            if Rlt_dec segLen 1e-6 then march fuel' path remaining (i + 1) b
            else if Rle_dec remaining segLen then
              let ux := (px b - px cur) / segLen in
              let uy := (py b - py cur) / segLen in
              At (mkPoint (px cur + ux * remaining) (py cur + uy * remaining))
            else march fuel' path (remaining - segLen) (i + 1) b
        end
    end
  else endOfPath path.

(** [getLookaheadPoint(pos, lookahead)], on a given path. *)
Definition getLookaheadPointOn (path : list point) (pos : point) (lookahead : R)
  : lookaheadResult :=
  match path with
  | [] => NoCoordinates
  | p0 :: _ =>
      let b := closestLoop pos 0 (segments path) (mkBest Inf 0 p0 0) in
      march (length path) path lookahead (seg b) (pt b)
  end.

Definition getLookaheadPoint : point -> R -> lookaheadResult :=
  getLookaheadPointOn PATH.

(** [dtSec = dt > 1 ? dt / 1000 : dt] *)
Definition dtSecOf (dt : R) : R := if Rgt_dec dt 1 then dt / 1000 else dt.

(** Agent A: [{ x, y, theta, index, wait }], with the pose grouped. *)
Record naive := mkNaive { pos : pose; index : nat; wait : R }.

(** [oscRef.current] *)
Record oscillation := mkOsc {
  lastSign : Z;
  flips : nat;
  window : R;
  oscT : R;
  flag : bool;
  flagT : R
}.

(** [Math.sign] *)
Definition sign (a : R) : Z :=
  if Rlt_dec 0 a then 1%Z else if Rlt_dec a 0 then (-1)%Z else 0%Z.

(** The oscillation detector of agent A. *)
Definition detect (osc : oscillation) (angleDiff dtSec : R) : oscillation :=
  let s := if Rgt_dec (Rabs angleDiff) 0.15 then sign angleDiff else 0%Z in
  let flips1 :=
    if negb (s =? 0)%Z && negb (lastSign osc =? 0)%Z && negb (s =? lastSign osc)%Z
    then S (flips osc) else flips osc in
  let lastSign1 := if negb (s =? 0)%Z then s else lastSign osc in
  let t1 := oscT osc - dtSec in
  let expired := if Rle_dec t1 0 then true else false in
  let flag2 := if expired then (4 <=? flips1)%nat else flag osc in
  let flagT2 := if expired then (if flag2 then 0.8 else 0) else flagT osc in
  let flips2 := if expired then O else flips1 in
  let t2 := if expired then window osc else t1 in
  let flagT3 := if Rgt_dec flagT2 0 then flagT2 - dtSec else flagT2 in
  let flag3 :=
    if Rgt_dec flagT2 0 then (if Rle_dec flagT3 0 then false else flag2) else flag2 in
  mkOsc lastSign1 flips2 (window osc) t2 flag3 flagT3.

(** The updater passed to [setAgentA]: the next agent, the detector, and
    whether [setFinishedA(true)] was called.  [None] is the [TypeError] of
    reading [.x] of a path point that does not exist. *)
Definition updateA (path : list point) (prev : naive) (osc : oscillation) (dtSec : R)
  : option (naive * oscillation * bool) :=
  let speed := 90 * dtSec in
  if Rgt_dec (wait prev) 0 then
    Some (mkNaive (pos prev) (index prev) (Rmax 0 (wait prev - dtSec)), osc, false)
  else
    target ← path !! index prev;
    let d := hypot (px target - rx (pos prev)) (py target - ry (pos prev)) in
    let near := if Rlt_dec d 10 then true else false in
    if near && negb (index prev <? length path - 1)%nat
    then Some (prev, osc, true)
    else
      let index1 := if near then S (index prev) else index prev in
      let wait1 := if near then 0.6 else wait prev in
      tgt ← path !! index1;
      let targetAngle := atan2 (py tgt - ry (pos prev)) (px tgt - rx (pos prev)) in
      let angleDiff := wrapPi (targetAngle - theta (pos prev)) in
      let omega := clamp (10.0 * angleDiff) (- 14.0) 14.0 in
      let theta1 := wrapPi (theta (pos prev) + omega * dtSec) in
      let moving := if Rlt_dec (Rabs angleDiff) 0.45 then true else false in
      Some (mkNaive
              (mkPose (if moving then rx (pos prev) + cos theta1 * speed else rx (pos prev))
                      (if moving then ry (pos prev) + sin theta1 * speed else ry (pos prev))
                      theta1)
              index1 wait1,
            detect osc angleDiff dtSec, false).

(** The updater passed to [setAgentB]: the next agent and whether
    [setFinishedB(true)] was called. *)
Definition updateB (path : list point) (prev : pose) (dtSec : R) : option (pose * bool) :=
  let speed := 90 * dtSec in
  endPt ← last path;
  if Rlt_dec (dist (mkPoint (rx prev) (ry prev)) endPt) 10 then Some (prev, true)
  else
    match getLookaheadPointOn path (mkPoint (rx prev) (ry prev)) 45 with
    | At target =>
        let targetAngle := atan2 (py target - ry prev) (px target - rx prev) in
        let angleDiff := wrapPi (targetAngle - theta prev) in
        let omega := clamp (3.0 * angleDiff) (- 4.0) 4.0 in
        let theta1 := wrapPi (theta prev + omega * dtSec) in
        let v := 1 - clamp (Rabs angleDiff / 1.2) 0 0.5 in
        Some (mkPose (rx prev + cos theta1 * speed * v)
                     (ry prev + sin theta1 * speed * v) theta1, false)
    | _ => None
    end.

(** [c] is on the segment from [a] to [b]. *)
Definition onSegment (a b c : point) : Prop :=
  exists s, 0 <= s <= 1 /\
            px c = px a + s * (px b - px a) /\ py c = py a + s * (py b - py a).

(** [c] is on the polyline [path]. *)
Definition onPath (path : list point) (c : point) : Prop :=
  exists i a b, path !! i = Some a /\ path !! S i = Some b /\ onSegment a b c.

End Limitations.

(** ** Level 3 panel: vector, route and map navigation on [GRAPH_NODES]
    (the first [Level3] component) *)

Module Level3.

(** [mode]: ['VECTOR' | 'ROUTE' | 'MAP'] *)
Inductive navMode := VECTOR | ROUTE | MAP.

(** [goalId]: the component starts with ['goal_A'], and the only update,
    [setGoalId(prev => prev === 'goal_A' ? 'goal_B' : 'goal_A')], moves
    between the two goals. *)
Inductive goal := goal_A | goal_B.

(** The node id a goal stands for. *)
Definition goalName (g : goal) : string :=
  match g with
  | goal_A => "goal_A"
  | goal_B => "goal_B"
  end.

(** [randomizeGoal] *)
Definition randomizeGoal (g : goal) : goal :=
  match g with
  | goal_A => goal_B
  | goal_B => goal_A
  end.

(** The React state the callbacks read: [agent], [goalId], [mode],
    [plannedPath] and [currentPathIndex].  An element of the plan is kept
    as the property key it is used as. *)
Record panel := mkPanel {
  agent : pose;
  goalId : goal;
  mode : navMode;
  plannedPath : list string;
  currentPathIndex : nat
}.

(** The route agent's learned route. *)
Definition LEARNED_ROUTE : list string := ["start"; "n1"; "n3"; "n5"; "goal_A"].

(** [recalculatePath(targetId)], which the component calls with [goalId]:
    the planned path and path index it leaves.  The search gets as many
    iterations as the graph has nodes; [None] is an exception thrown by
    [findPath] (or, in the model only, a search that is not over within
    that budget). *)
Definition recalculatePath (s : panel) (targetId : goal) : option panel :=
  match mode s with
  | MAP =>
      match Js.findPath_fuel (size GRAPH_NODES) GRAPH_NODES "start" (goalName targetId) with
      | Js.Path p => Some (mkPanel (agent s) (goalId s) (mode s) (Js.keyOf <$> p) 0)
      | Js.ReturnsNull => Some (mkPanel (agent s) (goalId s) (mode s) [] 0)
      | Js.Throws | Js.Exotic | Js.OutOfBudget => None
      end
  | ROUTE => Some (mkPanel (agent s) (goalId s) (mode s) LEARNED_ROUTE 0)
  | VECTOR => Some (mkPanel (agent s) (goalId s) (mode s) [] (currentPathIndex s))
  end.

(** The wall [{ x: 100, y: 100, w: 20, h: 100 }]: whether a point is
    strictly inside it. *)
Definition insideWall (x y : R) : bool :=
  (if Rgt_dec x 100 then true else false)
  && (if Rlt_dec x (100 + 20) then true else false)
  && (if Rgt_dec y 100 then true else false)
  && (if Rlt_dec y (100 + 100) then true else false).

(** "Update Angle for display" and [setAgent(nextAgent)]. *)
Definition withHeading (a : pose) (x1 y1 : R) : pose :=
  let moveAngle := atan2 (y1 - ry a) (x1 - rx a) in
  mkPose x1 y1
    (if Rgt_dec (hypot (x1 - rx a) (y1 - ry a)) 0.1 then moveAngle else theta a).

(** The game-loop callback, on the state of the last render; [dt] is the
    frame time as the loop passes it, and the result is the state after
    [setAgent] and [setCurrentPathIndex].  [None]: the frame leaves no
    state of this model.  Either it throws the [TypeError] of reading [.x]
    of [undefined] (a plan id that is no property of the graph), or the
    plan id names a member of [Object.prototype], whose [.x] is
    [undefined], and the coordinates of the agent are [NaN] from then
    on. *)
Definition gameLoop (s : panel) (dt : R) : option panel :=
  let speed := 0.1 * dt in
  let a := agent s in
  match mode s with
  | VECTOR =>
      match Js.get GRAPH_NODES (goalName (goalId s)) with
      | Js.Own goalPos =>
          let angle := atan2 (ny goalPos - ry a) (nx goalPos - rx a) in
          let x1 := rx a + cos angle * speed in
          let y1 := ry a + sin angle * speed in
          let hit := insideWall x1 y1 in
          Some (mkPanel (withHeading a (if hit then rx a else x1) (if hit then ry a else y1))
                        (goalId s) (mode s) (plannedPath s) (currentPathIndex s))
      | _ => None
      end
  | _ =>
      match plannedPath s !! currentPathIndex s with
      | Some targetNodeId =>
          if truthy targetNodeId then
            match Js.get GRAPH_NODES targetNodeId with
            | Js.Own targetNode =>
                let dist := hypot (nx targetNode - rx a) (ny targetNode - ry a) in
                if Rlt_dec dist 5 then
                  Some (mkPanel (withHeading a (rx a) (ry a)) (goalId s) (mode s)
                          (plannedPath s)
                          (if (currentPathIndex s <? length (plannedPath s) - 1)%nat
                           then currentPathIndex s + 1 else currentPathIndex s)%nat)
                else
                  let angle := atan2 (ny targetNode - ry a) (nx targetNode - rx a) in
                  Some (mkPanel (withHeading a (rx a + cos angle * speed)
                                               (ry a + sin angle * speed))
                          (goalId s) (mode s) (plannedPath s) (currentPathIndex s))
            | _ => None
            end
          else Some (mkPanel (withHeading a (rx a) (ry a)) (goalId s) (mode s)
                       (plannedPath s) (currentPathIndex s))
      | None => Some (mkPanel (withHeading a (rx a) (ry a)) (goalId s) (mode s)
                        (plannedPath s) (currentPathIndex s))
      end
  end.

End Level3.

(** * Part II: properties *)

(** ** Angle wrapping *)

Section WrapPi.

Lemma two_PI_pos : 0 < 2 * PI.
Proof. pose proof PI_RGT_0. lra. Qed.

(** The first loop: what it returns when it returns. *)
Lemma wrapPi_down_some (n : nat) : forall a r,
  wrapPi_down n a = Some r ->
  r <= PI /\ (a <= PI -> r = a) /\ (PI < a -> - PI < r) /\
  exists j : nat, r = a - 2 * PI * INR j.
Proof.
  induction n as [|n IH]; intros a r; simpl.
  - destruct (Rgt_dec a PI) as [Hgt|Hle]; [discriminate|].
    intros [= <-]. repeat split; try lra.
    exists 0%nat. simpl. lra.
  - destruct (Rgt_dec a PI) as [Hgt|Hle].
    + intros Hrec. destruct (IH _ _ Hrec) as (H1 & H2 & H3 & j & Hj).
      unfold Rgt in Hgt.
      split; [assumption|]. split; [intros; lra|]. split.
      * intros _. destruct (Rle_dec (a - 2 * PI) PI) as [Hs|Hs].
        -- rewrite (H2 Hs). lra.
        -- apply H3. lra.
      * exists (S j). rewrite S_INR. lra.
    + intros [= <-]. repeat split; try lra.
      exists 0%nat. simpl. lra.
Qed.

(** The first loop leaves within [n] iterations when [a] is at most
    [n] turns above [π]. *)
Lemma wrapPi_down_enough (n : nat) : forall a,
  a <= PI + 2 * PI * INR n -> exists r, wrapPi_down n a = Some r.
Proof.
  induction n as [|n IH]; intros a Ha; simpl.
  - simpl in Ha. destruct (Rgt_dec a PI) as [Hgt|Hle]; [unfold Rgt in Hgt; lra|eauto].
  - destruct (Rgt_dec a PI) as [Hgt|Hle]; [|eauto].
    apply IH. rewrite S_INR in Ha. lra.
Qed.

Lemma wrapPi_up_some (n : nat) : forall a r,
  wrapPi_up n a = Some r ->
  - PI <= r /\ (- PI <= a -> r = a) /\ (a < - PI -> r < PI) /\
  exists j : nat, r = a + 2 * PI * INR j.
Proof.
  induction n as [|n IH]; intros a r; simpl.
  - destruct (Rlt_dec a (- PI)) as [Hlt|Hge]; [discriminate|].
    intros [= <-]. repeat split; try lra.
    exists 0%nat. simpl. lra.
  - destruct (Rlt_dec a (- PI)) as [Hlt|Hge].
    + intros Hrec. destruct (IH _ _ Hrec) as (H1 & H2 & H3 & j & Hj).
      split; [assumption|]. split; [intros; lra|]. split.
      * intros _. destruct (Rle_dec (- PI) (a + 2 * PI)) as [Hs|Hs].
        -- rewrite (H2 Hs). lra.
        -- apply H3. lra.
      * exists (S j). rewrite S_INR. lra.
    + intros [= <-]. repeat split; try lra.
      exists 0%nat. simpl. lra.
Qed.

Lemma wrapPi_up_enough (n : nat) : forall a,
  - PI - 2 * PI * INR n <= a -> exists r, wrapPi_up n a = Some r.
Proof.
  induction n as [|n IH]; intros a Ha; simpl.
  - simpl in Ha. destruct (Rlt_dec a (- PI)) as [Hlt|Hge]; [lra|eauto].
  - destruct (Rlt_dec a (- PI)) as [Hlt|Hge]; [|eauto].
    apply IH. rewrite S_INR in Ha. lra.
Qed.

(** More budget never changes a result. *)
Lemma wrapPi_down_more (n : nat) : forall m a r,
  wrapPi_down n a = Some r -> (n <= m)%nat -> wrapPi_down m a = Some r.
Proof.
  induction n as [|n IH]; intros m a r; simpl.
  - destruct (Rgt_dec a PI) as [Hgt|Hle]; [discriminate|].
    intros [= <-] _. destruct m; simpl; destruct (Rgt_dec a PI); try contradiction; reflexivity.
  - destruct (Rgt_dec a PI) as [Hgt|Hle].
    + intros Hrec Hle. destruct m as [|m]; [lia|]. simpl.
      destruct (Rgt_dec a PI); [|contradiction]. apply IH; [assumption|lia].
    + intros [= <-] _. destruct m; simpl; destruct (Rgt_dec a PI); try contradiction; reflexivity.
Qed.

Lemma wrapPi_up_more (n : nat) : forall m a r,
  wrapPi_up n a = Some r -> (n <= m)%nat -> wrapPi_up m a = Some r.
Proof.
  induction n as [|n IH]; intros m a r; simpl.
  - destruct (Rlt_dec a (- PI)) as [Hlt|Hge]; [discriminate|].
    intros [= <-] _. destruct m; simpl; destruct (Rlt_dec a (- PI)); try contradiction; reflexivity.
  - destruct (Rlt_dec a (- PI)) as [Hlt|Hge].
    + intros Hrec Hle. destruct m as [|m]; [lia|]. simpl.
      destruct (Rlt_dec a (- PI)); [|contradiction]. apply IH; [assumption|lia].
    + intros [= <-] _. destruct m; simpl; destruct (Rlt_dec a (- PI)); try contradiction; reflexivity.
Qed.

Lemma wrapPi_fuel_more (n m : nat) (a r : R) :
  wrapPi_fuel n a = Some r -> (n <= m)%nat -> wrapPi_fuel m a = Some r.
Proof.
  unfold wrapPi_fuel. destruct (wrapPi_down n a) as [a1|] eqn:Hd; [|discriminate].
  intros Hu Hle. rewrite (wrapPi_down_more _ _ _ _ Hd Hle).
  eapply wrapPi_up_more; eassumption.
Qed.

(** The budget covers [|a|]. *)
Lemma wrapPi_budget_covers (a : R) : Rabs a <= 2 * PI * INR (wrapPi_budget a).
Proof.
  unfold wrapPi_budget. pose proof two_PI_pos as Hpos.
  set (q := Rabs a / (2 * PI)).
  destruct (archimed q) as [Hup _].
  assert (Hq : 0 <= q).
  { unfold q. apply Rmult_le_pos; [apply Rabs_pos|]. left. now apply Rinv_0_lt_compat. }
  assert (Hz : (0 <= up q)%Z).
  { apply le_IZR. lra. }
  rewrite INR_IZR_INZ, Z2Nat.id by assumption.
  assert (Rabs a = 2 * PI * q) as -> by (unfold q; field; lra).
  apply Rmult_le_compat_l; lra.
Qed.

(** Both loops of [wrapPi] exit within the budget, for every real [a]. *)
Lemma wrapPi_fuel_enough (a : R) :
  exists r, wrapPi_fuel (wrapPi_budget a) a = Some r.
Proof.
  pose proof (wrapPi_budget_covers a) as Hb.
  pose proof (Rle_abs a) as Ha1. pose proof (Rle_abs (- a)) as Ha2.
  rewrite Rabs_Ropp in Ha2. pose proof PI_RGT_0 as Hpi.
  unfold wrapPi_fuel.
  destruct (wrapPi_down_enough (wrapPi_budget a) a) as [a1 Hd]; [lra|].
  rewrite Hd. apply wrapPi_up_enough.
  destruct (wrapPi_down_some _ _ _ Hd) as (_ & Hsame & Hwrapped & _).
  destruct (Rle_dec a PI) as [Hle|Hgt].
  - rewrite (Hsame Hle). lra.
  - assert (- PI < a1) by (apply Hwrapped; lra).
    pose proof (pos_INR (wrapPi_budget a)). nra.
Qed.

Lemma wrapPi_fuel_eq (a : R) : wrapPi_fuel (wrapPi_budget a) a = Some (wrapPi a).
Proof.
  unfold wrapPi. destruct (wrapPi_fuel_enough a) as [r ->]. reflexivity.
Qed.

(** Whatever budget lets the loops finish, the result is [wrapPi a]. *)
Lemma wrapPi_fuel_sound (n : nat) (a r : R) :
  wrapPi_fuel n a = Some r -> r = wrapPi a.
Proof.
  intros Hn. pose proof (wrapPi_fuel_eq a) as Hb.
  destruct (Nat.le_ge_cases n (wrapPi_budget a)) as [Hle|Hle].
  - rewrite (wrapPi_fuel_more _ _ _ _ Hn Hle) in Hb. congruence.
  - rewrite (wrapPi_fuel_more _ _ _ _ Hb Hle) in Hn. congruence.
Qed.

(** The result is in the closed interval, and differs from the argument
    by a whole number of turns. *)
Lemma wrapPi_spec (a : R) :
  - PI <= wrapPi a <= PI /\ exists k : Z, wrapPi a = a + 2 * PI * IZR k.
Proof.
  pose proof (wrapPi_fuel_eq a) as Heq. unfold wrapPi_fuel in Heq.
  destruct (wrapPi_down _ a) as [a1|] eqn:Hd; [|discriminate].
  destruct (wrapPi_down_some _ _ _ Hd) as (Hle & Hsame & Hwr & j & Hj).
  destruct (wrapPi_up_some _ _ _ Heq) as (Hge & Hsame' & Hwr' & j' & Hj').
  split.
  - split; [assumption|].
    destruct (Rle_dec (- PI) a1) as [H|H]; [rewrite (Hsame' H); assumption|].
    left. apply Hwr'. lra.
  - exists (Z.of_nat j' - Z.of_nat j)%Z.
    rewrite minus_IZR, <- !INR_IZR_INZ. lra.
Qed.

(** An angle already in the closed interval is returned as it is. *)
Lemma wrapPi_id (a : R) : - PI <= a <= PI -> wrapPi a = a.
Proof.
  intros [Hlo Hhi]. symmetry. apply (wrapPi_fuel_sound 0). unfold wrapPi_fuel. simpl.
  destruct (Rgt_dec a PI) as [H|_]; [unfold Rgt in H; lra|].
  simpl. destruct (Rlt_dec a (- PI)) as [H|_]; [lra|reflexivity].
Qed.

(** Two angles a whole number of turns apart, one in the closed and one
    in the open interval, are equal. *)
Lemma turn_unique (r r' : R) (k : Z) :
  - PI <= r <= PI -> - PI < r' < PI -> r = r' + 2 * PI * IZR k -> r = r'.
Proof.
  intros Hr Hr' Heq. pose proof PI_RGT_0 as Hpi.
  assert (Hk : (-1 < k < 1)%Z).
  { split; apply lt_IZR; simpl; nra. }
  assert (k = 0%Z) as -> by lia. simpl in Heq. lra.
Qed.

Lemma wrapPi_PI : wrapPi PI = PI.
Proof. apply wrapPi_id. pose proof PI_RGT_0. lra. Qed.

Lemma wrapPi_neg_PI : wrapPi (- PI) = - PI.
Proof. apply wrapPi_id. pose proof PI_RGT_0. lra. Qed.

Lemma wrapPi_0 : wrapPi 0 = 0.
Proof. apply wrapPi_id. pose proof PI_RGT_0. lra. Qed.

End WrapPi.

(** ** Binary64 arithmetic: where [wrapPi] stalls, and the sequencer *)

Section DoubleWrapPi.

Import PrimFloat.

(** At [1e17] a turn is less than half the distance to the next double:
    [1e17 - 2 * Math.PI] is [1e17] again, and the first loop never
    exits. *)
Lemma wrapPi_down_stalls (fuel : nat) : Double.wrapPi_down fuel 1e17 = None.
Proof.
  induction fuel as [|fuel IH]; [reflexivity|].
  change (Double.wrapPi_down (S fuel) 1e17) with (Double.wrapPi_down fuel 1e17).
  exact IH.
Qed.

Lemma wrapPi_stalls (fuel : nat) : Double.wrapPi_fuel fuel 1e17 = None.
Proof. unfold Double.wrapPi_fuel. now rewrite wrapPi_down_stalls. Qed.

End DoubleWrapPi.

Section DoubleSequencer.

Import PrimFloat.

#[local] Set Warnings "-inexact-float".

Lemma Double_runTimeline_app (seq : list Double.phase) (l1 l2 : list float) : forall c,
  Double.runTimeline seq c (l1 ++ l2) =
  match Double.runTimeline seq c l1 with
  | Some c' => Double.runTimeline seq c' l2
  | None => None
  end.
Proof.
  induction l1 as [|d l1 IH]; intros c; simpl; [reflexivity|].
  destruct (Double.manageDemoTimeline seq c d) as [[c' b]|]; [apply IH|reflexivity].
Qed.

Variable seq : list Double.phase.
Variable dt : float.
Hypothesis dt_fixed : Double.effectiveDt dt = dt.

(** Ticks that do not take the elapsed time past the duration leave the
    cursor in its phase. *)
Lemma Double_stay_in_phase (i : nat) (cur : Double.phase) (n : nat) : forall m,
  seq !! i = Some cur ->
  (forall j, (m < j <= m + n)%nat ->
             (Double.duration cur <? Double.elapsedAfter dt j)%float = false) ->
  Double.runTimeline seq (Double.mkCursor i (Double.elapsedAfter dt m)) (repeat dt n)
  = Some (Double.mkCursor i (Double.elapsedAfter dt (m + n))).
Proof.
  induction n as [|n IH]; intros m Hcur Hstay; simpl.
  - now rewrite Nat.add_0_r.
  - unfold Double.manageDemoTimeline. cbn [Double.idx Double.t].
    rewrite Hcur, dt_fixed.
    change (Double.elapsedAfter dt m + dt)%float with (Double.elapsedAfter dt (S m)).
    assert (Hj : (m < S m <= m + S n)%nat) by (split; lia).
    rewrite (Hstay (S m) Hj).
    rewrite (IH (S m) Hcur) by (intros j Hj'; apply (Hstay j); lia).
    now replace (m + S n)%nat with (S m + n)%nat by lia.
Qed.

(** The tick that takes the elapsed time past the duration moves the
    cursor to the next phase, with the elapsed time back at 0. *)
Lemma Double_leave_phase (i : nat) (cur : Double.phase) (n : nat) :
  seq !! i = Some cur ->
  Double.phaseTicks dt cur n = true ->
  Double.runTimeline seq (Double.mkCursor i 0) (repeat dt (S n))
  = Some (Double.mkCursor ((i + 1) mod length seq) 0).
Proof.
  intros Hcur Hticks. unfold Double.phaseTicks in Hticks.
  apply andb_true_iff in Hticks as [Hstay Hleave].
  rewrite forallb_forall in Hstay.
  replace (S n) with (n + 1)%nat by lia.
  rewrite repeat_app, Double_runTimeline_app.
  change 0%float with (Double.elapsedAfter dt 0) at 1.
  rewrite (Double_stay_in_phase i cur n 0 Hcur).
  - simpl. unfold Double.manageDemoTimeline. cbn [Double.idx Double.t].
    rewrite Hcur, dt_fixed.
    change (Double.elapsedAfter dt n + dt)%float with (Double.elapsedAfter dt (S n)).
    rewrite Hleave.
    assert (Hlen : (i < length seq)%nat) by (eapply lookup_lt_Some; eassumption).
    destruct (lookup_lt_is_Some_2 seq ((i + 1) mod length seq)) as [nxt Hnxt].
    { apply Nat.mod_upper_bound. lia. }
    now rewrite Hnxt.
  - intros j Hj. apply negb_true_iff, (Hstay j), in_seq. lia.
Qed.

(** Running through the phases [mid], entered at elapsed time 0. *)
Lemma Double_run_phases (mid : list Double.phase) : forall pre suf ns,
  seq = pre ++ mid ++ suf -> suf <> [] ->
  Forall2 (fun p n => Double.phaseTicks dt p n = true) mid ns ->
  Double.runTimeline seq (Double.mkCursor (length pre) 0) (repeat dt (cycleTicks ns))
  = Some (Double.mkCursor (length pre + length mid) 0).
Proof.
  induction mid as [|p mid IH]; intros pre suf ns Hseq Hsuf Hall.
  - apply Forall2_nil_inv_l in Hall as ->. simpl. do 2 f_equal. lia.
  - apply Forall2_cons_inv_l in Hall as (n & ns' & Hp & Hrest & ->).
    unfold cycleTicks in *. cbn [map fold_right].
    rewrite repeat_app, Double_runTimeline_app.
    assert (Hcur : seq !! length pre = Some p).
    { rewrite Hseq. rewrite lookup_app_r by lia.
      now replace (length pre - length pre)%nat with 0%nat by lia. }
    rewrite (Double_leave_phase (length pre) p n Hcur Hp).
    assert (Hlen : (length pre + 1 < length seq)%nat).
    { rewrite Hseq. rewrite !length_app. simpl. destruct suf; [congruence|simpl; lia]. }
    rewrite Nat.mod_small by assumption.
    specialize (IH (pre ++ [p]) suf ns').
    rewrite length_app in IH. simpl in IH. rewrite IH; try assumption.
    + simpl. do 2 f_equal. lia.
    + rewrite Hseq, <- app_assoc. reflexivity.
Qed.

(** One pass through all the phases. *)
Lemma Double_run_cycle (ns : list nat) :
  seq <> [] ->
  Forall2 (fun p n => Double.phaseTicks dt p n = true) seq ns ->
  Double.runTimeline seq (Double.mkCursor 0 0) (repeat dt (cycleTicks ns))
  = Some (Double.mkCursor 0 0).
Proof.
  intros Hne Hall.
  destruct (exists_last Hne) as (pre & p & Hseq).
  pose proof Hall as Hall'. rewrite Hseq in Hall'.
  apply Forall2_app_inv_l in Hall' as (ns1 & ns2 & Hpre & Hlast & ->).
  apply Forall2_cons_inv_l in Hlast as (n & ns' & Hp & Hnil & ->).
  apply Forall2_nil_inv_l in Hnil as ->.
  unfold cycleTicks. rewrite map_app, fold_right_app. cbn [map fold_right].
  assert (Hsplit : forall l k, fold_right Nat.add k l = (fold_right Nat.add 0 l + k)%nat).
  { induction l as [|a l IHl]; intros k; simpl; [reflexivity|rewrite IHl; lia]. }
  rewrite Hsplit, repeat_app, Double_runTimeline_app.
  fold (cycleTicks ns1).
  pose proof (Double_run_phases pre [] [p] ns1 Hseq ltac:(discriminate) Hpre) as Hrun.
  simpl in Hrun. rewrite Hrun.
  replace (S n + 0)%nat with (S n) by lia.
  assert (Hp' : seq !! length pre = Some p).
  { rewrite Hseq, lookup_app_r by lia.
    now replace (length pre - length pre)%nat with 0%nat by lia. }
  rewrite (Double_leave_phase (length pre) p n Hp' Hp).
  do 2 f_equal.
  replace (length seq) with (length pre + 1)%nat by (rewrite Hseq, length_app; simpl; lia).
  apply Nat.Div0.mod_same.
Qed.

End DoubleSequencer.
(** **** [wrapPi]: range and period *)

Section WrapPiClaims.

Import PrimFloat.

(** C3, as stated, fails in two ways.  At [a = -π] (over the reals):
    [-π > π] and [-π < -π] are both false, so neither loop runs and
    [wrapPi(-π)] is [-π], which is outside (−π, π]; one turn further,
    [wrapPi(π)] is [π].  And for a large [a] the call does not return at
    all: in doubles [1e17 - 2 * Math.PI] is [1e17], so the first loop never
    exits, whatever the iteration budget. *)
Lemma wrapPi_half_open_fails :
  ~ (forall a : R,
       (- PI < wrapPi a <= PI) /\
       (forall k : Z, wrapPi (a + 2 * PI * IZR k) = wrapPi a)) /\
  (forall fuel, Double.wrapPi_fuel fuel 1e17 = None).
Proof.
  split; [|exact wrapPi_stalls].
  intros H. destruct (H (- PI)%R) as [[Hlo _] _].
  rewrite wrapPi_neg_PI in Hlo. lra.
Qed.

(** Up to a magnitude of 2^53 the budget of each loop is at most 2^51
    iterations. *)
Lemma wrapPi_budget_le (a : R) : Rabs a <= 2 ^ 53 -> INR (wrapPi_budget a) <= 2 ^ 51.
Proof.
  intros Ha. unfold wrapPi_budget.
  pose proof PI2_3_2 as Hpi. pose proof (Rabs_pos a) as H0.
  set (x := Rabs a / (2 * PI)).
  assert (H51 : 4 <= 2 ^ 51).
  { replace 4 with (2 ^ 2) by (simpl; lra). apply Rle_pow; [lra|lia]. }
  assert (H53 : 2 ^ 53 = 4 * 2 ^ 51).
  { change 53%nat with (2 + 51)%nat. rewrite pow_add. simpl. lra. }
  assert (Hx : 0 <= x <= 2 ^ 53 / 6).
  { unfold x. split.
    - apply Rmult_le_pos; [assumption|]. left. apply Rinv_0_lt_compat. lra.
    - apply Rmult_le_compat; try lra.
      + left. apply Rinv_0_lt_compat. lra.
      + apply Rinv_le_contravar; lra. }
  destruct (archimed x) as [Hup1 Hup2].
  assert (Hpos : (0 <= up x)%Z) by (apply le_IZR; simpl; lra).
  rewrite INR_IZR_INZ, Z2Nat.id by assumption. lra.
Qed.

(** C3 (amended): for an [a] of magnitude at most 2^53, where a turn is
    more than the distance between neighbouring doubles, each loop of
    [wrapPi] exits within 2^51 iterations, and the result lies in the
    closed interval [−π, π]; and adding [k] whole turns to [a], within
    that magnitude, does not change the result whenever that result is not
    one of the two end points [±π] (over the reals). *)
Theorem wrapPi_range_period (a : R) (k : Z) :
  Rabs a <= 2 ^ 53 -> Rabs (a + 2 * PI * IZR k) <= 2 ^ 53 ->
  (exists n, INR n <= 2 ^ 51 /\ wrapPi_fuel n a = Some (wrapPi a)) /\
  (exists n, INR n <= 2 ^ 51 /\
             wrapPi_fuel n (a + 2 * PI * IZR k) = Some (wrapPi (a + 2 * PI * IZR k))) /\
  - PI <= wrapPi a <= PI /\
  (wrapPi a <> PI -> wrapPi a <> - PI -> wrapPi (a + 2 * PI * IZR k) = wrapPi a).
Proof.
  intros Ha Hak.
  destruct (wrapPi_spec a) as [Hr [j Hj]].
  destruct (wrapPi_spec (a + 2 * PI * IZR k)) as [Hr' [j' Hj']].
  split; [exists (wrapPi_budget a); split; [now apply wrapPi_budget_le|apply wrapPi_fuel_eq]|].
  split; [exists (wrapPi_budget (a + 2 * PI * IZR k));
          split; [now apply wrapPi_budget_le|apply wrapPi_fuel_eq]|].
  split; [assumption|].
  intros Hne1 Hne2.
  apply (turn_unique _ _ (k + j' - j)%Z); [assumption|lra|].
  rewrite minus_IZR, plus_IZR. lra.
Qed.

Lemma wrapPi_range_period_witness :
  (exists n, INR n <= 2 ^ 51 /\ wrapPi_fuel n 1 = Some (wrapPi 1)) /\
  - PI <= wrapPi 1 <= PI /\
  wrapPi (1 + 2 * PI * IZR (-3)) = wrapPi 1.
Proof.
  assert (Hbig : 32 <= 2 ^ 53).
  { replace 32 with (2 ^ 5) by (simpl; lra). apply Rle_pow; [lra|lia]. }
  pose proof PI2_3_2 as Hlo. pose proof PI_4 as Hhi.
  destruct (wrapPi_range_period 1 (-3)) as (Hn & _ & Hr & Hp).
  - rewrite Rabs_right; lra.
  - rewrite Rabs_left; lra.
  - split; [assumption|]. split; [assumption|].
    assert (H1 : wrapPi 1 = 1) by (apply wrapPi_id; lra).
    apply Hp; rewrite H1; lra.
Defined.

End WrapPiClaims.

(** **** The sequencer: one cycle *)

Section SequencerClaims.

Import PrimFloat.

#[local] Set Warnings "-inexact-float".

(** C8, as stated, fails on the shipped [DEMO_SEQUENCE] (13 phases, 54.2 s
    in total): with every frame at the 50 ms cap, 1085 frames simulate
    between 54.2 s and 54.25 s, and the cursor is then 0.9 s into the last
    phase (index 12), not back at index 0.  Each transition discards the
    part of the tick that went past the duration. *)
Lemma sequencer_wraparound_fails :
  let frames := repeat 0.05%float 1085 in
  (Double.totalDuration Double.DEMO_SEQUENCE <? Double.simulatedTime frames)%float = true /\
  (Double.simulatedTime frames <? Double.totalDuration Double.DEMO_SEQUENCE + 0.05)%float
  = true /\
  Double.runTimeline Double.DEMO_SEQUENCE (Double.mkCursor 0 0) frames
  = Some (Double.mkCursor 12 0.9000000000000002).
Proof. vm_compute. repeat split; reflexivity. Qed.

(** C8 (amended): the timeline advances to [(idx + 1) mod length] exactly
    on a tick that takes the elapsed time past the phase's duration, and
    then sets the elapsed time to 0, which discards the overshoot.  So with
    a constant tick [dt], where phase [i] is left on its tick [n_i + 1]
    (the first after which the elapsed time, added up tick by tick in
    doubles, exceeds [d_i]), the cursor is back at index 0 with elapsed
    time exactly 0 after [sum (n_i + 1)] ticks. *)
Theorem sequencer_cycle
    (seq : list Double.phase) (dt : float) (ns : list nat)
    (c : Double.seqCursor) (cur : Double.phase) (dtRaw : float) :
  seq !! Double.idx c = Some cur ->
  Double.effectiveDt dt = dt ->
  Forall2 (fun p n => Double.phaseTicks dt p n = true) seq ns ->
  (* the transition rule, for any cursor and frame *)
  ((Double.duration cur <? Double.t c + Double.effectiveDt dtRaw)%float = true ->
     exists r, Double.manageDemoTimeline seq c dtRaw
               = Some (Double.mkCursor ((Double.idx c + 1) mod length seq) 0, r)) /\
  ((Double.duration cur <? Double.t c + Double.effectiveDt dtRaw)%float = false ->
     Double.manageDemoTimeline seq c dtRaw
     = Some (Double.mkCursor (Double.idx c) (Double.t c + Double.effectiveDt dtRaw), false)) /\
  (* one full cycle with a constant tick *)
  Double.runTimeline seq (Double.mkCursor 0 0) (repeat dt (cycleTicks ns))
  = Some (Double.mkCursor 0 0).
Proof.
  intros Hcur Hdt Hall.
  assert (Hlen : (Double.idx c < length seq)%nat) by (eapply lookup_lt_Some; eassumption).
  assert (Hne : seq <> []) by (destruct seq; [simpl in Hlen; lia|discriminate]).
  split; [|split].
  - intros Hgt. unfold Double.manageDemoTimeline. rewrite Hcur, Hgt.
    destruct (lookup_lt_is_Some_2 seq ((Double.idx c + 1) mod length seq)) as [nxt Hnxt].
    { apply Nat.mod_upper_bound. lia. }
    rewrite Hnxt. eauto.
  - intros Hngt. unfold Double.manageDemoTimeline. now rewrite Hcur, Hngt.
  - now apply Double_run_cycle.
Qed.

Lemma sequencer_cycle_witness :
  let ns := [35; 140; 140; 44; 27; 120; 124; 35; 27; 144; 180; 39; 23]%nat in
  cycleTicks ns = 1091%nat /\
  Double.runTimeline Double.DEMO_SEQUENCE (Double.mkCursor 0 0) (repeat 0.05%float 1091)
  = Some (Double.mkCursor 0 0).
Proof.
  intros ns. split; [reflexivity|].
  change 1091%nat with (cycleTicks ns).
  refine (proj2 (proj2 (sequencer_cycle Double.DEMO_SEQUENCE 0.05 ns (Double.mkCursor 0 0)
                          (Double.mkPhase "INTRO" 1.8 "IDLE" "ODOMETRY" false false)
                          0 _ _ _))).
  - reflexivity.
  - reflexivity.
  - subst ns. unfold Double.DEMO_SEQUENCE.
    repeat (constructor; [vm_compute; reflexivity|]).
    constructor.
Defined.

End SequencerClaims.
(** ** Demo sequencer *)

Section Sequencer.

Lemma effectiveDt_id (dt : R) : 0 <= dt <= 0.05 -> effectiveDt dt = dt.
Proof.
  intros [Hlo Hhi]. unfold effectiveDt, clamp.
  destruct (Rgt_dec dt 1) as [H|_]; [unfold Rgt in H; lra|].
  rewrite Rmin_right by assumption. now rewrite Rmax_right.
Qed.

Lemma effectiveDt_range (dtRaw : R) : 0 <= effectiveDt dtRaw <= 0.05.
Proof.
  unfold effectiveDt, clamp. set (v := if Rgt_dec dtRaw 1 then _ else _).
  split; [apply Rmax_l|].
  apply Rmax_lub; [lra|apply Rmin_l].
Qed.

End Sequencer.
(** ** Belief filter and action policy *)

Section BeliefUpdate.

Lemma computeInitialBelief_normalised (p : priorMode) :
  normalised (computeInitialBelief p).
Proof. destruct p; unfold normalised; simpl; lra. Qed.

Lemma tempered_pos (lh : R) : 0 < tempered lh.
Proof. unfold tempered, Rpower. apply exp_pos. Qed.

Lemma likelihood_pos (err sg : R) : 0 < likelihood err sg.
Proof. apply exp_pos. Qed.

Lemma tempered_likelihood (err sg : R) :
  tempered (likelihood err sg) = exp (alpha * (- 0.5 * (err / sg) * (err / sg))).
Proof. unfold tempered, likelihood, Rpower. now rewrite ln_exp. Qed.

(** A larger angular error gives a smaller (tempered) likelihood. *)
Lemma tempered_likelihood_decreasing (e1 e2 sg : R) :
  0 < sg -> 0 <= e1 -> e1 <= e2 ->
  tempered (likelihood e2 sg) <= tempered (likelihood e1 sg).
Proof.
  intros Hsg He1 He12. rewrite !tempered_likelihood.
  assert (Hq : 0 <= e1 / sg <= e2 / sg).
  { unfold Rdiv. assert (0 < / sg) by now apply Rinv_0_lt_compat. split; nra. }
  destruct (Req_dec (e1 / sg) (e2 / sg)) as [->|Hne]; [lra|].
  left. apply exp_increasing. unfold alpha. nra.
Qed.

Lemma likelihoodSum_nonneg (b : R * R) (m : measInfo) :
  0 <= fst b -> 0 <= snd b -> 0 <= likelihoodSum b m.
Proof.
  intros H1 H2. unfold likelihoodSum.
  pose proof (tempered_pos (likelihood (err1 m) (sigma m))).
  pose proof (tempered_pos (likelihood (err2 m) (sigma m))). nra.
Qed.

(** The update branch renormalises. *)
Lemma updateBelief_normalised (b : R * R) (m : measInfo) :
  0 <= fst b -> 0 <= snd b -> likelihoodSum b m > 1e-9 ->
  normalised (updateBelief b m).
Proof.
  intros H1 H2 Hs. unfold updateBelief. fold (likelihoodSum b m).
  destruct (Rgt_dec (likelihoodSum b m) 1e-9) as [_|H]; [|contradiction].
  pose proof (tempered_pos (likelihood (err1 m) (sigma m))) as Hp1.
  pose proof (tempered_pos (likelihood (err2 m) (sigma m))) as Hp2.
  assert (Hpos : 0 < likelihoodSum b m) by lra.
  unfold normalised. simpl. repeat split.
  - unfold likelihoodSum in *. field. lra.
  - apply Rmult_le_pos; [nra|]. left. now apply Rinv_0_lt_compat.
  - apply Rmult_le_pos; [nra|]. left. now apply Rinv_0_lt_compat.
Qed.

(** The degenerate branch leaves the vector as it is. *)
Lemma updateBelief_skip (b : R * R) (m : measInfo) :
  ~ likelihoodSum b m > 1e-9 -> updateBelief b m = b.
Proof.
  intros Hs. unfold updateBelief. fold (likelihoodSum b m).
  destruct (Rgt_dec (likelihoodSum b m) 1e-9) as [H|_]; [contradiction|reflexivity].
Qed.

Lemma updateBelief_preserves (b : R * R) (m : measInfo) :
  normalised b -> normalised (updateBelief b m).
Proof.
  intros Hb. destruct (Rgt_dec (likelihoodSum b m) 1e-9) as [H|H].
  - apply updateBelief_normalised; [apply Hb..|assumption].
  - now rewrite updateBelief_skip.
Qed.

(** One confirming measurement does not lower [w1]. *)
Lemma updateBelief_monotone (b : R * R) (m : measInfo) :
  normalised b -> 0 < sigma m -> 0 <= err1 m -> err1 m <= err2 m ->
  fst b <= fst (updateBelief b m).
Proof.
  intros (Hsum & H1 & H2) Hsg He1 He12.
  destruct (Rgt_dec (likelihoodSum b m) 1e-9) as [Hs|Hs];
    [|rewrite updateBelief_skip by assumption; lra].
  unfold updateBelief. fold (likelihoodSum b m).
  destruct (Rgt_dec (likelihoodSum b m) 1e-9) as [_|H]; [|contradiction].
  pose proof (tempered_likelihood_decreasing _ _ _ Hsg He1 He12) as Hdec.
  pose proof (tempered_pos (likelihood (err1 m) (sigma m))) as Hp1.
  pose proof (tempered_pos (likelihood (err2 m) (sigma m))) as Hp2.
  simpl fst. unfold likelihoodSum in *.
  set (p1 := tempered (likelihood (err1 m) (sigma m))) in *.
  set (p2 := tempered (likelihood (err2 m) (sigma m))) in *.
  set (s := fst b * p1 + snd b * p2) in *.
  assert (Hspos : 0 < s) by lra.
  apply (Rmult_le_reg_r s); [assumption|].
  replace (fst b * p1 / s * s) with (fst b * p1) by (field; lra).
  assert (Hle : s <= p1).
  { unfold s. replace (snd b) with (1 - fst b) in * by lra. nra. }
  rewrite <- (Rmult_1_r (fst b * p1)), Rmult_assoc.
  apply Rmult_le_compat_l; [assumption|]. nra.
Qed.

End BeliefUpdate.

Section Frames.

Lemma tick_paused (st : sim) (dtMs : R) (d : draws) :
  running st = false -> tick st dtMs d = st.
Proof. intros H. unfold tick. now rewrite H. Qed.

Lemma tick_bad_dt (st : sim) (dtMs : R) (d : draws) :
  ~ 0 < dtMs / 1000 <= 0.25 -> tick st dtMs d = st.
Proof.
  intros H. unfold tick. destruct (negb (running st)); [reflexivity|].
  destruct (Rle_dec (dtMs / 1000) 0) as [|H1]; [reflexivity|].
  destruct (Rgt_dec (dtMs / 1000) 0.25) as [|H2]; [reflexivity|].
  exfalso. apply H. unfold Rgt in H2. lra.
Qed.

Lemma action_written (a b : string) :
  (if negb (String.eqb a b) then a else b) = a.
Proof. destruct (String.eqb_spec a b); simpl; congruence. Qed.

(** A frame that runs writes [savedBack], unless the run has lasted more
    than 28 s, in which case it ends with [reset]. *)
Lemma tick_frame (st : sim) (dtMs : R) (d : draws) :
  frameRuns st dtMs ->
  tick st dtMs d =
  if Rgt_dec (elapsed st + dtMs / 1000) 28
  then reset (prior st) (mode st) (random d)
  else savedBack st dtMs d.
Proof.
  intros [Hrun [Hlo Hhi]]. unfold tick. rewrite Hrun. simpl negb. cbv iota.
  destruct (Rle_dec (dtMs / 1000) 0) as [H|_]; [lra|].
  destruct (Rgt_dec (dtMs / 1000) 0.25) as [H|_]; [unfold Rgt in H; lra|].
  cbv zeta. cbn [prior mode elapsed]. rewrite action_written.
  reflexivity.
Qed.

Lemma tick_no_reset (st : sim) (dtMs : R) (d : draws) :
  frameRuns st dtMs -> elapsed st + dtMs / 1000 <= 28 ->
  tick st dtMs d = savedBack st dtMs d.
Proof.
  intros Hf He. rewrite tick_frame by assumption.
  destruct (Rgt_dec _ 28) as [H|_]; [unfold Rgt in H; lra|reflexivity].
Qed.

(** Every frame, and every button, keeps or re-installs the configured
    prior and mode... *)
Lemma tick_config (st : sim) (dtMs : R) (d : draws) :
  prior (tick st dtMs d) = prior st /\ mode (tick st dtMs d) = mode st.
Proof.
  unfold tick. destruct (negb (running st)); [easy|].
  destruct (Rle_dec _ 0); [easy|]. destruct (Rgt_dec _ 0.25); [easy|].
  cbv zeta. cbn [prior mode]. destruct (Rgt_dec _ 28); easy.
Qed.

(** ... and leaves the belief as it was, or updates it from a
    measurement, or re-installs the prior's initial belief. *)
Lemma tick_belief_cases (st : sim) (dtMs : R) (d : draws) :
  belief (tick st dtMs d) = belief st \/
  (senses st dtMs = true /\
   belief (tick st dtMs d)
   = updateBelief (belief st) (measure (movedPose st dtMs) (randn d))) \/
  belief (tick st dtMs d) = computeInitialBelief (prior st).
Proof.
  destruct (running st) eqn:Hrun; [|left; now rewrite tick_paused].
  destruct (Rlt_dec 0 (dtMs / 1000)) as [Hlo|Hlo];
    [|left; rewrite tick_bad_dt; [reflexivity|lra]].
  destruct (Rle_dec (dtMs / 1000) 0.25) as [Hhi|Hhi];
    [|left; rewrite tick_bad_dt; [reflexivity|lra]].
  rewrite tick_frame by (split; [assumption|lra]).
  destruct (Rgt_dec _ 28); [right; right; reflexivity|].
  simpl. destruct (senses st dtMs); [right; left; split; reflexivity|left; reflexivity].
Qed.

Lemma tick_normalised (st : sim) (dtMs : R) (d : draws) :
  normalised (belief st) -> normalised (belief (tick st dtMs d)).
Proof.
  intros Hb. destruct (tick_belief_cases st dtMs d) as [-> | [[_ ->] | ->]].
  - assumption.
  - now apply updateBelief_preserves.
  - apply computeInitialBelief_normalised.
Qed.

Lemma step_normalised (st : sim) (ev : event) :
  normalised (belief st) -> normalised (belief (step st ev)).
Proof.
  destruct ev; simpl; try easy.
  - apply tick_normalised.
  - intros _. apply computeInitialBelief_normalised.
Qed.

Lemma run_normalised (evs : list event) : forall st,
  normalised (belief st) -> normalised (belief (run st evs)).
Proof.
  induction evs as [|ev evs IH]; intros st Hb; simpl; [assumption|].
  apply IH. now apply step_normalised.
Qed.

Lemma run_app (evs1 evs2 : list event) (st : sim) :
  run st (evs1 ++ evs2) = run (run st evs1) evs2.
Proof. unfold run. apply fold_left_app. Qed.

End Frames.

(** C2: from any configured prior and mode, after any series of frames and
    button presses, a frame that senses and takes the update branch (the
    sum before normalisation exceeds 1e-9) leaves a belief vector with
    [w1 + w2] within 1e-6 of 1 and both weights non-negative. *)
Theorem belief_normalised_after_update
    (p : priorMode) (m : simMode) (rnd : R) (evs : list event)
    (dtMs : R) (d : draws) :
  let st := run (reset p m rnd) evs in
  frameRuns st dtMs ->
  senses st dtMs = true ->
  likelihoodSum (belief st) (measure (movedPose st dtMs) (randn d)) > 1e-9 ->
  let b := belief (tick st dtMs d) in
  Rabs (fst b + snd b - 1) <= 1e-6 /\ 0 <= fst b /\ 0 <= snd b.
Proof.
  intros st Hframe Hsense Hsum b.
  assert (Hst : normalised (belief st)).
  { apply run_normalised, computeInitialBelief_normalised. }
  assert (Hn : normalised b).
  { subst b. rewrite tick_frame by assumption.
    destruct (Rgt_dec _ 28).
    - apply computeInitialBelief_normalised.
    - simpl. rewrite Hsense. apply updateBelief_normalised; [apply Hst..|assumption]. }
  destruct Hn as (Hone & H1 & H2).
  repeat split; try assumption.
  rewrite Hone. replace (1 - 1) with 0 by lra. rewrite Rabs_R0. lra.
Qed.

(** *** The scripted approach to the vantage point *)

Section Approach.

Lemma clamp_id (v lo hi : R) : lo <= v <= hi -> clamp v lo hi = v.
Proof.
  intros [Hlo Hhi]. unfold clamp.
  rewrite Rmin_right by assumption. now rewrite Rmax_right.
Qed.

Lemma clamp_high (v lo hi : R) : lo <= hi -> hi <= v -> clamp v lo hi = hi.
Proof.
  intros Hlh Hv. unfold clamp.
  rewrite Rmin_left by assumption. now rewrite Rmax_right.
Qed.

Lemma clamp_range (v lo hi : R) : lo <= hi -> lo <= clamp v lo hi <= hi.
Proof.
  intros Hlh. unfold clamp. split; [apply Rmax_l|].
  apply Rmax_lub; [assumption|apply Rmin_l].
Qed.

Lemma hypot_axis (a b : R) : 0 <= a -> b = 0 -> hypot a b = a.
Proof.
  intros Ha ->. unfold hypot.
  replace (a * a + 0 * 0) with (Rsqr a) by (unfold Rsqr; ring).
  now apply sqrt_Rsqr.
Qed.

Lemma atan2_right (y x : R) : 0 < x -> atan2 y x = atan (y / x).
Proof. intros Hx. unfold atan2. destruct (Rlt_dec 0 x); [reflexivity|contradiction]. Qed.

(** Heading along the line [y = 150] towards the vantage point, the
    robot keeps its heading and advances by [SPEED * dt]. *)
Lemma move_cruise (x dt : R) :
  0 < dt -> 2.5 < 200 - x -> 10 <= x + 90 * dt <= 390 ->
  move (mkPose x 150 0) VANTAGE dt = mkPose (x + 90 * dt) 150 0.
Proof.
  intros Hdt Hfar Hin. unfold move. cbn [px py rx ry theta VANTAGE].
  rewrite (hypot_axis (200 - x) (150 - 150)) by lra.
  destruct (Rgt_dec (200 - x) 2.5) as [_|H]; [|unfold Rgt in H; lra].
  rewrite atan2_right by lra.
  replace ((150 - 150) / (200 - x)) with 0 by (field; lra).
  rewrite atan_0. unfold angleDiff.
  replace (0 - 0) with 0 by lra. rewrite wrapPi_0.
  rewrite (clamp_id 0) by (unfold TURN_RATE; lra).
  replace (0 + 0) with 0 by lra. rewrite wrapPi_0, cos_0, sin_0.
  unfold SPEED, WORLD_W, WORLD_H.
  rewrite !clamp_id by lra. f_equal; lra.
Qed.

Lemma vantageDistance_on_axis (x th : R) :
  x <= 200 -> vantageDistance (mkPose x 150 th) = 200 - x.
Proof.
  intros Hx. unfold vantageDistance. cbn [px py rx ry VANTAGE].
  apply hypot_axis; lra.
Qed.

Lemma undecided_targets_vantage (st : sim) (dt : R) :
  mode st = BIDIR -> belief st = (0.5, 0.5) ->
  topDown st dt
  = mkDecision VANTAGE "GO_TO_V (active localization)" (stubTimer st) (stubSide st).
Proof.
  intros Hm Hb. unfold topDown, confident. rewrite Hm, Hb. cbn [fst snd].
  replace (0.5 - 0.5) with 0 by lra. rewrite Rabs_R0.
  destruct (Rge_dec 0 CONF_THRESH) as [H|_]; [unfold CONF_THRESH in H; lra|reflexivity].
Qed.

Lemma cruising_frameRuns (st : sim) (x tm : R) :
  cruising st x tm -> frameRuns st 250.
Proof. intros (Hr & _). split; [assumption|lra]. Qed.

Lemma cruising_movedPose (st : sim) (x tm : R) :
  cruising st x tm -> 10 <= x + 22.5 -> x + 22.5 < 197.5 ->
  movedPose st 250 = mkPose (x + 22.5) 150 0.
Proof.
  intros (_ & Hm & _ & Hb & Hrob & _) Hlo Hhi. unfold movedPose.
  rewrite undecided_targets_vantage by assumption. cbn [target].
  rewrite Hrob, move_cruise by lra. f_equal. lra.
Qed.

(** One 250 ms frame on the approach, still outside the sensing radius. *)
Lemma cruise_frame (st : sim) (x tm : R) (d : draws) :
  cruising st x tm -> 10 <= x + 22.5 -> x + 22.5 < 145 -> tm + 0.25 <= 28 ->
  cruising (tick st 250 d) (x + 22.5) (tm + 0.25).
Proof.
  intros Hc Hlo Hhi Htm.
  pose proof (cruising_frameRuns _ _ _ Hc) as Hf.
  pose proof (cruising_movedPose _ _ _ Hc Hlo ltac:(lra)) as Hmv.
  destruct Hc as (Hr & Hm & Hp & Hb & Hrob & Hst & Hel & Hmeas).
  assert (Hns : senses st 250 = false).
  { unfold senses, shouldSense. rewrite Hmv, Hm.
    rewrite vantageDistance_on_axis by lra.
    destruct (Rle_dec (200 - (x + 22.5)) V_SENSE_RADIUS) as [H|_];
      [unfold V_SENSE_RADIUS in H; lra|].
    now rewrite !andb_false_r. }
  rewrite tick_no_reset by (try assumption; rewrite Hel; lra).
  unfold cruising, savedBack. cbn [running mode prior belief robot senseTimer elapsed measRef].
  rewrite Hns, Hmv, Hm, Hp, Hb, Hst, Hel, Hmeas.
  repeat split; try reflexivity; lra.
Qed.

Lemma atTheGate_cruising : cruising atTheGate 127.5 0.75.
Proof.
  unfold atTheGate, approach, run. cbn [fold_left step].
  assert (H0 : cruising (start (reset WEAK BIDIR 0)) 60 0).
  { unfold cruising. simpl. repeat split; reflexivity. }
  pose proof (cruise_frame _ _ _ noDraw H0 ltac:(lra) ltac:(lra) ltac:(lra)) as H1.
  pose proof (cruise_frame _ _ _ noDraw H1 ltac:(lra) ltac:(lra) ltac:(lra)) as H2.
  pose proof (cruise_frame _ _ _ noDraw H2 ltac:(lra) ltac:(lra) ltac:(lra)) as H3.
  destruct H3 as (Hr & Hm & Hp & Hb & Hrob & Hst & Hel & Hmeas).
  unfold cruising. rewrite Hrob, Hst, Hel.
  repeat split; try assumption; try (f_equal; lra); lra.
Qed.

(** The next frame brings the robot to (150, 150), inside the sensing
    radius, with the sense timer past its period: it senses. *)
Lemma atTheGate_frameRuns : frameRuns atTheGate 250.
Proof. exact (cruising_frameRuns _ _ _ atTheGate_cruising). Qed.

Lemma atTheGate_movedPose : movedPose atTheGate 250 = mkPose 150 150 0.
Proof.
  rewrite (cruising_movedPose _ _ _ atTheGate_cruising) by lra. f_equal. lra.
Qed.

Lemma atTheGate_senses : senses atTheGate 250 = true.
Proof.
  unfold senses, shouldSense. rewrite atTheGate_movedPose.
  destruct atTheGate_cruising as (_ & -> & _ & _ & _ & -> & _).
  rewrite vantageDistance_on_axis by lra.
  destruct (Rge_dec (0.75 + 250 / 1000) SENSE_PERIOD) as [_|H];
    [|unfold SENSE_PERIOD in H; lra].
  destruct (Rle_dec (200 - 150) V_SENSE_RADIUS) as [_|H];
    [|unfold V_SENSE_RADIUS in H; lra].
  reflexivity.
Qed.

End Approach.

(** *** The measurement taken on entering the sensing radius *)

Section Measurement.

Lemma measure_sigma_range (r : pose) (n : R) :
  0.045 <= sigma (measure r n) <= 0.20.
Proof. unfold measure. cbn [sigma]. apply clamp_range. lra. Qed.

Lemma measure_err1_nonneg (r : pose) (n : R) : 0 <= err1 (measure r n).
Proof. unfold measure. cbn [err1]. apply Rabs_pos. Qed.

Lemma bearings_ordered : - (PI / 2) < bearing2 < bearing1 /\ bearing1 < 0.
Proof.
  unfold bearing1, bearing2. repeat split.
  - pose proof (atan_bound ((60 - 290) / (320 - 150))). lra.
  - apply atan_increasing. lra.
  - rewrite <- atan_0. apply atan_increasing. lra.
Qed.

Lemma insidePose_sigma (n : R) : sigma (measure insidePose n) = sigmaInside.
Proof.
  unfold measure, insidePose. cbn [sigma].
  rewrite vantageDistance_on_axis by lra. unfold V_SENSE_RADIUS, sigmaInside.
  replace (200 - 150) with 50 by lra. apply clamp_id. lra.
Qed.

Lemma insidePose_pred (n : R) :
  pred1 (measure insidePose n) = bearing1 /\
  pred2 (measure insidePose n) = bearing2.
Proof.
  destruct bearings_ordered as ((Hlo & Hlt) & Hneg). pose proof PI_RGT_0 as Hpi.
  unfold measure, insidePose. cbn [pred1 pred2 rx ry theta px py BEACON].
  unfold SHIFT_Y, WORLD_H.
  rewrite (clamp_high (150 + 140)) by lra.
  rewrite !atan2_right by lra.
  replace (300 - 10) with 290 by lra.
  fold bearing1 bearing2. rewrite !Rminus_0_r.
  split; apply wrapPi_id; lra.
Qed.

(** With a noise sample [n] between 0 and [1.5 / sigma], neither wrap
    changes anything: the error under H1 is the noise itself and the error
    under H2 is larger by the gap between the two predicted bearings. *)
Lemma insidePose_errors (n : R) :
  0 <= n * sigmaInside <= 1.5 ->
  err1 (measure insidePose n) = n * sigmaInside /\
  err2 (measure insidePose n) = bearing1 - bearing2 + n * sigmaInside.
Proof.
  intros Hn.
  destruct bearings_ordered as ((Hlo & Hlt) & Hneg). pose proof PI_RGT_0 as Hpi.
  pose proof PI2_3_2 as Hpi2.
  pose proof (insidePose_pred n) as [Hp1 Hp2].
  pose proof (insidePose_sigma n) as Hsg.
  unfold measure in *. cbn [err1 err2 pred1 pred2 sigma] in *.
  rewrite Hp1, Hp2, Hsg. unfold angleDiff.
  rewrite (wrapPi_id (bearing1 + n * sigmaInside)) by lra.
  rewrite !wrapPi_id by lra.
  rewrite !Rabs_pos_eq by lra. split; lra.
Qed.

(** [exp 22.4 > 1e9], by repeated squaring from [exp 0.1 > 1.1]. *)
Lemma exp_22_4 : 1e9 < exp 22.4.
Proof.
  assert (Hdouble : forall x, exp (x + x) = exp x * exp x) by (intros; apply exp_plus).
  assert (E1 : 1.1 < exp 0.1) by (pose proof (exp_ineq1 0.1 ltac:(lra)); lra).
  assert (E2 : 1.21 < exp 0.2).
  { replace 0.2 with (0.1 + 0.1) by lra. rewrite Hdouble. nra. }
  assert (E4 : 1.4641 < exp 0.4).
  { replace 0.4 with (0.2 + 0.2) by lra. rewrite Hdouble. nra. }
  assert (E8 : 2.1435 < exp 0.8).
  { replace 0.8 with (0.4 + 0.4) by lra. rewrite Hdouble. nra. }
  assert (E16 : 4.594 < exp 1.6).
  { replace 1.6 with (0.8 + 0.8) by lra. rewrite Hdouble. nra. }
  assert (E32 : 21.1 < exp 3.2).
  { replace 3.2 with (1.6 + 1.6) by lra. rewrite Hdouble. nra. }
  assert (E64 : 445.2 < exp 6.4).
  { replace 6.4 with (3.2 + 3.2) by lra. rewrite Hdouble. nra. }
  assert (E128 : 198200 < exp 12.8).
  { replace 12.8 with (6.4 + 6.4) by lra. rewrite Hdouble. nra. }
  replace 22.4 with (12.8 + (6.4 + 3.2)) by lra. rewrite !exp_plus.
  assert (9393 < exp 6.4 * exp 3.2) by nra. nra.
Qed.

(** A noise sample of eight standard deviations makes both tempered
    likelihoods negligible. *)
Lemma insidePose_degenerate (b : R * R) :
  normalised b -> likelihoodSum b (measure insidePose 8) < 1e-9.
Proof.
  intros (Hsum & H1 & H2).
  assert (Hsg : 0 < sigmaInside) by (unfold sigmaInside; lra).
  destruct (insidePose_errors 8) as [He1 He2]; [unfold sigmaInside; lra|].
  destruct bearings_ordered as ((_ & Hlt) & _).
  pose proof (tempered_likelihood_decreasing
                (err1 (measure insidePose 8)) (err2 (measure insidePose 8))
                (sigma (measure insidePose 8))) as Hdec.
  rewrite insidePose_sigma, He1, He2 in Hdec.
  specialize (Hdec Hsg ltac:(lra) ltac:(lra)).
  unfold likelihoodSum. rewrite insidePose_sigma, He1, He2.
  set (p2 := tempered (likelihood (bearing1 - bearing2 + 8 * sigmaInside) sigmaInside)) in *.
  assert (Hp1 : tempered (likelihood (8 * sigmaInside) sigmaInside) < 1e-9).
  { rewrite tempered_likelihood. unfold alpha.
    assert (Hq : 8 * sigmaInside / sigmaInside = 8) by (field; lra).
    rewrite Hq. replace (0.70 * (-0.5 * 8 * 8)) with (Ropp 22.4) by lra.
    rewrite exp_Ropp. pose proof exp_22_4 as Hbig.
    replace 1e-9 with (/ 1e9) by lra.
    apply Rinv_lt_contravar; [|assumption].
    apply Rmult_lt_0_compat; lra. }
  pose proof (tempered_pos (likelihood (bearing1 - bearing2 + 8 * sigmaInside) sigmaInside)).
  fold p2 in H.
  replace (snd b) with (1 - fst b) by lra. nra.
Qed.

(** Without noise the measurement confirms H1, and the update is taken. *)
Lemma insidePose_noiseless :
  err1 (measure insidePose 0) < err2 (measure insidePose 0) /\
  forall b, normalised b -> fst b = 0.5 ->
            likelihoodSum b (measure insidePose 0) > 1e-9.
Proof.
  destruct (insidePose_errors 0) as [He1 He2]; [lra|].
  destruct bearings_ordered as ((_ & Hlt) & _).
  split; [lra|].
  intros b (Hsum & H1 & H2) Hb. unfold likelihoodSum.
  rewrite He1, insidePose_sigma. rewrite (tempered_likelihood (0 * sigmaInside)).
  assert (Hq : 0 * sigmaInside / sigmaInside = 0) by (unfold sigmaInside; field; lra).
  rewrite Hq. replace (alpha * (-0.5 * 0 * 0)) with 0 by lra.
  rewrite exp_0, Hb.
  pose proof (tempered_pos (likelihood (err2 (measure insidePose 0)) sigmaInside)). nra.
Qed.

End Measurement.

(** *** The properties of the belief filter and of the policy *)

Lemma atTheGate_normalised : normalised (belief atTheGate).
Proof. apply run_normalised, computeInitialBelief_normalised. Qed.

Lemma atTheGate_elapsed : elapsed atTheGate + 250 / 1000 <= 28.
Proof. destruct atTheGate_cruising as (_ & _ & _ & _ & _ & _ & -> & _). lra. Qed.

Lemma belief_normalised_after_update_witness :
  let b := belief (tick atTheGate 250 noDraw) in
  Rabs (fst b + snd b - 1) <= 1e-6 /\ 0 <= fst b /\ 0 <= snd b.
Proof.
  apply (belief_normalised_after_update WEAK BIDIR 0 approach 250 noDraw).
  - exact atTheGate_frameRuns.
  - exact atTheGate_senses.
  - fold atTheGate. rewrite atTheGate_movedPose.
    apply insidePose_noiseless; [exact atTheGate_normalised|].
    now destruct atTheGate_cruising as (_ & _ & _ & -> & _).
Defined.

(** The frame after [atTheGate] senses and stores a measurement record;
    0.1 s later the sense timer has not reached its period, so the next
    frame runs with the gate closed. *)
Lemma afterSensing_gate_closed :
  let st := tick atTheGate 250 noDraw in
  frameRuns st 100 /\ senses st 100 = false /\ mode st = BIDIR /\
  measRef st <> None /\ elapsed st + 100 / 1000 <= 28.
Proof.
  intros st.
  assert (Hst : st = savedBack atTheGate 250 noDraw).
  { subst st. apply tick_no_reset; [exact atTheGate_frameRuns|exact atTheGate_elapsed]. }
  clearbody st. subst st.
  destruct atTheGate_cruising as (_ & Hm & _ & _ & _ & _ & Hel & _).
  set (st := savedBack atTheGate 250 noDraw).
  assert (Hmode : mode st = BIDIR) by exact Hm.
  assert (Htimer : senseTimer st = 0).
  { unfold st. cbn [senseTimer savedBack].
    now rewrite atTheGate_senses. }
  assert (Helapsed : elapsed st = 0.75 + 250 / 1000).
  { unfold st. cbn [elapsed savedBack]. now rewrite Hel. }
  split; [split; [reflexivity|lra]|]. split; [|split; [assumption|split]].
  - unfold senses, shouldSense. rewrite Hmode, Htimer.
    destruct (Rge_dec (0 + 100 / 1000) SENSE_PERIOD) as [H|_];
      [unfold SENSE_PERIOD in H; lra|reflexivity].
  - unfold st. cbn [measRef savedBack]. now rewrite atTheGate_senses.
  - rewrite Helapsed. lra.
Qed.

(** C4, as stated, fails in bidirectional mode.  The frame after
    [atTheGate] senses and stores a measurement record; on the following
    100 ms frame the gate does not hold (the sense timer is at 0.1 s) and
    the stored record is still there: only STUBBORN mode clears it. *)
Lemma stale_measurement_retained :
  let st := tick atTheGate 250 noDraw in
  frameRuns st 100 /\ senses st 100 = false /\
  measRef st <> None /\ measRef (tick st 100 noDraw) = measRef st.
Proof.
  intros st.
  destruct afterSensing_gate_closed as (Hrun & Hgate & Hmode & Hmeas & Hel).
  fold st in Hrun, Hgate, Hmode, Hmeas, Hel.
  split; [assumption|]. split; [assumption|]. split; [assumption|].
  rewrite tick_no_reset by assumption.
  cbn [measRef savedBack]. rewrite Hgate, Hmode. reflexivity.
Qed.

(** C4 (amended): on a frame of a run (one that does not end it with the
    auto-loop reset) on which the sensing gate does not hold, the belief
    vector is left unchanged; the stored measurement record is cleared in
    STUBBORN mode and kept as it is in BIDIR mode. *)
Theorem gate_closed_frame (st : sim) (dtMs : R) (d : draws) :
  frameRuns st dtMs ->
  senses st dtMs = false ->
  elapsed st + dtMs / 1000 <= 28 ->
  belief (tick st dtMs d) = belief st /\
  (mode st = STUBBORN -> measRef (tick st dtMs d) = None) /\
  (mode st = BIDIR -> measRef (tick st dtMs d) = measRef st).
Proof.
  intros Hrun Hgate Hel. rewrite tick_no_reset by assumption.
  cbn [belief measRef savedBack]. rewrite Hgate.
  repeat split.
  - intros ->. now destruct (measRef st).
  - now intros ->.
Qed.

Lemma gate_closed_frame_witness :
  let st := tick atTheGate 250 noDraw in
  belief (tick st 100 noDraw) = belief st /\
  (mode st = STUBBORN -> measRef (tick st 100 noDraw) = None) /\
  (mode st = BIDIR -> measRef (tick st 100 noDraw) = measRef st).
Proof.
  intros st. destruct afterSensing_gate_closed as (Hrun & Hgate & _ & _ & Hel).
  exact (gate_closed_frame st 100 noDraw Hrun Hgate Hel).
Defined.

Lemma step_normalised_run (p : priorMode) (m : simMode) (rnd : R) (evs : list event) :
  normalised (belief (run (reset p m rnd) evs)).
Proof. apply run_normalised, computeInitialBelief_normalised. Qed.

(** One event of a confirming run does not lower [w1]. *)
Lemma confirmingEvent_monotone (st : sim) (ev : event) :
  normalised (belief st) -> confirmingEvent st ev ->
  fst (belief st) <= fst (belief (step st ev)).
Proof.
  intros Hn Hc.
  destruct ev as [dtMs d| | |p m rnd]; cbn [step confirmingEvent] in *;
    [| cbn; lra | cbn; lra | contradiction].
  destruct (running st) eqn:Hrun; [|rewrite tick_paused by assumption; lra].
  destruct (Rlt_dec 0 (dtMs / 1000)) as [Hlo|Hlo];
    [|rewrite tick_bad_dt by lra; lra].
  destruct (Rle_dec (dtMs / 1000) 0.25) as [Hhi|Hhi];
    [|rewrite tick_bad_dt by lra; lra].
  assert (Hf : frameRuns st dtMs) by (split; [assumption|lra]).
  destruct (Hc Hf) as [Hel Hfav].
  rewrite tick_no_reset by assumption. cbn [belief savedBack].
  destruct (senses st dtMs); [|lra].
  set (mi := measure (movedPose st dtMs) (randn d)) in *.
  destruct (Rgt_dec (likelihoodSum (belief st) mi) 1e-9) as [Hs|Hs].
  - pose proof (Hfav eq_refl Hs) as Hlt.
    apply updateBelief_monotone; try assumption.
    + pose proof (measure_sigma_range (movedPose st dtMs) (randn d)). fold mi in H. lra.
    + apply measure_err1_nonneg.
    + lra.
  - rewrite updateBelief_skip by assumption. lra.
Qed.

(** C5: within a run, across any number of consecutive frames whose
    measurements (where the frame senses and updates) all have
    [err1 < err2], the weight [w1] of hypothesis 1 never decreases.  The
    state [st] is any state the panel can be in, so the statement covers
    every pair of points of such a stretch. *)
Theorem belief_monotone_under_confirming_evidence
    (p : priorMode) (m : simMode) (rnd : R) (evs0 evs : list event) :
  let st := run (reset p m rnd) evs0 in
  confirming st evs ->
  fst (belief st) <= fst (belief (run st evs)).
Proof.
  intros st. assert (Hn : normalised (belief st)) by apply step_normalised_run.
  clearbody st. revert st Hn.
  induction evs as [|ev evs IH]; intros st Hn Hc; simpl in *; [lra|].
  destruct Hc as [Hev Hrest].
  pose proof (confirmingEvent_monotone st ev Hn Hev) as Hstep.
  specialize (IH (step st ev) (step_normalised st ev Hn) Hrest).
  eapply Rle_trans; eassumption.
Qed.

Lemma belief_monotone_under_confirming_evidence_witness :
  fst (belief atTheGate) <= fst (belief (run atTheGate [Tick 250 noDraw])).
Proof.
  apply (belief_monotone_under_confirming_evidence WEAK BIDIR 0 approach [Tick 250 noDraw]).
  fold atTheGate. split; [|exact I].
  intros _. split; [exact atTheGate_elapsed|].
  intros _. cbv zeta. rewrite atTheGate_movedPose. intros _.
  apply insidePose_noiseless.
Defined.

(** C6: in STUBBORN mode with the STRONG_WRONG prior, after any series of
    frames, starts, pauses and resets to the same configuration, the belief
    is still its initial value [0.1, 0.9] and the policy's target is L2. *)
Theorem stubborn_strong_wrong (rnd : R) (evs : list event) (dt : R) :
  Forall (sameConfig STRONG_WRONG STUBBORN) evs ->
  let st0 := reset STRONG_WRONG STUBBORN rnd in
  let st := run st0 evs in
  belief st = belief st0 /\
  belief st = (0.1, 0.9) /\
  target (topDown st dt) = L2.
Proof.
  intros Hall st0 st.
  assert (Hinv : prior st = STRONG_WRONG /\ mode st = STUBBORN /\ belief st = (0.1, 0.9)).
  { subst st.
    assert (H0 : prior st0 = STRONG_WRONG /\ mode st0 = STUBBORN /\ belief st0 = (0.1, 0.9))
      by (repeat split).
    clearbody st0. revert st0 H0.
    induction Hall as [|ev evs Hev _ IH]; intros s (Hp & Hm & Hb); [easy|].
    simpl. apply IH. destruct ev as [dtMs d| | |p' m' rnd']; simpl.
    - destruct (tick_config s dtMs d) as [Hp' Hm']. rewrite Hp', Hm'.
      repeat split; try assumption.
      destruct (tick_belief_cases s dtMs d) as [-> | [[Hs _] | ->]].
      + assumption.
      + unfold senses, shouldSense in Hs. rewrite Hm in Hs. discriminate.
      + now rewrite Hp.
    - easy.
    - easy.
    - destruct Hev as [-> ->]. easy. }
  destruct Hinv as (Hp & Hm & Hb).
  repeat split; try assumption.
  unfold topDown. now rewrite Hm, Hp.
Qed.

Lemma stubborn_strong_wrong_witness :
  let st0 := reset STRONG_WRONG STUBBORN 0 in
  let st := run st0 [Start; Tick 100 noDraw; Reset STRONG_WRONG STUBBORN 0.7;
                     Start; Tick 250 (mkDraws 8 0.2); Pause] in
  belief st = belief st0 /\
  belief st = (0.1, 0.9) /\
  target (topDown st 0.1) = L2.
Proof.
  apply (stubborn_strong_wrong 0).
  repeat (constructor; [simpl; auto|]). constructor.
Defined.

(** C7: on a frame that senses and finds the sum of the tempered,
    likelihood-weighted weights negligible (below 1e-9), the belief after
    the frame is exactly the belief before it, and the loop keeps running.
    The frame is one of a run: it does not end it with the auto-loop
    reset, which would re-install the prior. *)
Theorem degenerate_update_skipped (st : sim) (dtMs : R) (d : draws) :
  frameRuns st dtMs ->
  senses st dtMs = true ->
  likelihoodSum (belief st) (measure (movedPose st dtMs) (randn d)) < 1e-9 ->
  elapsed st + dtMs / 1000 <= 28 ->
  belief (tick st dtMs d) = belief st /\
  running (tick st dtMs d) = true /\
  measRef (tick st dtMs d) = Some (measure (movedPose st dtMs) (randn d)).
Proof.
  intros Hrun Hs Hsum Hel. rewrite tick_no_reset by assumption.
  cbn [belief running measRef savedBack]. rewrite Hs.
  repeat split. apply updateBelief_skip. lra.
Qed.

Lemma degenerate_update_skipped_witness :
  let d := mkDraws 8 0 in
  belief (tick atTheGate 250 d) = belief atTheGate /\
  running (tick atTheGate 250 d) = true /\
  measRef (tick atTheGate 250 d) = Some (measure (movedPose atTheGate 250) (randn d)).
Proof.
  intros d.
  apply (degenerate_update_skipped atTheGate 250 d).
  - exact atTheGate_frameRuns.
  - exact atTheGate_senses.
  - rewrite atTheGate_movedPose. apply insidePose_degenerate, atTheGate_normalised.
  - exact atTheGate_elapsed.
Defined.

(** ** Pathfinder *)

Section OpenSet.

Lemma ltScore_fin (x y : R) :
  ltScore (Some (Fin x)) (Some (Fin y)) = true <-> x < y.
Proof. simpl. destruct (Rlt_dec x y); split; [easy|easy|discriminate|contradiction]. Qed.

Lemma ltScore_true_fin (a b : option num) :
  ltScore a b = true -> exists x, a = Some (Fin x).
Proof. destruct a as [[x|]|]; simpl; [eauto|discriminate..]. Qed.

Lemma includes_spec (l : list string) (x : string) :
  includes l x = true <-> x ∈ l.
Proof.
  unfold includes. rewrite existsb_exists. split.
  - intros (y & Hy & Heq). apply String.eqb_eq in Heq. subst. now apply list_elem_of_In.
  - intros Hx. exists x. split; [now apply list_elem_of_In|apply String.eqb_refl].
Qed.

Lemma removeFirst_elem (c x : string) (l : list string) :
  NoDup l -> (x ∈ removeFirst c l <-> x ∈ l /\ x <> c).
Proof.
  induction l as [|a l IH]; intros Hnd; simpl.
  - split; [intros H; inversion H|intros [H _]; inversion H].
  - apply NoDup_cons in Hnd as [Ha Hnd].
    destruct (String.eqb_spec a c) as [->|Hne].
    + split.
      * intros Hx. split; [now right|]. intros ->. contradiction.
      * intros [Hx Hxc]. apply elem_of_cons in Hx as [->|Hx]; [contradiction|assumption].
    + rewrite !elem_of_cons, IH by assumption. split.
      * intros [->|[Hx Hxc]]; [split; [now left|assumption]|split; [now right|assumption]].
      * intros [[->|Hx] Hxc]; [now left|right; split; assumption].
Qed.

Lemma removeFirst_NoDup (c : string) (l : list string) :
  NoDup l -> NoDup (removeFirst c l).
Proof.
  induction l as [|a l IH]; intros Hnd; simpl; [constructor|].
  pose proof Hnd as Hnd'. apply NoDup_cons in Hnd as [Ha Hnd].
  destruct (String.eqb_spec a c); [assumption|].
  apply NoDup_cons. split; [|now apply IH].
  rewrite removeFirst_elem by assumption. tauto.
Qed.

(** The element [reduce] returns, when every entry of the open set has
    a finite score [sc]: nothing in the open set has a smaller score, and
    everything after it has a strictly larger one. *)
Lemma lowest_spec (f : gmap string num) (sc : string -> R) (l : list string) (c : string) :
  (forall m, m ∈ l -> f !! m = Some (Fin (sc m))) ->
  lowest f l = Some c ->
  exists pre post, l = pre ++ c :: post /\
    (forall m, m ∈ pre -> sc c <= sc m) /\
    (forall m, m ∈ post -> sc c < sc m).
Proof.
  destruct l as [|first rest]; [discriminate|]. simpl.
  revert c. induction rest as [|b rest IH] using rev_ind; intros c Hf [= <-].
  - exists [], []. simpl. repeat split; intros m Hm; inversion Hm.
  - rewrite fold_left_app. simpl.
    set (a := fold_left _ rest first) in *.
    destruct (IH a) as (pre & post & Hl & Hpre & Hpost); [|reflexivity|].
    { intros m Hm. apply Hf. rewrite app_comm_cons. apply elem_of_app. now left. }
    assert (Ha : f !! a = Some (Fin (sc a))).
    { apply Hf. rewrite app_comm_cons, Hl. set_solver. }
    assert (Hb : f !! b = Some (Fin (sc b))).
    { apply Hf. rewrite app_comm_cons. set_solver. }
    rewrite Ha, Hb. simpl. destruct (Rlt_dec (sc a) (sc b)) as [Hlt|Hge].
    + exists pre, (post ++ [b]). rewrite app_comm_cons, Hl, <- app_assoc. simpl.
      repeat split; [assumption|].
      intros m Hm. apply elem_of_app in Hm as [Hm|Hm]; [now apply Hpost|].
      apply list_elem_of_singleton in Hm as ->. assumption.
    + exists (first :: rest), []. rewrite app_comm_cons.
      repeat split; [|intros m Hm; inversion Hm].
      intros m Hm. rewrite Hl in Hm.
      apply elem_of_app in Hm as [Hm|Hm]; [specialize (Hpre m Hm); lra|].
      apply elem_of_cons in Hm as [->|Hm]; [lra|].
      specialize (Hpost m Hm). lra.
Qed.

Lemma lowest_None (f : gmap string num) (l : list string) :
  lowest f l = None -> l = [].
Proof. destruct l; [reflexivity|discriminate]. Qed.

End OpenSet.

Section Distances.

Lemma hypot_nonneg (a b : R) : 0 <= hypot a b.
Proof. apply sqrt_pos. Qed.

Lemma hypot_0 : hypot 0 0 = 0.
Proof. unfold hypot. replace (0 * 0 + 0 * 0) with 0 by lra. apply sqrt_0. Qed.

(** The triangle inequality for the distance between node positions. *)
Lemma hypot_triangle (a b c : node) :
  hypot (nx a - nx c) (ny a - ny c) <=
  hypot (nx a - nx b) (ny a - ny b) + hypot (nx b - nx c) (ny b - ny c).
Proof. exact (triangle (nx a) (ny a) (nx c) (ny c) (nx b) (ny b)). Qed.

Variable nodes : gmap string node.

Lemma edgeLength_nonneg (u v : string) : 0 <= edgeLength nodes u v.
Proof.
  unfold edgeLength. destruct (nodes !! u), (nodes !! v); try lra. apply hypot_nonneg.
Qed.

Lemma edgeLength_triangle (u v w : string) :
  is_Some (nodes !! u) -> is_Some (nodes !! v) -> is_Some (nodes !! w) ->
  edgeLength nodes u w <= edgeLength nodes u v + edgeLength nodes v w.
Proof.
  intros [a Ha] [b Hb] [c Hc]. unfold edgeLength. rewrite Ha, Hb, Hc.
  apply hypot_triangle.
Qed.

Lemma heuristic_edgeLength (e v : string) :
  is_Some (nodes !! v) -> is_Some (nodes !! e) ->
  heuristic nodes e v = Some (edgeLength nodes v e).
Proof.
  intros [a Ha] [b Hb]. unfold heuristic, edgeLength. rewrite Ha, Hb. reflexivity.
Qed.

Lemma heuristic_Some (e v : string) (h : R) :
  heuristic nodes e v = Some h -> is_Some (nodes !! v) /\ is_Some (nodes !! e).
Proof.
  unfold heuristic. destruct (nodes !! v); [|discriminate].
  destruct (nodes !! e); [|discriminate]. eauto.
Qed.

Lemma route_nodes (s v : string) (p : list string) (c : R) :
  route nodes s v p c -> is_Some (nodes !! v) /\ is_Some (nodes !! s).
Proof.
  induction 1 as [Hs|u v p c Hr [_ IH] (nu & _ & _ & Hv)]; split; assumption.
Qed.

Lemma route_ends (s v : string) (p : list string) (c : R) :
  route nodes s v p c -> head p = Some s /\ last p = Some v.
Proof.
  induction 1 as [Hs|u v p c Hr [IHh IHl] _]; [split; reflexivity|].
  split; [|apply last_snoc].
  destruct p; [discriminate|assumption].
Qed.

End Distances.

#[local] Arguments ltScore : simpl never.

Section Search.

Variable nodes : gmap string node.
Variables startId endId : string.
Hypothesis start_node : is_Some (nodes !! startId).
Hypothesis end_node : is_Some (nodes !! endId).

Abbreviation d := (edgeLength nodes).
Abbreviation tree := (treePath nodes startId).
Abbreviation Inv := (searchInv nodes startId endId).

(** **** Tree paths *)

Lemma tree_route came closed v p c : tree came closed v p c -> route nodes startId v p c.
Proof.
  induction 1 as [|u v p c _ IH _ _ _ He]; [now constructor|].
  now constructor.
Qed.

Lemma tree_last came closed v p c : tree came closed v p c -> exists pre, p = pre ++ [v].
Proof. destruct 1; [now exists []|eauto]. Qed.

Lemma tree_closed came closed v p c :
  tree came closed v p c -> v ∈ closed -> forall w, w ∈ p -> w ∈ closed.
Proof.
  induction 1 as [|u v p c _ IH Hu _ _ _]; intros Hv w Hw.
  - apply list_elem_of_singleton in Hw as ->. assumption.
  - apply elem_of_app in Hw as [Hw|Hw]; [now apply IH|].
    apply list_elem_of_singleton in Hw as ->. assumption.
Qed.

Lemma tree_NoDup came closed v p c : tree came closed v p c -> NoDup p.
Proof.
  induction 1 as [|u v p c _ IH _ Hv _ _]; [apply NoDup_singleton|].
  apply NoDup_app. repeat split; [assumption| |apply NoDup_singleton].
  intros w Hw Hw'. apply list_elem_of_singleton in Hw' as ->. contradiction.
Qed.

Lemma tree_nodes came closed v p c :
  tree came closed v p c -> forall w, w ∈ p -> is_Some (nodes !! w).
Proof.
  induction 1 as [|u v p c _ IH _ _ _ (nu & _ & _ & Hv)]; intros w Hw.
  - apply list_elem_of_singleton in Hw as ->. assumption.
  - apply elem_of_app in Hw as [Hw|Hw]; [now apply IH|].
    apply list_elem_of_singleton in Hw as ->. assumption.
Qed.

Lemma tree_mono came closed closed' v p c :
  (forall u, u ∈ closed -> u ∈ closed') ->
  tree came closed v p c -> tree came closed' v p c.
Proof.
  intros Hsub. induction 1 as [|u v p c _ IH Hu Hv Hc He]; [now constructor|].
  constructor; auto.
Qed.

(** Redirecting a node that is not closed does not disturb the tree
    paths of the other nodes. *)
Lemma tree_insert came closed v p c v' cur :
  tree came closed v p c -> v' ∉ closed -> v' <> v -> v' <> startId ->
  tree (<[v' := cur]> came) closed v p c.
Proof.
  intros Ht Hv' Hne Hs. revert Hne.
  induction Ht as [|u v p c _ IH Hu Hv Hc He]; intros Hne.
  - constructor. rewrite lookup_insert_ne by assumption. assumption.
  - constructor; try assumption.
    + apply IH. intros ->. contradiction.
    + rewrite lookup_insert_ne by assumption. assumption.
Qed.

(** **** The initial state *)

Lemma allInf_lookup (v : string) :
  ((fun _ => Inf) <$> nodes : gmap string num) !! v
  = match nodes !! v with Some _ => Some Inf | None => None end.
Proof. rewrite lookup_fmap. now destruct (nodes !! v). Qed.

Lemma initial_gScore (h0 : R) (v : string) (r : R) :
  gScore (initialSearch nodes startId h0) !! v = Some (Fin r) -> v = startId /\ r = 0.
Proof.
  simpl. destruct (decide (v = startId)) as [->|Hne].
  - rewrite lookup_insert_eq. intros [= <-]. easy.
  - rewrite lookup_insert_ne by congruence. rewrite allInf_lookup.
    destruct (nodes !! v); discriminate.
Qed.

Lemma initial_Inv (cur : string) :
  Inv [] cur [] (initialSearch nodes startId (d startId endId)).
Proof.
  constructor.
  - constructor.
  - intros u Hu. inversion Hu.
  - intros Hu. inversion Hu.
  - apply NoDup_singleton.
  - intros v Hv. apply list_elem_of_singleton in Hv as ->.
    split; [intros H; inversion H|]. split; [assumption|].
    exists 0, (d startId endId). simpl. rewrite !lookup_insert_eq.
    repeat split. lra.
  - intros v r Hg. apply initial_gScore in Hg as [-> _]. left. set_solver.
  - intros v [n Hn]. simpl. destruct (decide (v = startId)) as [->|Hne].
    + rewrite lookup_insert_eq. eauto.
    + rewrite lookup_insert_ne by congruence. rewrite allInf_lookup, Hn. eauto.
  - simpl. apply lookup_insert_eq.
  - intros v r Hg. apply initial_gScore in Hg as [-> ->].
    exists [startId]. constructor. apply lookup_empty.
  - intros u Hu. inversion Hu.
  - intros u nu v Hu. inversion Hu.
Qed.

(** **** The frontier *)

(** Between two iterations, for every route from the start to a node
    [v]: either [v] already has a score no larger than the route's length,
    or some node of the open set promises a total not larger than the
    route's length plus the heuristic of [v]. *)
Lemma frontier closed cur st v p c :
  Inv closed cur [] st -> route nodes startId v p c ->
  (exists r, gScore st !! v = Some (Fin r) /\ r <= c) \/
  (exists m rm, m ∈ openSet st /\ gScore st !! m = Some (Fin rm) /\
                rm + d m endId <= c + d v endId).
Proof.
  intros HI. induction 1 as [Hs|u v p c Hr IH He].
  - left. exists 0. split; [apply (inv_start _ _ _ _ _ _ _ HI)|lra].
  - pose proof He as (nu & Hnu & Hv & Hvn).
    assert (Htri : d u endId <= d u v + d v endId).
    { apply edgeLength_triangle; eauto. }
    destruct IH as [(ru & Hgu & Hle)|(m & rm & Hm & Hgm & Hle)].
    + destruct (inv_frontier _ _ _ _ _ _ _ HI u ru Hgu) as [Hopen|Hclosed].
      * right. exists u, ru. repeat split; try assumption. lra.
      * destruct (inv_relaxed _ _ _ _ _ _ _ HI u nu v Hclosed Hnu Hv)
          as [[_ Hin]|(_ & ru' & rv & Hgu' & Hgv & Hrel)]; [inversion Hin|].
        left. exists rv. split; [assumption|].
        rewrite Hgu in Hgu'. injection Hgu' as <-. lra.
    + right. exists m, rm. repeat split; try assumption. lra.
Qed.

(** So the node with the lowest [f] in the open set has its final score:
    no route to it is shorter. *)
Lemma lowest_optimal closed cur st v r :
  Inv closed cur [] st ->
  lowest (fScore st) (openSet st) = Some v ->
  gScore st !! v = Some (Fin r) ->
  forall p c, route nodes startId v p c -> r <= c.
Proof.
  intros HI Hlow Hg p c Hr.
  destruct (frontier closed cur st v p c HI Hr)
    as [(r' & Hg' & Hle)|(m & rm & Hm & Hgm & Hle)].
  - rewrite Hg in Hg'. injection Hg' as <-. assumption.
  - (* scores of the open set, as a function *)
    set (sc := fun w => match gScore st !! w with
                        | Some (Fin g) => g + d w endId
                        | _ => 0
                        end).
    destruct (lowest_spec (fScore st) sc (openSet st) v) as (pre & post & Hl & Hpre & Hpost);
      [|assumption|].
    { intros w Hw.
      destruct (inv_open _ _ _ _ _ _ _ HI w Hw) as (_ & _ & g & fr & Hgw & Hfw & ->).
      unfold sc. now rewrite Hgw. }
    assert (Hsc : sc v <= sc m).
    { rewrite Hl in Hm. apply elem_of_app in Hm as [Hm|Hm]; [now apply Hpre|].
      apply elem_of_cons in Hm as [->|Hm]; [lra|]. left. now apply Hpost. }
    unfold sc in Hsc. rewrite Hg, Hgm in Hsc. lra.
Qed.


(** **** Taking the lowest node out of the open set *)

Lemma lowest_elem (f : gmap string num) (l : list string) (c : string) :
  lowest f l = Some c -> c ∈ l.
Proof.
  destruct l as [|first rest]; [discriminate|]. simpl. intros [= <-].
  revert first. induction rest as [|b rest IH]; intros first; simpl; [set_solver|].
  destruct (ltScore (f !! first) (f !! b)).
  - specialize (IH first). set_solver.
  - specialize (IH b). set_solver.
Qed.

Lemma extract_Inv closed cur0 st c nc :
  Inv closed cur0 [] st ->
  lowest (fScore st) (openSet st) = Some c -> c <> endId -> nodes !! c = Some nc ->
  Inv (closed ++ [c]) c (neighbors nc)
      {| openSet := removeFirst c (openSet st); cameFrom := cameFrom st;
         gScore := gScore st; fScore := fScore st |}.
Proof.
  intros HI Hlow Hce Hnc.
  pose proof (lowest_elem _ _ _ Hlow) as Hc.
  destruct HI as [Hcn Hcnodes Hcend Hon Hopen Hfr Hgd Hst Htree Hopt Hrel].
  destruct (Hopen c Hc) as (Hcc & _ & rc & frc & Hgc & Hfc & Hfrc).
  constructor; simpl.
  - apply NoDup_app. repeat split; [assumption| |apply NoDup_singleton].
    intros w Hw Hw'. apply list_elem_of_singleton in Hw' as ->. contradiction.
  - intros u Hu. apply elem_of_app in Hu as [Hu|Hu]; [auto|].
    apply list_elem_of_singleton in Hu as ->. eauto.
  - intros Hin. apply elem_of_app in Hin as [Hin|Hin]; [contradiction|].
    apply list_elem_of_singleton in Hin. congruence.
  - now apply removeFirst_NoDup.
  - intros v Hv. apply removeFirst_elem in Hv as [Hv Hvc]; [|assumption].
    destruct (Hopen v Hv) as (Hvcl & Hvn & Hsc). repeat split; try assumption.
    intros Hin. apply elem_of_app in Hin as [Hin|Hin]; [contradiction|].
    apply list_elem_of_singleton in Hin. contradiction.
  - intros v r Hg. destruct (decide (v = c)) as [->|Hne]; [right; set_solver|].
    destruct (Hfr v r Hg) as [Hv|Hv]; [left|right; set_solver].
    apply removeFirst_elem; [assumption|easy].
  - assumption.
  - assumption.
  - intros v r Hg. destruct (Htree v r Hg) as [p Hp]. exists p.
    eapply tree_mono; [|eassumption]. set_solver.
  - intros u Hu. apply elem_of_app in Hu as [Hu|Hu]; [auto|].
    apply list_elem_of_singleton in Hu as ->.
    exists rc. split; [assumption|].
    eapply (lowest_optimal closed cur0 st); try eassumption.
    constructor; assumption.
  - intros u nu v Hu Hnu Hv. apply elem_of_app in Hu as [Hu|Hu].
    + destruct (Hrel u nu v Hu Hnu Hv) as [[_ Hin]|Hr]; [inversion Hin|now right].
    + apply list_elem_of_singleton in Hu as ->. left.
      rewrite Hnc in Hnu. injection Hnu as <-. easy.
Qed.

(** **** Visiting one neighbour *)

Lemma closed_has_start closed cur todo st :
  Inv closed cur todo st -> cur ∈ closed -> startId ∈ closed.
Proof.
  intros HI Hcur.
  destruct (inv_closed_opt _ _ _ _ _ _ _ HI cur Hcur) as (rc & Hg & _).
  destruct (inv_tree _ _ _ _ _ _ _ HI cur rc Hg) as [p Hp].
  apply (tree_closed _ _ _ _ _ Hp Hcur).
  destruct (route_ends _ _ _ _ _ (tree_route _ _ _ _ _ Hp)) as [Hhd _].
  destruct p; [discriminate|]. injection Hhd as ->. set_solver.
Qed.

Lemma relax_Inv closed cur st v todo nc :
  Inv closed cur (v :: todo) st ->
  cur ∈ closed -> nodes !! cur = Some nc -> v ∈ neighbors nc ->
  match relax nodes endId cur st v with
  | Some st' => Inv closed cur todo st'
  | None => nodes !! v = None
  end.
Proof.
  intros HI Hcur Hnc Hvn.
  pose proof (closed_has_start _ _ _ _ HI Hcur) as Hstart.
  destruct HI as [Hcn Hcnodes Hcend Hon Hopen Hfr Hgd Hst Htree Hopt Hrel].
  unfold relax. rewrite Hnc. simpl.
  destruct (nodes !! v) as [nv|] eqn:Hnv; simpl; [|reflexivity].
  destruct (Hopt cur Hcur) as (rc & Hgc & Hoptc).
  rewrite Hgc. simpl.
  assert (Hd : hypot (nx nc - nx nv) (ny nc - ny nv) = d cur v).
  { unfold edgeLength. now rewrite Hnc, Hnv. }
  rewrite Hd.
  assert (Hedge : edge nodes cur v) by (exists nc; eauto).
  destruct (Hgd v ltac:(eauto)) as [gv Hgv]. rewrite Hgv.
  destruct (ltScore (Some (Fin (rc + d cur v))) (Some gv)) eqn:Hlt.
  - (* the score of [v] improves *)
    rewrite heuristic_edgeLength by eauto. simpl.
    destruct (Htree cur rc Hgc) as [pc Hpc].
    assert (Hvcl : v ∉ closed).
    { intros Hv. destruct (Hopt v Hv) as (rv & Hgv' & Hoptv).
      rewrite Hgv in Hgv'. injection Hgv' as ->.
      apply ltScore_fin in Hlt.
      specialize (Hoptv (pc ++ [v]) (rc + d cur v)).
      assert (rv <= rc + d cur v); [|lra].
      apply Hoptv. constructor; [eapply tree_route; eassumption|assumption]. }
    assert (Hvc : v <> cur) by (intros ->; contradiction).
    assert (Hvs : v <> startId) by (intros ->; contradiction).
    set (open' := if includes (openSet st) v then openSet st else openSet st ++ [v]).
    assert (Hsub : forall w, w ∈ openSet st -> w ∈ open').
    { intros w Hw. unfold open'. destruct (includes (openSet st) v); set_solver. }
    assert (Hvo : v ∈ open').
    { unfold open'. destruct (includes (openSet st) v) eqn:Hinc;
        [now apply includes_spec|set_solver]. }
    assert (Hrev : forall w, w ∈ open' -> w = v \/ w ∈ openSet st).
    { intros w Hw. unfold open' in Hw. destruct (includes (openSet st) v); set_solver. }
    constructor; simpl; fold open'; try assumption.
    + unfold open'. destruct (includes (openSet st) v) eqn:Hinc; [assumption|].
      apply NoDup_app. repeat split; [assumption| |apply NoDup_singleton].
      intros w Hw Hw'. apply list_elem_of_singleton in Hw' as ->.
      apply includes_spec in Hw. congruence.
    + intros w Hw. destruct (decide (w = v)) as [->|Hne].
      * repeat split; [assumption|eauto|].
        exists (rc + d cur v), (rc + d cur v + d v endId).
        rewrite !lookup_insert_eq. easy.
      * destruct (Hrev w Hw) as [?|Hw']; [contradiction|].
        rewrite !lookup_insert_ne by congruence. auto.
    + intros w r Hg. destruct (decide (w = v)) as [->|Hne]; [now left|].
      rewrite lookup_insert_ne in Hg by congruence.
      destruct (Hfr w r Hg); [left; auto|now right].
    + intros w Hw. destruct (decide (w = v)) as [->|Hne].
      * rewrite lookup_insert_eq. eauto.
      * rewrite lookup_insert_ne by congruence. auto.
    + rewrite lookup_insert_ne by congruence. assumption.
    + intros w r Hg. destruct (decide (w = v)) as [->|Hne].
      * rewrite lookup_insert_eq in Hg. injection Hg as <-.
        exists (pc ++ [v]). constructor; try assumption.
        -- apply tree_insert; assumption.
        -- intros Hin. apply Hvcl. eapply tree_closed; eassumption.
        -- apply lookup_insert_eq.
      * rewrite lookup_insert_ne in Hg by congruence.
        destruct (Htree w r Hg) as [p Hp]. exists p.
        apply tree_insert; try assumption. congruence.
    + intros u Hu. rewrite lookup_insert_ne by (intros ->; contradiction). auto.
    + intros u nu w Hu Hnu Hw.
      assert (Huv : u <> v) by (intros ->; contradiction).
      rewrite (lookup_insert_ne _ v u) by congruence.
      destruct (decide (w = v)) as [->|Hwv].
      * right. split; [eauto|]. rewrite lookup_insert_eq.
        destruct (Hrel u nu v Hu Hnu Hw) as [[-> _]|(_ & ru & rv & Hgu & Hgv' & Hle)].
        -- exists rc, (rc + d cur v). repeat split; [assumption|lra].
        -- rewrite Hgv in Hgv'. injection Hgv' as ->. apply ltScore_fin in Hlt.
           exists ru, (rc + d cur v). repeat split; [assumption|lra].
      * rewrite lookup_insert_ne by congruence.
        destruct (Hrel u nu w Hu Hnu Hw) as [[-> Hin]|Hr]; [|now right].
        left. split; [reflexivity|]. set_solver.
  - (* no improvement: the state is unchanged *)
    constructor; try assumption.
    intros u nu w Hu Hnu Hw.
    destruct (Hrel u nu w Hu Hnu Hw) as [[-> Hin]|Hr]; [|now right].
    apply elem_of_cons in Hin as [->|Hin]; [|left; easy].
    right. split; [eauto|].
    destruct gv as [rv|]; [|unfold ltScore in Hlt; discriminate].
    exists rc, rv. repeat split; try assumption.
    destruct (Rle_dec rv (rc + d cur v)) as [|Hn]; [assumption|].
    assert (Hlt' : ltScore (Some (Fin (rc + d cur v))) (Some (Fin rv)) = true)
      by (apply ltScore_fin; lra).
    congruence.
Qed.

Lemma relaxAll_Inv closed cur nc (todo : list string) : forall st,
  Inv closed cur todo st ->
  cur ∈ closed -> nodes !! cur = Some nc ->
  (forall w, w ∈ todo -> w ∈ neighbors nc) ->
  match relaxAll nodes endId cur st todo with
  | Some st' => Inv closed cur [] st'
  | None => exists w, w ∈ neighbors nc /\ nodes !! w = None
  end.
Proof.
  induction todo as [|v todo IH]; intros st HI Hcur Hnc Hsub; simpl; [assumption|].
  pose proof (relax_Inv closed cur st v todo nc HI Hcur Hnc ltac:(set_solver)) as Hstep.
  destruct (relax nodes endId cur st v) as [st'|].
  - apply IH; try assumption. set_solver.
  - exists v. split; [set_solver|assumption].
Qed.

(** **** Path reconstruction *)

Lemma nodup_le_size (l : list string) :
  NoDup l -> (forall w, w ∈ l -> is_Some (nodes !! w)) -> (length l <= size nodes)%nat.
Proof.
  intros Hnd Hin.
  rewrite <- (size_list_to_set (C := gset string) l Hnd), <- (size_dom (D := gset string) nodes).
  apply subseteq_size. intros w Hw. apply elem_of_list_to_set in Hw.
  apply elem_of_dom. auto.
Qed.

(** Following [cameFrom] from the end of a tree path stops within as
    many steps as the path has edges... *)
Lemma reconstruct_total came closed v p c :
  tree came closed v p c ->
  forall budget acc, (length p <= S budget)%nat ->
  is_Some (reconstruct budget came v acc).
Proof.
  induction 1 as [Hs|u v p c Ht IH Hu Hv Hc He]; intros budget acc Hlen.
  - destruct budget; simpl; rewrite Hs; eauto.
  - rewrite length_app in Hlen. simpl in Hlen.
    destruct (tree_last _ _ _ _ _ Ht) as [pre ->]. rewrite length_app in Hlen.
    simpl in Hlen. destruct budget as [|budget]; [lia|].
    simpl. rewrite Hc. destruct (truthy u); [|eauto].
    apply IH. rewrite length_app. simpl. lia.
Qed.

(** ... and, when no node id on it is falsy, returns that path. *)
Lemma reconstruct_tree came closed v p c :
  tree came closed v p c ->
  (forall w, w ∈ p -> truthy w = true) ->
  forall budget acc pre, (length p <= S budget)%nat -> p = pre ++ [v] ->
  reconstruct budget came v (v :: acc) = Some (p ++ acc).
Proof.
  induction 1 as [Hs|u v p c Ht IH Hu Hv Hc He]; intros Htr budget acc pre Hlen Hp.
  - destruct budget; simpl; rewrite Hs; reflexivity.
  - rewrite length_app in Hlen. simpl in Hlen.
    destruct (tree_last _ _ _ _ _ Ht) as [pre' Hpre'].
    assert (Hpl : (1 <= length p)%nat) by (rewrite Hpre', length_app; simpl; lia).
    destruct budget as [|budget]; [lia|].
    simpl. rewrite Hc.
    rewrite (Htr u) by (rewrite Hpre'; set_solver).
    rewrite (IH ltac:(set_solver) budget (v :: acc) pre' ltac:(lia) Hpre').
    now rewrite <- app_assoc.
Qed.

Lemma reconstruct_more (came : gmap string string) (budget : nat) :
  forall budget' v acc p,
  reconstruct budget came v acc = Some p -> (budget <= budget')%nat ->
  reconstruct budget' came v acc = Some p.
Proof.
  induction budget as [|budget IH]; intros budget' v acc p Hrec Hle.
  - simpl in Hrec. destruct budget'; simpl;
      destruct (came !! v) as [prev|]; try assumption;
      destruct (truthy prev); try assumption; discriminate.
  - destruct budget' as [|budget']; [lia|]. simpl in *.
    destruct (came !! v) as [prev|]; [|assumption].
    destruct (truthy prev); [|assumption].
    apply IH; [assumption|lia].
Qed.

(** **** The loop *)

Lemma searchLoop_eq (fuel budget : nat) (st : search) :
  searchLoop fuel budget nodes endId st =
  match lowest (fScore st) (openSet st) with
  | None => Null
  | Some current =>
      if String.eqb current endId then
        match reconstruct budget (cameFrom st) current [current] with
        | Some path => Route path
        | None => OutOfFuel
        end
      else
        match fuel with
        | O => OutOfFuel
        | S fuel' =>
            match nodes !! current with
            | None => TypeError
            | Some cur =>
                match relaxAll nodes endId current
                        {| openSet := removeFirst current (openSet st);
                           cameFrom := cameFrom st;
                           gScore := gScore st;
                           fScore := fScore st |} (neighbors cur) with
                | Some st2 => searchLoop fuel' budget nodes endId st2
                | None => TypeError
                end
            end
        end
  end.
Proof. destruct fuel; reflexivity. Qed.

Lemma searchLoop_spec (budget : nat) (Hbudget : (size nodes <= S budget)%nat) (fuel : nat) :
  forall closed cur st,
  Inv closed cur [] st ->
  (size nodes <= fuel + length closed + 1)%nat ->
  searchPost nodes startId endId (searchLoop fuel budget nodes endId st).
Proof.
  induction fuel as [|fuel IH]; intros closed cur st HI Hfuel;
    rewrite searchLoop_eq;
    (destruct (lowest (fScore st) (openSet st)) as [c|] eqn:Hlow;
     [pose proof (lowest_elem _ _ _ Hlow) as Hc;
      destruct (inv_open _ _ _ _ _ _ _ HI c Hc) as (Hccl & [nc Hnc] & r & fr & Hg & Hf & Hfr);
      destruct (String.eqb_spec c endId) as [->|Hne]
     |]).
  1, 4: (* the goal is taken out: reconstruct *)
    destruct (inv_tree _ _ _ _ _ _ _ HI endId r Hg) as [p0 Hp0];
    assert (Hlen : (length p0 <= S budget)%nat) by
      (etransitivity; [apply nodup_le_size;
                       [eapply tree_NoDup; eassumption|eapply tree_nodes; eassumption]
                      |assumption]);
    destruct (reconstruct_total _ _ _ _ _ Hp0 budget [endId] Hlen) as [p Hp];
    rewrite Hp; simpl; exists p0, r;
    (split; [eapply tree_route; eassumption|]);
    (split; [eapply lowest_optimal; eassumption|]);
    intros Htr; destruct (tree_last _ _ _ _ _ Hp0) as [pre Hpre];
    rewrite (reconstruct_tree _ _ _ _ _ Hp0 Htr budget [] pre Hlen Hpre) in Hp;
    rewrite app_nil_r in Hp; congruence.
  2, 4: (* the open set is empty: no route *)
    simpl; intros (p & c & Hr);
    apply lowest_None in Hlow;
    destruct (frontier closed cur st endId p c HI Hr)
      as [(r & Hg & _)|(m & rm & Hm & _)];
    [destruct (inv_frontier _ _ _ _ _ _ _ HI endId r Hg) as [Hin|Hin];
     [rewrite Hlow in Hin; inversion Hin
     |exact (inv_closed_end _ _ _ _ _ _ _ HI Hin)]
    |rewrite Hlow in Hm; inversion Hm].
  - (* no fuel, but then the graph would have more nodes than it has *)
    exfalso.
    assert (Hnd : NoDup (endId :: c :: closed)).
    { apply NoDup_cons. split.
      - intros Hin. apply elem_of_cons in Hin as [?|Hin]; [congruence|].
        exact (inv_closed_end _ _ _ _ _ _ _ HI Hin).
      - apply NoDup_cons. split; [assumption|apply (inv_closed_nodup _ _ _ _ _ _ _ HI)]. }
    apply nodup_le_size in Hnd; [simpl in *; lia|].
    intros w Hw. apply elem_of_cons in Hw as [->|Hw]; [assumption|].
    apply elem_of_cons in Hw as [->|Hw]; [eauto|].
    apply (inv_closed_nodes _ _ _ _ _ _ _ HI). assumption.
  - (* expand [c] *)
    rewrite Hnc.
    pose proof (extract_Inv closed cur st c nc HI Hlow Hne Hnc) as HI1.
    pose proof (relaxAll_Inv (closed ++ [c]) c nc (neighbors nc) _ HI1
                  ltac:(set_solver) Hnc ltac:(auto)) as Hall.
    destruct (relaxAll nodes endId c _ (neighbors nc)) as [st2|].
    + apply (IH (closed ++ [c]) c st2 Hall). rewrite length_app. simpl. lia.
    + simpl. destruct Hall as (w & Hw & Hnone). intros Hwf.
      destruct (Hwf c nc w Hnc Hw) as [x Hx]. congruence.
Qed.

Lemma findPath_fuel_spec (fuel : nat) :
  (size nodes <= fuel)%nat ->
  searchPost nodes startId endId (findPath_fuel fuel nodes startId endId).
Proof.
  intros Hfuel. unfold findPath_fuel.
  rewrite heuristic_edgeLength by assumption.
  apply (searchLoop_spec fuel ltac:(lia) fuel [] startId); [apply initial_Inv|].
  simpl. lia.
Qed.

End Search.
(** **** Runs on the example graphs *)

Section Examples.

Lemma ltScore_irrefl (a : option num) : ltScore a a = false.
Proof.
  unfold ltScore. destruct a as [[x|]|]; try reflexivity.
  destruct (Rlt_dec x x) as [H|_]; [lra|reflexivity].
Qed.

Lemma emptyId_result : findPath emptyIdGraph "" "g" = Route ["g"].
Proof. reflexivity. Qed.

Lemma dangling_result : findPath danglingGraph "a" "b" = TypeError.
Proof. reflexivity. Qed.

Lemma absent_result : findPath danglingGraph "a" "c" = TypeError.
Proof. reflexivity. Qed.

(** After the start node of [tieGraph] has been expanded, [a] and [b] are
    in the open set, in this order, with the same [f]. *)
Lemma tieOpen_state :
  exists st, tieOpen = Some st /\ openSet st = ["a"; "b"] /\
             fScore st !! "a" = fScore st !! "b" /\
             lowest (fScore st) (openSet st) = Some "b".
Proof.
  eexists. split; [reflexivity|]. split; [reflexivity|].
  split; [reflexivity|].
  match goal with |- lowest ?f ?l = _ =>
    change (Some (if ltScore (f !! "a") (f !! "b") then "a" else "b") = Some "b");
    replace (f !! "b") with (f !! "a") by reflexivity
  end.
  now rewrite ltScore_irrefl.
Qed.

(** The whole call: [b], the later of the two tied nodes, is expanded,
    and the route returned goes through it. *)
Lemma tie_result : findPath tieGraph "s" "g" = Route ["s"; "b"; "g"].
Proof.
  unfold findPath, findPath_fuel.
  replace (size tieGraph) with 4%nat by reflexivity.
  replace (heuristic tieGraph "g" "s") with (Some (hypot (0 - 2) (0 - 0))) by reflexivity.
  (* iteration 1: expand s *)
  rewrite searchLoop_eq.
  match goal with |- context [lowest ?f ?l] =>
    replace (lowest f l) with (Some "s") by reflexivity end.
  change (String.eqb "s" "g") with false. cbv iota.
  replace (tieGraph !! "s") with (Some (mkNode 0 0 ["a"; "b"])) by reflexivity.
  match goal with |- context [relaxAll ?n ?e ?c ?st ?todo] =>
    let r := fresh "r" in
    set (r := relaxAll n e c st todo);
    eassert (Hr : r = Some _) by reflexivity; rewrite Hr; clear Hr r
  end.
  (* iteration 2: a and b tie, b is taken *)
  rewrite searchLoop_eq.
  match goal with |- context [lowest ?f ?l] =>
    replace (lowest f l) with (Some "b")
  end.
  2:{ match goal with |- Some "b" = lowest ?f ?l =>
        change (Some "b" = Some (if ltScore (f !! "a") (f !! "b") then "a" else "b"));
        replace (f !! "b") with (f !! "a") by reflexivity
      end.
      now rewrite ltScore_irrefl. }
  change (String.eqb "b" "g") with false. cbv iota.
  replace (tieGraph !! "b") with (Some (mkNode 1 0 ["g"])) by reflexivity.
  match goal with |- context [relaxAll ?n ?e ?c ?st ?todo] =>
    let r := fresh "r" in
    set (r := relaxAll n e c st todo);
    eassert (Hr : r = Some _) by reflexivity; rewrite Hr; clear Hr r
  end.
  (* iteration 3: a and g tie, g is taken and the path is rebuilt *)
  rewrite searchLoop_eq.
  match goal with |- context [lowest ?f ?l] =>
    replace (lowest f l) with (Some "g")
  end.
  2:{ match goal with |- Some "g" = lowest ?f ?l =>
        change (Some "g" = Some (if ltScore (f !! "a") (f !! "g") then "a" else "g"));
        replace (f !! "a")
          with (Some (Fin (0 + hypot (0 - 1) (0 - 0) + hypot (1 - 2) (0 - 0))))
          by reflexivity;
        replace (f !! "g")
          with (Some (Fin (0 + hypot (0 - 1) (0 - 0) + hypot (1 - 2) (0 - 0)
                           + hypot (2 - 2) (0 - 0))))
          by reflexivity
      end.
      replace (2 - 2) with 0 by lra. replace (0 - 0) with 0 by lra.
      rewrite hypot_0, Rplus_0_r. now rewrite ltScore_irrefl. }
  reflexivity.
Qed.

End Examples.
(** **** The properties of [findPath] *)

Lemma wellFormedb_sound (nodes : gmap string node) :
  wellFormedb nodes = true -> wellFormed nodes.
Proof.
  unfold wellFormedb. rewrite forallb_forall. intros Hall u nu v Hu Hv.
  specialize (Hall (u, nu)). simpl in Hall. rewrite forallb_forall in Hall.
  eapply bool_decide_eq_true_1, Hall.
  - apply list_elem_of_In, elem_of_map_to_list. assumption.
  - apply list_elem_of_In. assumption.
Qed.

Lemma route_elem_nodes (nodes : gmap string node) (s v : string) (p : list string) (c : R) :
  route nodes s v p c -> forall w, w ∈ p -> is_Some (nodes !! w).
Proof.
  induction 1 as [Hs|u v p c _ IH (nu & _ & _ & Hv)]; intros w Hw.
  - apply list_elem_of_singleton in Hw as ->. assumption.
  - apply elem_of_app in Hw as [Hw|Hw]; [now apply IH|].
    apply list_elem_of_singleton in Hw as ->. assumption.
Qed.

Lemma findPath_post (nodes : gmap string node) (s e : string) (fuel : nat) :
  (size nodes <= fuel)%nat ->
  match findPath_fuel fuel nodes s e with
  | TypeError => ~ (wellFormed nodes /\ is_Some (nodes !! s) /\ is_Some (nodes !! e))
  | res => is_Some (nodes !! s) /\ is_Some (nodes !! e) /\ searchPost nodes s e res
  end.
Proof.
  intros Hfuel.
  destruct (heuristic nodes e s) as [h0|] eqn:Hh.
  - destruct (heuristic_Some _ _ _ _ Hh) as [Hs He].
    pose proof (findPath_fuel_spec nodes s e Hs He fuel Hfuel) as Hpost.
    destruct (findPath_fuel fuel nodes s e); try easy; simpl in Hpost; tauto.
  - unfold findPath_fuel. rewrite Hh. intros (_ & [ns Hs] & [ne He]).
    unfold heuristic in Hh. rewrite Hs, He in Hh. discriminate.
Qed.

Lemma GRAPH_NODES_wellFormed : wellFormed GRAPH_NODES.
Proof. apply wellFormedb_sound. reflexivity. Qed.

(** C9, as stated, fails: with [a] and [b] tied for the lowest [f], the
    [reduce] keeps its accumulator only on a strict [<], so it returns [b],
    the later of the two, and the route through [b] is the one returned. *)
Lemma first_lowest_not_taken :
  (exists st, tieOpen = Some st /\ openSet st = ["a"; "b"] /\
              fScore st !! "a" = fScore st !! "b" /\
              lowest (fScore st) (openSet st) = Some "b") /\
  findPath tieGraph "s" "g" = Route ["s"; "b"; "g"].
Proof. split; [exact tieOpen_state|exact tie_result]. Qed.

(** C9 (amended): when several nodes of the open set share the lowest
    [f], the node taken out for expansion is the last of them in the open
    set's order: no node of the open set compares below it, and every node
    after it compares strictly above it. *)
Theorem last_lowest_taken (f : gmap string num) (open : list string) (c : string) :
  (forall m, m ∈ open -> exists x, f !! m = Some (Fin x)) ->
  lowest f open = Some c ->
  exists before after, open = before ++ c :: after /\
    (forall m, m ∈ open -> ltScore (f !! m) (f !! c) = false) /\
    (forall m, m ∈ after -> ltScore (f !! c) (f !! m) = true).
Proof.
  intros Hfin Hlow.
  set (sc := fun m => match f !! m with Some (Fin x) => x | _ => 0 end).
  assert (Hsc : forall m, m ∈ open -> f !! m = Some (Fin (sc m))).
  { intros m Hm. destruct (Hfin m Hm) as [x Hx]. unfold sc. now rewrite Hx. }
  destruct (lowest_spec f sc open c Hsc Hlow) as (before & after & Hopen & Hbefore & Hafter).
  assert (Hc : c ∈ open) by (rewrite Hopen; set_solver).
  exists before, after. split; [assumption|]. split.
  - intros m Hm. rewrite (Hsc m Hm), (Hsc c Hc).
    destruct (ltScore (Some (Fin (sc m))) (Some (Fin (sc c)))) eqn:Hlt; [|reflexivity].
    apply ltScore_fin in Hlt. rewrite Hopen in Hm.
    apply elem_of_app in Hm as [Hm|Hm]; [specialize (Hbefore m Hm); lra|].
    apply elem_of_cons in Hm as [->|Hm]; [lra|].
    specialize (Hafter m Hm). lra.
  - intros m Hm. rewrite (Hsc c Hc), (Hsc m) by (rewrite Hopen; set_solver).
    apply ltScore_fin. now apply Hafter.
Qed.

Lemma last_lowest_taken_witness :
  let f : gmap string num := <["a" := Fin 1]> (<["b" := Fin 1]> (<["c" := Fin 2]> ∅)) in
  exists before after, ["a"; "b"; "c"] = before ++ "b" :: after /\
    (forall m, m ∈ ["a"; "b"; "c"] -> ltScore (f !! m) (f !! "b") = false) /\
    (forall m, m ∈ after -> ltScore (f !! "b") (f !! m) = true).
Proof.
  intros f.
  apply (last_lowest_taken f ["a"; "b"; "c"] "b").
  - intros m Hm.
    repeat (apply elem_of_cons in Hm as [->|Hm]; [eexists; reflexivity|]). inversion Hm.
  - unfold lowest. cbn [fold_left].
    replace (f !! "a") with (Some (Fin 1)) by reflexivity.
    replace (f !! "b") with (Some (Fin 1)) by reflexivity.
    rewrite ltScore_irrefl.
    replace (f !! "b") with (Some (Fin 1)) by reflexivity.
    replace (f !! "c") with (Some (Fin 2)) by reflexivity.
    destruct (ltScore (Some (Fin 1)) (Some (Fin 2))) eqn:H; [reflexivity|].
    assert (ltScore (Some (Fin 1)) (Some (Fin 2)) = true) by (apply ltScore_fin; lra).
    congruence.
Defined.

(** ** The pathfinder on JavaScript objects *)

Section JsReads.

Lemma get_plain {V : Type} (m : gmap string V) (k : string) :
  Js.inherited k = false ->
  Js.get m k = match m !! k with Some v => Js.Own v | None => Js.Undefined end.
Proof. intros H. unfold Js.get. destruct (m !! k); [reflexivity|now rewrite H]. Qed.

Lemma set_plain {V : Type} (m : gmap string V) (k : string) (v : V) :
  Js.inherited k = false -> Js.set k v m = <[k := v]> m.
Proof.
  intros H. unfold Js.set.
  destruct (String.eqb_spec k "__proto__") as [->|]; [discriminate H|reflexivity].
Qed.

Lemma readScore_plain (t : gmap string num) (k : string) :
  Js.inherited k = false ->
  Js.readScore (Js.ofNum <$> t) k
  = match t !! k with Some n => Js.Val (Js.ofNum n) | None => Js.Undef end.
Proof.
  intros H. unfold Js.readScore. rewrite get_plain, lookup_fmap by assumption.
  destruct (t !! k); reflexivity.
Qed.

Lemma lt_plain (t : gmap string num) (a b : string) :
  Js.inherited a = false -> Js.inherited b = false ->
  Js.lt (Js.readScore (Js.ofNum <$> t) a) (Js.readScore (Js.ofNum <$> t) b)
  = ltScore (t !! a) (t !! b).
Proof.
  intros Ha Hb. rewrite !readScore_plain by assumption. unfold ltScore.
  destruct (t !! a) as [[x|]|], (t !! b) as [[y|]|]; reflexivity.
Qed.

Lemma lowest_plain (f : gmap string num) (l : list string) :
  Forall (fun k => Js.inherited k = false) l ->
  Js.lowest (Js.ofNum <$> f) l = lowest f l.
Proof.
  destruct l as [|first rest]; [reflexivity|]. intros Hall.
  apply Forall_cons in Hall as [Hfirst Hrest]. simpl. f_equal.
  revert first Hfirst. induction Hrest as [|b rest Hb Hrest IH]; intros a Ha; [reflexivity|].
  simpl. rewrite lt_plain by assumption.
  apply IH. now destruct (ltScore (f !! a) (f !! b)).
Qed.

Lemma reconstruct_plain (came : gmap string string) (fuel : nat) :
  (forall k v, came !! k = Some v -> Js.inherited v = false) ->
  forall cur path, Js.inherited cur = false ->
  Js.reconstruct fuel came (Js.Str cur) (Js.ids path)
  = Js.ids <$> reconstruct fuel came cur path.
Proof.
  intros Hvals. induction fuel as [|fuel IH]; intros cur path Hcur; simpl;
    rewrite get_plain by assumption;
    destruct (came !! cur) as [prev|] eqn:Hprev; try reflexivity;
    destruct (truthy prev); try reflexivity.
  apply (IH prev (prev :: path)). eapply Hvals, Hprev.
Qed.

End JsReads.

Section JsArithmetic.

Lemma overflow_le (r : R) : r <= Js.MAX_VALUE -> Js.overflow r = Js.Num r.
Proof. intros H. unfold Js.overflow. destruct (Rlt_dec Js.MAX_VALUE r); [lra|reflexivity]. Qed.

Lemma hypot_le_abs (a b : R) : hypot a b <= Rabs a + Rabs b.
Proof.
  pose proof (Rabs_pos a) as Ha. pose proof (Rabs_pos b) as Hb.
  assert (Ea : a * a = Rabs a * Rabs a) by (unfold Rabs; destruct (Rcase_abs a); lra).
  assert (Eb : b * b = Rabs b * Rabs b) by (unfold Rabs; destruct (Rcase_abs b); lra).
  unfold hypot. rewrite <- (sqrt_square (Rabs a + Rabs b)) by lra.
  apply sqrt_le_1_alt. rewrite Ea, Eb. nra.
Qed.

Lemma distance_le (B : R) (a b : node) :
  Rabs (nx a) <= B -> Rabs (ny a) <= B -> Rabs (nx b) <= B -> Rabs (ny b) <= B ->
  hypot (nx a - nx b) (ny a - ny b) <= 4 * B.
Proof.
  intros H1 H2 H3 H4. etransitivity; [apply hypot_le_abs|].
  assert (Hx : Rabs (nx a - nx b) <= Rabs (nx a) + Rabs (nx b)).
  { unfold Rminus. etransitivity; [apply Rabs_triang|]. rewrite Rabs_Ropp. lra. }
  assert (Hy : Rabs (ny a - ny b) <= Rabs (ny a) + Rabs (ny b)).
  { unfold Rminus. etransitivity; [apply Rabs_triang|]. rewrite Rabs_Ropp. lra. }
  lra.
Qed.

End JsArithmetic.

Section JsLoops.

Lemma Js_searchLoop_eq (fuel budget : nat) (nodes : gmap string node) (endId : string)
    (st : Js.search) :
  Js.searchLoop fuel budget nodes endId st =
  match Js.lowest (Js.fScore st) (Js.openSet st) with
  | None => Js.ReturnsNull
  | Some current =>
      if String.eqb current endId then
        match Js.reconstruct budget (Js.cameFrom st) (Js.Str current) [Js.Str current] with
        | Some path => Js.Path path
        | None => Js.OutOfBudget
        end
      else
        match fuel with
        | O => Js.OutOfBudget
        | S fuel' =>
            match Js.get nodes current with
            | Js.Own cur =>
                match Js.relaxAll nodes endId current
                        (Js.mkSearch (removeFirst current (Js.openSet st))
                           (Js.cameFrom st) (Js.gScore st) (Js.fScore st))
                        (neighbors cur) with
                | Js.Relaxed st2 => Js.searchLoop fuel' budget nodes endId st2
                | Js.RelaxThrows => Js.Throws
                | Js.RelaxExotic => Js.Exotic
                end
            | _ => Js.Throws
            end
        end
  end.
Proof. destruct fuel; reflexivity. Qed.

Lemma Js_reconstruct_more (came : gmap string string) (budget : nat) :
  forall budget' v acc p,
  Js.reconstruct budget came v acc = Some p -> (budget <= budget')%nat ->
  Js.reconstruct budget' came v acc = Some p.
Proof.
  induction budget as [|budget IH]; intros budget' v acc p Hrec Hle.
  - simpl in Hrec. destruct budget'; simpl;
      destruct (Js.get came (Js.keyOf v)) as [prev| |]; try assumption; try discriminate;
      destruct (truthy prev); try assumption; discriminate.
  - destruct budget' as [|budget']; [lia|]. simpl in *.
    destruct (Js.get came (Js.keyOf v)) as [prev| |]; [| |assumption].
    + destruct (truthy prev); [|assumption]. apply IH; [assumption|lia].
    + apply IH; [assumption|lia].
Qed.

(** A larger iteration budget does not change an outcome. *)
Lemma Js_searchLoop_more (nodes : gmap string node) (endId : string)
    (budget budget' : nat) (Hb : (budget <= budget')%nat) (fuel : nat) :
  forall fuel' st, (fuel <= fuel')%nat ->
  Js.searchLoop fuel budget nodes endId st <> Js.OutOfBudget ->
  Js.searchLoop fuel' budget' nodes endId st = Js.searchLoop fuel budget nodes endId st.
Proof.
  induction fuel as [|fuel IH]; intros fuel' st Hle Hne;
    rewrite (Js_searchLoop_eq fuel' budget');
    rewrite (Js_searchLoop_eq _ budget) in Hne |- *;
    (destruct (Js.lowest (Js.fScore st) (Js.openSet st)) as [c|]; [|reflexivity]);
    (destruct (String.eqb c endId);
     [destruct (Js.reconstruct budget (Js.cameFrom st) (Js.Str c) [Js.Str c]) as [p|] eqn:Hrec;
      [now rewrite (Js_reconstruct_more _ _ _ _ _ _ Hrec Hb)|congruence]|]).
  - congruence.
  - destruct fuel' as [|fuel']; [lia|].
    destruct (Js.get nodes c) as [nc| |]; try reflexivity.
    destruct (Js.relaxAll nodes endId c _ (neighbors nc)) as [st2| |]; try reflexivity.
    apply IH; [lia|assumption].
Qed.

Lemma lowest_in (f : gmap string num) (l : list string) (c : string) :
  lowest f l = Some c -> c ∈ l.
Proof.
  destruct l as [|first rest]; [discriminate|]. simpl. intros [= <-].
  revert first. induction rest as [|b rest IH]; intros a; simpl; [set_solver|].
  specialize (IH (if ltScore (f !! a) (f !! b) then a else b)).
  destruct (ltScore (f !! a) (f !! b)); set_solver.
Qed.

Lemma removeFirst_Forall (P : string -> Prop) (c : string) (l : list string) :
  Forall P l -> Forall P (removeFirst c l).
Proof.
  induction 1 as [|a l Ha Hl IH]; simpl; [constructor|].
  destruct (String.eqb a c); [assumption|now constructor].
Qed.

End JsLoops.

Section JsBridge.

Variable nodes : gmap string node.
Variable endId : string.
Variable B : R.
Hypothesis coords : forall k n, nodes !! k = Some n -> Rabs (nx n) <= B /\ Rabs (ny n) <= B.
Hypothesis plain_nodes : forall k n, nodes !! k = Some n ->
  Js.inherited k = false /\ forall v, v ∈ neighbors n -> Js.inherited v = false.
Hypothesis plain_end : Js.inherited endId = false.

Lemma h_plain (id : string) :
  Js.inherited id = false -> 4 * B <= Js.MAX_VALUE ->
  Js.h nodes endId id = (Js.Num <$> heuristic nodes endId id).
Proof.
  intros Hid Hr. unfold Js.h, heuristic. rewrite !get_plain by assumption.
  destruct (nodes !! id) as [n|] eqn:Hn; [|reflexivity]. simpl.
  destruct (nodes !! endId) as [e|] eqn:He; [|reflexivity]. simpl.
  f_equal. apply overflow_le.
  destruct (coords _ _ Hn), (coords _ _ He).
  etransitivity; [apply distance_le; eassumption|assumption].
Qed.

Lemma relax_plain (M : R) (cur v : string) (st : search) :
  Js.inherited cur = false -> Js.inherited v = false ->
  0 <= M -> M + 2 * (4 * B) <= Js.MAX_VALUE ->
  (forall x, gScore st !! cur = Some (Fin x) -> x <= M) ->
  scoresBelow (M + 4 * B) st -> plainState st ->
  match relax nodes endId cur st v with
  | Some st' =>
      Js.relax nodes endId cur (ofSearch st) v = Js.Relaxed (ofSearch st') /\
      (forall x, gScore st' !! cur = Some (Fin x) -> x <= M) /\
      scoresBelow (M + 4 * B) st' /\ plainState st'
  | None => Js.relax nodes endId cur (ofSearch st) v = Js.RelaxThrows
  end.
Proof.
  intros Hcur Hv HM Hrange Hgcur Hbelow [Hopen Hcame].
  unfold relax, Js.relax. rewrite !get_plain by assumption.
  destruct (nodes !! cur) as [c|] eqn:Hc; [|reflexivity]. simpl.
  destruct (nodes !! v) as [n|] eqn:Hn; [|reflexivity]. simpl.
  destruct (coords _ _ Hc) as [Hcx Hcy], (coords _ _ Hn) as [Hnx Hny].
  pose proof (distance_le B c n Hcx Hcy Hnx Hny) as Hd.
  pose proof (Rabs_pos (nx c)) as HB.
  unfold Js.distance. rewrite overflow_le by lra.
  cbn [Js.gScore ofSearch]. rewrite (readScore_plain _ cur) by assumption.
  destruct (gScore st !! cur) as [[x|]|] eqn:Hg; simpl.
  - specialize (Hgcur x eq_refl). rewrite overflow_le by lra.
    rewrite (readScore_plain _ v) by assumption.
    set (d := hypot (nx c - nx n) (ny c - ny n)) in *.
    assert (Hlt : match match gScore st !! v with
                        | Some n0 => Js.Val (Js.ofNum n0)
                        | None => Js.Undef
                        end with
                  | Js.Val y => Js.ltNumber (Js.Num (x + d)) y
                  | _ => false
                  end = ltScore (Some (Fin (x + d))) (gScore st !! v)).
    { unfold ltScore. destruct (gScore st !! v) as [[y|]|]; reflexivity. }
    rewrite Hlt. clear Hlt.
    destruct (ltScore (Some (Fin (x + d))) (gScore st !! v)) eqn:Hlt;
      [|repeat split; try assumption; try reflexivity; intros x' Hx'; congruence].
    rewrite h_plain by (try assumption; lra).
    destruct (heuristic nodes endId v) as [hn|] eqn:Hh; [|reflexivity]. simpl.
    assert (Hhn : hn <= 4 * B).
    { unfold heuristic in Hh. rewrite Hn in Hh. simpl in Hh.
      destruct (nodes !! endId) as [e|] eqn:He; [|discriminate]. injection Hh as <-.
      destruct (coords _ _ He). now apply distance_le. }
    rewrite !set_plain by assumption.
    unfold Js.readScore. rewrite get_plain, lookup_insert_eq by assumption. simpl.
    rewrite overflow_le by lra.
    rewrite ?set_plain by assumption. unfold plainState.
    split; [|split; [|split; [|split]]].
    + unfold ofSearch. simpl. now rewrite !fmap_insert.
    + simpl. intros x'. destruct (decide (v = cur)) as [->|Hne].
      * rewrite lookup_insert_eq. intros [= <-].
        rewrite Hg in Hlt. unfold ltScore in Hlt.
        destruct (Rlt_dec (x + d) x); [lra|discriminate].
      * rewrite lookup_insert_ne by assumption. rewrite Hg. intros [= <-]. assumption.
    + intros w x'. simpl. destruct (decide (v = w)) as [->|Hne].
      * rewrite lookup_insert_eq. intros [= <-]. lra.
      * rewrite lookup_insert_ne by assumption. apply Hbelow.
    + simpl. destruct (includes (openSet st) v); [assumption|].
      apply Forall_app. split; [assumption|]. now apply Forall_singleton.
    + simpl. intros k w. destruct (decide (v = k)) as [->|Hne].
      * rewrite lookup_insert_eq. now intros [= <-].
      * rewrite lookup_insert_ne by assumption. apply Hcame.
  - rewrite (readScore_plain _ v) by assumption.
    assert (Hcur' : forall x, gScore st !! cur = Some (Fin x) -> x <= M)
      by (intros x; rewrite Hg; discriminate).
    destruct (gScore st !! v) as [[y|]|]; simpl; repeat split; assumption.
  - assert (Hcur' : forall x, gScore st !! cur = Some (Fin x) -> x <= M)
      by (intros x; rewrite Hg; discriminate).
    destruct (Js.readScore (Js.ofNum <$> gScore st) v); repeat split; assumption.
Qed.

Lemma relaxAll_plain (M : R) (cur : string) (todo : list string) :
  Js.inherited cur = false ->
  Forall (fun v => Js.inherited v = false) todo ->
  0 <= M -> M + 2 * (4 * B) <= Js.MAX_VALUE ->
  forall st,
  (forall x, gScore st !! cur = Some (Fin x) -> x <= M) ->
  scoresBelow (M + 4 * B) st -> plainState st ->
  match relaxAll nodes endId cur st todo with
  | Some st' =>
      Js.relaxAll nodes endId cur (ofSearch st) todo = Js.Relaxed (ofSearch st') /\
      scoresBelow (M + 4 * B) st' /\ plainState st'
  | None => Js.relaxAll nodes endId cur (ofSearch st) todo = Js.RelaxThrows
  end.
Proof.
  intros Hcur Htodo HM Hrange.
  induction Htodo as [|v todo Hv Htodo IH]; intros st Hg Hbelow Hplain; simpl.
  - repeat split; assumption || apply Hplain.
  - pose proof (relax_plain M cur v st Hcur Hv HM Hrange Hg Hbelow Hplain) as Hstep.
    destruct (relax nodes endId cur st v) as [st1|].
    + destruct Hstep as (-> & Hg1 & Hbelow1 & Hplain1). now apply IH.
    + now rewrite Hstep.
Qed.

Lemma searchLoop_plain (budget fuel : nat) :
  4 * B * (INR (size nodes) + 1) <= Js.MAX_VALUE ->
  forall k st,
  (k + fuel <= size nodes)%nat ->
  scoresBelow (INR k * (4 * B)) st -> plainState st ->
  Js.searchLoop fuel budget nodes endId (ofSearch st)
  = Js.ofResult (searchLoop fuel budget nodes endId st).
Proof.
  intros Hrange.
  induction fuel as [|fuel IH]; intros k st Hk Hbelow Hplain;
    rewrite Js_searchLoop_eq, searchLoop_eq;
    cbn [ofSearch Js.fScore Js.openSet Js.cameFrom];
    rewrite lowest_plain by apply Hplain;
    (destruct (lowest (fScore st) (openSet st)) as [c|] eqn:Hlow; [|reflexivity]);
    assert (Hc : Js.inherited c = false)
      by (destruct Hplain as [Hopen _]; rewrite Forall_forall in Hopen;
          apply Hopen; eapply lowest_in; eassumption);
    (destruct (String.eqb c endId);
     [change [Js.Str c] with (Js.ids [c]);
      rewrite reconstruct_plain by (assumption || apply Hplain);
      now destruct (reconstruct budget (cameFrom st) c [c])|]).
  - reflexivity.
  - rewrite get_plain by assumption.
    destruct (nodes !! c) as [nc|] eqn:Hnc; [|reflexivity].
    assert (HB : 0 <= B).
    { destruct (coords _ _ Hnc) as [H _]. pose proof (Rabs_pos (nx nc)). lra. }
    pose proof (pos_INR k) as Hk0.
    assert (Hk1 : INR k + 2 <= INR (size nodes) + 1).
    { replace (INR k + 2) with (INR (k + 1) + 1) by (rewrite plus_INR; simpl; lra).
      apply Rplus_le_compat_r, le_INR. lia. }
    pose proof (relaxAll_plain (INR k * (4 * B)) c (neighbors nc) Hc) as Hall.
    specialize (Hall ltac:(rewrite Forall_forall; apply (plain_nodes _ _ Hnc))).
    specialize (Hall ltac:(nra) ltac:(nra)).
    specialize (Hall {| openSet := removeFirst c (openSet st);
                        cameFrom := cameFrom st;
                        gScore := gScore st;
                        fScore := fScore st |}).
    specialize (Hall ltac:(intros x; apply Hbelow)).
    specialize (Hall ltac:(intros v x Hv; specialize (Hbelow v x Hv); simpl in *; lra)).
    specialize (Hall ltac:(destruct Hplain as [Hopen Hcame]; split;
                           [now apply removeFirst_Forall|exact Hcame])).
    match goal with
    | |- context [Js.relaxAll nodes endId c ?x (neighbors nc)] =>
        change x with (ofSearch {| openSet := removeFirst c (openSet st);
                                   cameFrom := cameFrom st;
                                   gScore := gScore st;
                                   fScore := fScore st |})
    end.
    destruct (relaxAll nodes endId c _ (neighbors nc)) as [st2|].
    + destruct Hall as (-> & Hbelow2 & Hplain2).
      apply (IH (S k)); [lia| |assumption].
      rewrite S_INR. intros v x Hv. specialize (Hbelow2 v x Hv). lra.
    + now rewrite Hall.
Qed.

End JsBridge.

Section JsFindPath.

Lemma MAX_VALUE_large : 65536 <= Js.MAX_VALUE.
Proof.
  unfold Js.MAX_VALUE.
  assert (H52 : 1 <= 2 ^ 52) by (apply pow_R1_Rle; lra).
  assert (Hinv : / 2 ^ 52 <= 1).
  { rewrite <- Rinv_1. apply Rinv_le_contravar; lra. }
  assert (H16 : 2 ^ 16 <= 2 ^ 1023) by (apply Rle_pow; [lra|lia]).
  assert (E16 : 2 ^ 16 = 65536) by (simpl; lra).
  nra.
Qed.

Lemma initialSearch_plain (nodes : gmap string node) (s : string) (h0 : R) :
  Js.inherited s = false -> nodes !! "__proto__" = None ->
  Js.initialSearch nodes s (Js.Num h0) = ofSearch (initialSearch nodes s h0).
Proof.
  intros Hs Hproto. unfold Js.initialSearch, initialSearch, ofSearch. simpl.
  rewrite !set_plain, !fmap_insert, delete_id by assumption.
  rewrite <- !map_fmap_compose. reflexivity.
Qed.

(** With plain ids and coordinates in range, the reads and writes of the
    call are own-property reads and writes, and no sum overflows: the call
    does what the finite-map definitions say, within as many iterations as
    the graph has nodes. *)
Lemma findPath_plain (nodes : gmap string node) (s e : string) (fuel : nat) :
  Js.plainIds nodes s e -> Js.noOverflow nodes -> (size nodes <= fuel)%nat ->
  Js.findPath_fuel fuel nodes s e = Js.ofResult (findPath nodes s e).
Proof.
  intros (Hs & He & Hplain) (B & Hcoords & Hrange) Hfuel.
  assert (Hproto : nodes !! "__proto__" = None).
  { destruct (nodes !! "__proto__") as [n|] eqn:Hn; [|reflexivity].
    destruct (Hplain _ _ Hn) as [H _]. discriminate H. }
  assert (Hmax : 4 * B <= Js.MAX_VALUE).
  { pose proof MAX_VALUE_large. pose proof (pos_INR (size nodes)).
    destruct (Rle_dec 0 B); [nra|lra]. }
  assert (Hsize : Js.findPath_fuel (size nodes) nodes s e = Js.ofResult (findPath nodes s e)).
  { unfold Js.findPath_fuel, findPath, findPath_fuel.
    rewrite (h_plain nodes e B Hcoords He s Hs Hmax).
    destruct (heuristic nodes e s) as [h0|]; [|reflexivity]. simpl.
    rewrite initialSearch_plain by assumption.
    apply (searchLoop_plain nodes e B Hcoords Hplain He _ _ Hrange 0%nat); [lia| |].
    - intros v x. simpl. destruct (decide (s = v)) as [->|Hne].
      + rewrite lookup_insert_eq. intros [= <-]. lra.
      + rewrite lookup_insert_ne, lookup_fmap by assumption.
        destruct (nodes !! v); discriminate.
    - split; simpl; [now apply Forall_singleton|].
      intros k v. rewrite lookup_empty. discriminate. }
  rewrite <- Hsize. unfold Js.findPath_fuel in *.
  destruct (Js.h nodes e s) as [h0|]; [|reflexivity].
  apply Js_searchLoop_more; try assumption.
  rewrite Hsize. pose proof (findPath_post nodes s e (size nodes) (le_n _)) as Hpost.
  fold (findPath nodes s e) in Hpost.
  destruct (findPath nodes s e); try discriminate. simpl in Hpost. tauto.
Qed.

Lemma plainIdsb_sound (nodes : gmap string node) (s e : string) :
  Js.plainIdsb nodes s e = true -> Js.plainIds nodes s e.
Proof.
  unfold Js.plainIdsb. rewrite !andb_true_iff, !negb_true_iff, forallb_forall.
  intros [[Hs He] Hall]. repeat split; try assumption.
  - specialize (Hall (k, n)). simpl in Hall.
    rewrite andb_true_iff, negb_true_iff in Hall. apply Hall.
    apply list_elem_of_In, elem_of_map_to_list. assumption.
  - intros v Hv. specialize (Hall (k, n)). simpl in Hall.
    rewrite andb_true_iff, forallb_forall in Hall. destruct Hall as [_ Hall].
    + apply list_elem_of_In, elem_of_map_to_list. assumption.
    + apply negb_true_iff, Hall, list_elem_of_In, Hv.
Qed.

End JsFindPath.

Section JsExamples.

Lemma noOverflow_small (nodes : gmap string node) (B : R) :
  (forall k n, nodes !! k = Some n -> Rabs (nx n) <= B /\ Rabs (ny n) <= B) ->
  4 * B * (INR (size nodes) + 1) <= 65536 ->
  Js.noOverflow nodes.
Proof.
  intros Hc Hs. exists B. split; [assumption|].
  pose proof MAX_VALUE_large. lra.
Qed.

Lemma GRAPH_NODES_plain (e : string) :
  is_Some (GRAPH_NODES !! e) -> Js.plainIds GRAPH_NODES "start" e.
Proof.
  intros [n Hn]. apply plainIdsb_sound. unfold GRAPH_NODES in Hn.
  repeat (apply lookup_insert_Some in Hn as [[<- _]|[_ Hn]]; [reflexivity|]).
  rewrite lookup_empty in Hn. discriminate.
Qed.

Lemma GRAPH_NODES_noOverflow : Js.noOverflow GRAPH_NODES.
Proof.
  apply (noOverflow_small _ 350).
  - intros k n Hn. unfold GRAPH_NODES in Hn.
    repeat (apply lookup_insert_Some in Hn as [[_ <-]|[_ Hn]];
            [simpl; rewrite !Rabs_right by lra; lra|]).
    rewrite lookup_empty in Hn. discriminate.
  - change (size GRAPH_NODES) with 10%nat. simpl. lra.
Qed.

Lemma emptyIdGraph_noOverflow : Js.noOverflow emptyIdGraph.
Proof.
  apply (noOverflow_small _ 1).
  - intros k n Hn. unfold emptyIdGraph in Hn.
    repeat (apply lookup_insert_Some in Hn as [[_ <-]|[_ Hn]];
            [simpl; rewrite !Rabs_right by lra; lra|]).
    rewrite lookup_empty in Hn. discriminate.
  - change (size emptyIdGraph) with 2%nat. simpl. lra.
Qed.

Lemma danglingGraph_noOverflow : Js.noOverflow danglingGraph.
Proof.
  apply (noOverflow_small _ 1).
  - intros k n Hn. unfold danglingGraph in Hn.
    repeat (apply lookup_insert_Some in Hn as [[_ <-]|[_ Hn]];
            [simpl; rewrite !Rabs_right by lra; lra|]).
    rewrite lookup_empty in Hn. discriminate.
  - change (size danglingGraph) with 2%nat. simpl. lra.
Qed.

End JsExamples.
(** **** The properties of [findPath] on JavaScript objects *)

Section JsClaims.

Lemma hypot_unit : hypot (0 - 1) (0 - 0) = 1.
Proof.
  unfold hypot. replace ((0 - 1) * (0 - 1) + (0 - 0) * (0 - 0)) with 1 by lra.
  apply sqrt_1.
Qed.

(** On [prototypeGraph] the path reconstruction goes round for ever:
    from the goal to ["constructor"], from there to the inherited member
    [Object], which as a key is the goal again. *)
Lemma prototype_cycle (fuel : nat) :
  let came : gmap string string := <[Js.OBJECT_KEY := "constructor"]> ∅ in
  forall path,
  Js.reconstruct fuel came (Js.Str Js.OBJECT_KEY) path = None /\
  Js.reconstruct fuel came (Js.Str "constructor") path = None /\
  Js.reconstruct fuel came (Js.Proto "constructor") path = None.
Proof.
  intros came. induction fuel as [|fuel IH]; intros path.
  - repeat split; reflexivity.
  - destruct (IH (Js.Str "constructor" :: path)) as (_ & H2 & _).
    destruct (IH (Js.Proto "constructor" :: path)) as (_ & _ & H3).
    repeat split; [exact H2|exact H3|exact H2].
Qed.

(** The step that stores: a finite [g] of the node expanded, a finite
    distance, and a neighbour whose [g] is still [Infinity]. *)
Lemma relax_store (nodes : gmap string node) (endId cur v : string) (st : Js.search)
    (c n : node) (x d : R) (hn : Js.number) :
  Js.get nodes cur = Js.Own c -> Js.get nodes v = Js.Own n ->
  Js.readScore (Js.gScore st) cur = Js.Val (Js.Num x) ->
  Js.distance c n = Js.Num d -> x + d <= Js.MAX_VALUE ->
  Js.readScore (Js.gScore st) v = Js.Val Js.Infinity ->
  v <> "__proto__" -> Js.h nodes endId v = Some hn ->
  Js.relax nodes endId cur st v
  = Js.Relaxed {| Js.cameFrom := <[v := cur]> (Js.cameFrom st);
                  Js.gScore := <[v := Js.Num (x + d)]> (Js.gScore st);
                  Js.fScore := <[v := Js.addNumber (Js.Num (x + d)) hn]> (Js.fScore st);
                  Js.openSet := if includes (Js.openSet st) v then Js.openSet st
                                else Js.openSet st ++ [v] |}.
Proof.
  intros Hc Hn Hg Hd Hle Hgv Hv Hh. unfold Js.relax.
  rewrite Hc, Hn, Hg, Hd, Hgv, Hh. simpl. rewrite overflow_le by assumption. simpl.
  assert (Hset : forall (V : Type) (y : V) (m : gmap string V), Js.set v y m = <[v := y]> m).
  { intros V y m. unfold Js.set. destruct (String.eqb_spec v "__proto__"); [contradiction|reflexivity]. }
  rewrite !Hset. unfold Js.readScore, Js.get. rewrite lookup_insert_eq.
  rewrite !Hset. reflexivity.
Qed.

Lemma prototype_run (fuel : nat) :
  Js.findPath_fuel fuel Js.prototypeGraph "constructor" Js.OBJECT_KEY = Js.OutOfBudget.
Proof.
  destruct fuel as [|fuel]; [reflexivity|].
  pose proof MAX_VALUE_large as Hmax.
  unfold Js.findPath_fuel.
  replace (Js.h Js.prototypeGraph Js.OBJECT_KEY "constructor")
    with (Some (Js.distance (mkNode 0 0 [Js.OBJECT_KEY]) (mkNode 1 0 []))) by reflexivity.
  rewrite Js_searchLoop_eq.
  replace (Js.lowest _ _) with (Some "constructor") by reflexivity.
  replace (String.eqb "constructor" Js.OBJECT_KEY) with false by reflexivity.
  replace (Js.get Js.prototypeGraph "constructor")
    with (Js.Own (mkNode 0 0 [Js.OBJECT_KEY])) by reflexivity.
  cbn [neighbors Js.relaxAll].
  erewrite (relax_store _ _ _ _ _ (mkNode 0 0 [Js.OBJECT_KEY]) (mkNode 1 0 []) 0 1);
    [|reflexivity|reflexivity|reflexivity
     |unfold Js.distance; cbn [nx ny]; rewrite hypot_unit; apply overflow_le; lra
     |lra|reflexivity|discriminate|reflexivity].
  rewrite Js_searchLoop_eq.
  replace (Js.lowest _ _) with (Some Js.OBJECT_KEY) by reflexivity.
  rewrite String.eqb_refl.
  change (Js.cameFrom _) with (<[Js.OBJECT_KEY := "constructor"]> (∅ : gmap string string)).
  now destruct (prototype_cycle (S fuel) [Js.Str Js.OBJECT_KEY]) as (-> & _).
Qed.

(** Ids that name members of [Object.prototype].  From a start node
    ["constructor"] the path begins with the function [Object], found
    where [cameFrom] has no entry; with such a node as start and goal the
    path is [[Object, "constructor"]]; and a goal ["constructor"] that is
    not a node does not make the call throw: the heuristic is [NaN] and
    the call returns null. *)
Lemma inherited_ids :
  Js.findPath_fuel 2 Js.constructorGraph "constructor" "g"
  = Js.Path [Js.Proto "constructor"; Js.Str "constructor"; Js.Str "g"] /\
  Js.findPath_fuel 2 Js.constructorGraph "constructor" "constructor"
  = Js.Path [Js.Proto "constructor"; Js.Str "constructor"] /\
  Js.findPath_fuel 2 Js.loneGraph "a" "constructor" = Js.ReturnsNull /\
  findPath Js.loneGraph "a" "constructor" = TypeError.
Proof.
  split; [|repeat split; reflexivity].
  pose proof MAX_VALUE_large as Hmax.
  unfold Js.findPath_fuel.
  replace (Js.h Js.constructorGraph "g" "constructor")
    with (Some (Js.distance (mkNode 0 0 ["g"]) (mkNode 1 0 []))) by reflexivity.
  rewrite Js_searchLoop_eq.
  replace (Js.lowest _ _) with (Some "constructor") by reflexivity.
  replace (String.eqb "constructor" "g") with false by reflexivity.
  replace (Js.get Js.constructorGraph "constructor")
    with (Js.Own (mkNode 0 0 ["g"])) by reflexivity.
  cbn [neighbors Js.relaxAll].
  erewrite (relax_store _ _ _ _ _ (mkNode 0 0 ["g"]) (mkNode 1 0 []) 0 1);
    [|reflexivity|reflexivity|reflexivity
     |unfold Js.distance; cbn [nx ny]; rewrite hypot_unit; apply overflow_le; lra
     |lra|reflexivity|discriminate|reflexivity].
  reflexivity.
Qed.

(** The step that stores nothing: the distance to the neighbour is out
    of range. *)
Lemma relax_overflow (nodes : gmap string node) (endId cur v : string) (st : Js.search)
    (c n : node) (x : R) :
  Js.get nodes cur = Js.Own c -> Js.get nodes v = Js.Own n ->
  Js.readScore (Js.gScore st) cur = Js.Val (Js.Num x) ->
  Js.distance c n = Js.Infinity ->
  Js.relax nodes endId cur st v = Js.Relaxed st.
Proof.
  intros Hc Hn Hg Hd. unfold Js.relax. rewrite Hc, Hn, Hg, Hd. simpl.
  now destruct (Js.readScore (Js.gScore st) v) as [[y| |]| |].
Qed.

(** On [farGraph] the only edge is longer than any double, and the goal
    at its end is not found. *)
Lemma far_run :
  Js.findPath_fuel 2 Js.farGraph "a" "b" = Js.ReturnsNull /\
  reachable Js.farGraph "a" "b".
Proof.
  assert (Hpos : 0 < 2 ^ 1023) by (apply pow_lt; lra).
  assert (Hfar : Js.distance (mkNode (- 2 ^ 1023) 0 ["b"]) (mkNode (2 ^ 1023) 0 [])
                 = Js.Infinity).
  { unfold Js.distance, Js.overflow, hypot. cbn [nx ny].
    replace ((- 2 ^ 1023 - 2 ^ 1023) * (- 2 ^ 1023 - 2 ^ 1023) + (0 - 0) * (0 - 0))
      with ((2 * 2 ^ 1023) * (2 * 2 ^ 1023)) by lra.
    rewrite sqrt_square by lra.
    assert (Hinv : 0 < / 2 ^ 52) by (apply Rinv_0_lt_compat, pow_lt; lra).
    destruct (Rlt_dec Js.MAX_VALUE (2 * 2 ^ 1023)) as [_|Hn]; [reflexivity|].
    exfalso. apply Hn. unfold Js.MAX_VALUE. nra. }
  split.
  - unfold Js.findPath_fuel.
    replace (Js.h Js.farGraph "b" "a")
      with (Some (Js.distance (mkNode (- 2 ^ 1023) 0 ["b"]) (mkNode (2 ^ 1023) 0 [])))
      by reflexivity.
    rewrite Js_searchLoop_eq.
    replace (Js.lowest _ _) with (Some "a") by reflexivity.
    replace (String.eqb "a" "b") with false by reflexivity.
    replace (Js.get Js.farGraph "a")
      with (Js.Own (mkNode (- 2 ^ 1023) 0 ["b"])) by reflexivity.
    cbn [neighbors Js.relaxAll].
    erewrite (relax_overflow _ _ _ _ _ (mkNode (- 2 ^ 1023) 0 ["b"]) (mkNode (2 ^ 1023) 0 []) 0);
      [|reflexivity|reflexivity|reflexivity|exact Hfar].
    reflexivity.
  - exists (["a"] ++ ["b"]), (0 + edgeLength Js.farGraph "a" "b").
    eapply (route_step _ _ "a").
    + apply route_start. eexists. reflexivity.
    + eexists. split; [reflexivity|]. split; [set_solver|eexists; reflexivity].
Qed.

(** The step that stores, for a neighbour with a finite [g]. *)
Lemma relax_decrease (nodes : gmap string node) (endId cur v : string) (st : Js.search)
    (c n : node) (x d y : R) (hn : Js.number) :
  Js.get nodes cur = Js.Own c -> Js.get nodes v = Js.Own n ->
  Js.readScore (Js.gScore st) cur = Js.Val (Js.Num x) ->
  Js.distance c n = Js.Num d -> x + d <= Js.MAX_VALUE ->
  Js.readScore (Js.gScore st) v = Js.Val (Js.Num y) -> x + d < y ->
  v <> "__proto__" -> Js.h nodes endId v = Some hn ->
  Js.relax nodes endId cur st v
  = Js.Relaxed {| Js.cameFrom := <[v := cur]> (Js.cameFrom st);
                  Js.gScore := <[v := Js.Num (x + d)]> (Js.gScore st);
                  Js.fScore := <[v := Js.addNumber (Js.Num (x + d)) hn]> (Js.fScore st);
                  Js.openSet := if includes (Js.openSet st) v then Js.openSet st
                                else Js.openSet st ++ [v] |}.
Proof.
  intros Hc Hn Hg Hd Hle Hgv Hlt Hv Hh. unfold Js.relax.
  rewrite Hc, Hn, Hg, Hd, Hgv, Hh. simpl. rewrite overflow_le by assumption. simpl.
  destruct (Rlt_dec (x + d) y) as [_|Hn']; [|contradiction].
  assert (Hset : forall (V : Type) (z : V) (m : gmap string V), Js.set v z m = <[v := z]> m).
  { intros V z m. unfold Js.set. destruct (String.eqb_spec v "__proto__"); [contradiction|reflexivity]. }
  rewrite !Hset. unfold Js.readScore, Js.get. rewrite lookup_insert_eq.
  rewrite !Hset. reflexivity.
Qed.

Lemma column_distance (X y1 y2 : R) (l1 l2 : list string) :
  Rabs (y1 - y2) <= 65536 ->
  Js.distance (mkNode X y1 l1) (mkNode X y2 l2) = Js.Num (Rabs (y1 - y2)).
Proof.
  intros Hle. unfold Js.distance, hypot. cbn [nx ny].
  replace ((X - X) * (X - X) + (y1 - y2) * (y1 - y2)) with (Rsqr (y1 - y2))
    by (unfold Rsqr; lra).
  rewrite sqrt_Rsqr_abs. apply overflow_le. pose proof MAX_VALUE_large. lra.
Qed.

Lemma column_heuristic (y : R) (l1 l2 : list string) :
  Js.distance (mkNode (- 2 ^ 1023) y l1) (mkNode (2 ^ 1023) 0 l2) = Js.Infinity.
Proof.
  assert (Hpos : 0 < 2 ^ 1023) by (apply pow_lt; lra).
  assert (Hinv : 0 < / 2 ^ 52) by (apply Rinv_0_lt_compat, pow_lt; lra).
  unfold Js.distance, Js.overflow, hypot. cbn [nx ny].
  destruct (Rlt_dec Js.MAX_VALUE _) as [_|Hn]; [reflexivity|].
  exfalso. apply Hn. clear Hn.
  apply Rlt_le_trans with (2 * 2 ^ 1023); [unfold Js.MAX_VALUE; nra|].
  rewrite <- (sqrt_square (2 * 2 ^ 1023)) by lra.
  apply sqrt_le_1_alt. nra.
Qed.

Ltac column_abs :=
  repeat match goal with
         | |- context [Rabs ?z] => unfold Rabs at 1; destruct (Rcase_abs z)
         end;
  pose proof MAX_VALUE_large; lra.

Ltac column_tidy :=
  cbn [Js.cameFrom Js.gScore Js.fScore Js.openSet];
  repeat match goal with
         | |- context [includes ?l ?v] =>
             let b := eval vm_compute in (includes l v) in
             change (includes l v) with b
         | |- context [removeFirst ?c ?l] =>
             let r := eval vm_compute in (removeFirst c l) in
             change (removeFirst c l) with r
         end;
  cbv iota; cbn [app].

Ltac column_expand cur nd :=
  rewrite Js_searchLoop_eq;
  replace (Js.lowest _ _) with (Some cur) by reflexivity;
  replace (String.eqb cur "e") with false by reflexivity;
  replace (Js.get Js.columnGraph cur) with (Js.Own nd) by reflexivity;
  cbn [neighbors Js.relaxAll]; column_tidy.

Ltac column_first :=
  erewrite relax_store;
  [|reflexivity|reflexivity|reflexivity|apply column_distance; column_abs
   |column_abs|reflexivity|discriminate|reflexivity];
  rewrite column_heuristic; column_tidy.

Ltac column_again :=
  erewrite relax_decrease;
  [|reflexivity|reflexivity|reflexivity|apply column_distance; column_abs
   |column_abs|reflexivity|column_abs|discriminate|reflexivity];
  rewrite column_heuristic; column_tidy.

(** The first six iterations on [columnGraph]: [s], [c], [a] and [d] on
    the detour, then [b], then [a] again; [d] is in the open set once
    more. *)
Lemma column_run :
  exists st6, Js.openSet st6 = ["d"] /\
    forall fuel budget,
      Js.searchLoop (6 + fuel) budget Js.columnGraph "e"
        (Js.initialSearch Js.columnGraph "s" Js.Infinity)
      = Js.searchLoop fuel budget Js.columnGraph "e" st6.
Proof.
  eexists. split; cycle 1.
  { intros fuel budget. cbn [Nat.add].
    column_expand "s" (mkNode (- 2 ^ 1023) 0 ["b"; "c"]).
    column_first. column_first.
    column_expand "c" (mkNode (- 2 ^ 1023) 10 ["a"]).
    column_first.
    column_expand "a" (mkNode (- 2 ^ 1023) 2 ["d"]).
    column_first.
    column_expand "d" (mkNode (- 2 ^ 1023) 3 []).
    column_expand "b" (mkNode (- 2 ^ 1023) 1 ["a"]).
    column_again.
    column_expand "a" (mkNode (- 2 ^ 1023) 2 ["d"]).
    column_again.
    reflexivity. }
  reflexivity.
Qed.

(** Without the bound on the coordinates the main loop can take more
    iterations than the graph has nodes.  On [columnGraph] every [f] is
    [Infinity], so the loop always takes the last node of the open set:
    [a] and [d] are expanded on the detour first, and once more after [b]
    has shown the short way.  That is seven iterations for six nodes. *)
Lemma overflow_reopens :
  size Js.columnGraph = 6%nat /\
  Js.findPath_fuel 6 Js.columnGraph "s" "e" = Js.OutOfBudget /\
  Js.findPath_fuel 7 Js.columnGraph "s" "e" = Js.ReturnsNull.
Proof.
  split; [reflexivity|].
  destruct column_run as (st6 & Hopen & Hrun).
  assert (Hh : Js.h Js.columnGraph "e" "s" = Some Js.Infinity).
  { replace (Js.h Js.columnGraph "e" "s")
      with (Some (Js.distance (mkNode (- 2 ^ 1023) 0 ["b"; "c"]) (mkNode (2 ^ 1023) 0 [])))
      by reflexivity.
    now rewrite column_heuristic. }
  unfold Js.findPath_fuel. rewrite Hh. split.
  - pose proof (Hrun 0%nat 6%nat) as H6. cbn [Nat.add] in H6.
    rewrite H6, Js_searchLoop_eq, Hopen. reflexivity.
  - pose proof (Hrun 1%nat 7%nat) as H7. cbn [Nat.add] in H7.
    rewrite H7, Js_searchLoop_eq, Hopen.
    replace (Js.lowest _ _) with (Some "d") by reflexivity.
    replace (String.eqb "d" "e") with false by reflexivity.
    replace (Js.get Js.columnGraph "d") with (Js.Own (mkNode (- 2 ^ 1023) 3 [])) by reflexivity.
    cbn [neighbors Js.relaxAll]. rewrite Js_searchLoop_eq. cbn [Js.openSet Js.fScore].
    rewrite ?Hopen. reflexivity.
Qed.

(** A node enters the open set only together with a strictly smaller
    [g]. *)
Lemma Js_relax_inserts_on_decrease (nodes : gmap string node) (endId cur v : string)
    (st st' : Js.search) :
  Js.gScore st !! "__proto__" = None ->
  Js.relax nodes endId cur st v = Js.Relaxed st' ->
  v ∈ Js.openSet st' -> v ∉ Js.openSet st ->
  exists g', Js.gScore st' !! v = Some g' /\
             Js.lt (Js.Val g') (Js.readScore (Js.gScore st) v) = true.
Proof.
  intros Hproto Hrel Hin Hnot. unfold Js.relax in Hrel.
  set (dist := match Js.get nodes cur, Js.get nodes v with
               | Js.Own c, Js.Own n => Js.distance c n
               | _, _ => Js.NaN
               end) in *.
  assert (Hcases : forall tentativeG,
    (if Js.lt (Js.Val tentativeG) (Js.readScore (Js.gScore st) v)
     then match Js.h nodes endId v with
          | Some hNext =>
              match Js.readScore (Js.set v tentativeG (Js.gScore st)) v with
              | Js.Obj _ => Js.RelaxExotic
              | g1 =>
                  Js.Relaxed
                    {| Js.cameFrom := Js.set v cur (Js.cameFrom st);
                       Js.gScore := Js.set v tentativeG (Js.gScore st);
                       Js.fScore := Js.set v match g1 with
                                             | Js.Val g => Js.addNumber g hNext
                                             | _ => Js.NaN
                                             end (Js.fScore st);
                       Js.openSet := if includes (Js.openSet st) v then Js.openSet st
                                     else Js.openSet st ++ [v] |}
              end
          | None => Js.RelaxThrows
          end
     else Js.Relaxed st) = Js.Relaxed st' ->
    exists g', Js.gScore st' !! v = Some g' /\
               Js.lt (Js.Val g') (Js.readScore (Js.gScore st) v) = true).
  { intros tg Hstep.
    destruct (Js.lt (Js.Val tg) (Js.readScore (Js.gScore st) v)) eqn:Hlt;
      [|injection Hstep as <-; contradiction].
    assert (Hv : v <> "__proto__").
    { intros ->. unfold Js.readScore, Js.get in Hlt. rewrite Hproto in Hlt. discriminate. }
    assert (Hset : Js.set v tg (Js.gScore st) = <[v := tg]> (Js.gScore st)).
    { unfold Js.set. destruct (String.eqb_spec v "__proto__"); [contradiction|reflexivity]. }
    rewrite Hset in Hstep.
    destruct (Js.h nodes endId v); [|discriminate].
    unfold Js.readScore, Js.get in Hstep. rewrite lookup_insert_eq in Hstep.
    injection Hstep as <-. simpl. rewrite lookup_insert_eq. eauto. }
  destruct (Js.get nodes cur) as [c| |]; [| |discriminate];
    (destruct (Js.get nodes v) as [n| |]; [| |discriminate]);
    (destruct (Js.readScore (Js.gScore st) cur); [|discriminate|]);
    eapply Hcases; exact Hrel.
Qed.

Lemma tieGraph_noOverflow : Js.noOverflow tieGraph.
Proof.
  apply (noOverflow_small _ 2).
  - intros k n Hn. unfold tieGraph in Hn.
    repeat (apply lookup_insert_Some in Hn as [[_ <-]|[_ Hn]];
            [simpl; rewrite !Rabs_right by lra; lra|]).
    rewrite lookup_empty in Hn. discriminate.
  - change (size tieGraph) with 4%nat. simpl. lra.
Qed.

(** What the finite-map definitions give on a well-formed graph without
    an empty id. *)
Lemma findPath_map_correct (nodes : gmap string node) (s e : string) :
  wellFormed nodes -> nodes !! "" = None ->
  is_Some (nodes !! s) -> is_Some (nodes !! e) ->
  (findPath nodes s e = Null <-> ~ reachable nodes s e) /\
  (forall p, findPath nodes s e = Route p ->
     exists c, route nodes s e p c /\ forall q c', route nodes s e q c' -> c <= c') /\
  (reachable nodes s e -> exists p, findPath nodes s e = Route p) /\
  findPath nodes s e <> TypeError /\
  findPath nodes s e <> OutOfFuel.
Proof.
  intros Hwf Hempty Hs He.
  assert (Htruthy : forall p c, route nodes s e p c -> forall w, w ∈ p -> truthy w = true).
  { intros p c Hr w Hw. destruct (route_elem_nodes _ _ _ _ _ Hr w Hw) as [n Hn].
    unfold truthy. destruct (String.eqb_spec w ""); [congruence|reflexivity]. }
  unfold findPath.
  pose proof (findPath_post nodes s e (size nodes) ltac:(lia)) as Hpost.
  destruct (findPath_fuel (size nodes) nodes s e) as [p| | |].
  - destruct Hpost as (_ & _ & p0 & c & Hr & Hopt & Heq).
    specialize (Heq (Htruthy p0 c Hr)). subst p0.
    assert (Hreach : reachable nodes s e) by (exists p, c; assumption).
    repeat split; try discriminate; try tauto; eauto.
    intros p' [= <-]. eauto.
  - destruct Hpost as (_ & _ & Hnone). simpl in Hnone.
    repeat split; try discriminate; try tauto.
  - exfalso. tauto.
  - exfalso. simpl in Hpost. tauto.
Qed.







End JsClaims.
(** ** More on the pathfinder *)

(** Following [cameFrom] from the end of a tree path returns a final
    segment of that path, whatever the ids on it. *)
Lemma reconstruct_suffix (nodes : gmap string node) (s : string)
    (came : gmap string string) (closed : list string) (v : string)
    (p0 : list string) (c : R) :
  treePath nodes s came closed v p0 c ->
  forall budget acc p,
  reconstruct budget came v (v :: acc) = Some p ->
  exists pre suf, p0 = pre ++ suf ++ [v] /\ p = suf ++ v :: acc.
Proof.
  induction 1 as [Hs|u v p0 c Ht IH Hu Hv Hc He]; intros budget acc p Hrec.
  - exists [], []. split; [reflexivity|].
    destruct budget; simpl in Hrec; rewrite Hs in Hrec; now injection Hrec as <-.
  - destruct budget as [|budget]; simpl in Hrec; rewrite Hc in Hrec.
    + destruct (truthy u); [discriminate|]. injection Hrec as <-.
      exists p0, []. split; reflexivity.
    + destruct (truthy u).
      * destruct (IH budget (v :: acc) p Hrec) as (pre & suf & Hp0 & Hp).
        exists pre, (suf ++ [u]). subst. split; [now rewrite <- !app_assoc|].
        now rewrite <- app_assoc.
      * injection Hrec as <-. exists p0, []. split; reflexivity.
Qed.

(** The loop, once more: a returned path is a final segment of a tree
    path to the goal, and that tree path is a shortest route. *)
Lemma searchLoop_route (nodes : gmap string node) (startId endId : string)
    (Hs : is_Some (nodes !! startId)) (He : is_Some (nodes !! endId))
    (budget fuel : nat) :
  forall closed cur st p,
  searchInv nodes startId endId closed cur [] st ->
  searchLoop fuel budget nodes endId st = Route p ->
  exists pre suf c,
    p = suf ++ [endId] /\
    route nodes startId endId (pre ++ p) c /\
    NoDup (pre ++ p) /\
    (forall q c', route nodes startId endId q c' -> c <= c').
Proof.
  induction fuel as [|fuel IH]; intros closed cur st p HI;
    rewrite searchLoop_eq;
    (destruct (lowest (fScore st) (openSet st)) as [x|] eqn:Hlow; [|discriminate]);
    pose proof (lowest_elem nodes startId endId Hs He _ _ _ Hlow) as Hx;
    destruct (inv_open _ _ _ _ _ _ _ HI x Hx) as (Hxcl & [nx0 Hnx] & r & fr & Hg & Hf & Hfr);
    (destruct (String.eqb_spec x endId) as [->|Hne]; [|]).
  1, 3: destruct (reconstruct budget (cameFrom st) endId [endId]) as [p'|] eqn:Hrec;
    [|discriminate]; intros [= ->];
    destruct (inv_tree _ _ _ _ _ _ _ HI endId r Hg) as [p0 Hp0];
    destruct (reconstruct_suffix _ _ _ _ _ _ _ Hp0 _ _ _ Hrec) as (pre & suf & Hp0eq & Hp);
    exists pre, suf, r; subst p0;
    (split; [assumption|]); rewrite Hp;
    (split; [exact (tree_route nodes startId Hs _ _ _ _ _ Hp0)|]);
    (split; [exact (tree_NoDup _ _ _ _ _ _ _ Hp0)|]);
    exact (lowest_optimal nodes startId endId He closed cur st endId r HI Hlow Hg).
  - discriminate.
  - rewrite Hnx.
    pose proof (extract_Inv nodes startId endId Hs He closed cur st x nx0 HI Hlow Hne Hnx) as HI1.
    pose proof (relaxAll_Inv nodes startId endId Hs He (closed ++ [x]) x nx0 (neighbors nx0) _ HI1
                  ltac:(set_solver) Hnx ltac:(auto)) as Hall.
    destruct (relaxAll nodes endId x _ (neighbors nx0)) as [st2|]; [|discriminate].
    apply (IH (closed ++ [x]) x st2 p Hall).
Qed.

(** The finite-map definitions: the returned path is a final segment of
    a shortest route. *)
Lemma findPath_segment_map (nodes : gmap string node) (s e : string) (p : list string) :
  findPath nodes s e = Route p ->
  exists pre suf c,
    p = suf ++ [e] /\
    route nodes s e (pre ++ p) c /\
    NoDup (pre ++ p) /\
    (forall q c', route nodes s e q c' -> c <= c') /\
    (nodes !! "" = None -> pre = []).
Proof.
  intros Hres. unfold findPath, findPath_fuel in Hres.
  destruct (heuristic nodes e s) as [h0|] eqn:Hh; [|discriminate].
  destruct (heuristic_Some _ _ _ _ Hh) as [Hs He].
  rewrite (heuristic_edgeLength nodes e s Hs He) in Hh. injection Hh as <-.
  pose proof Hres as Hres'.
  apply (searchLoop_route nodes s e Hs He _ _ [] s) in Hres; [|apply initial_Inv; assumption].
  destruct Hres as (pre & suf & c & Hp & Hr & Hnd & Hopt).
  exists pre, suf, c. repeat split; try assumption.
  intros Hempty.
  (* with truthy ids the reconstruction returns the whole tree path *)
  pose proof (findPath_post nodes s e (size nodes) ltac:(lia)) as Hpost.
  unfold findPath_fuel in Hpost. rewrite (heuristic_edgeLength nodes e s Hs He) in Hpost.
  rewrite Hres' in Hpost. destruct Hpost as (_ & _ & p0 & c0 & Hr0 & Hopt0 & Heq).
  assert (Htr : forall w, w ∈ p0 -> truthy w = true).
  { intros w Hw. destruct (route_elem_nodes _ _ _ _ _ Hr0 w Hw) as [n Hn].
    unfold truthy. destruct (String.eqb_spec w ""); [congruence|reflexivity]. }
  specialize (Heq Htr). subst p0.
  (* both [p] and [pre ++ p] are routes from [s]: their heads agree *)
  destruct (route_ends _ _ _ _ _ Hr0) as [Hh0 _].
  destruct (route_ends _ _ _ _ _ Hr) as [Hh1 _].
  destruct pre as [|a pre]; [reflexivity|]. exfalso.
  simpl in Hh1. injection Hh1 as ->.
  destruct p as [|b p]; [discriminate|]. simpl in Hh0. injection Hh0 as ->.
  apply NoDup_cons in Hnd as [Hnotin _]. apply Hnotin. set_solver.
Qed.



(** X2: The error behaviour: a start or a goal that is neither a node of
    the graph nor the name of a member of [Object.prototype] always makes
    the call throw; and when no id is the name of such a member and no sum
    of distances overflows, the call throws only for a missing start, a
    missing goal, or a neighbour list that names a missing node. *)
Theorem findPath_throws (nodes : gmap string node) (s e : string) (fuel : nat) :
  (Js.get nodes s = Js.Undefined \/ Js.get nodes e = Js.Undefined ->
   Js.findPath_fuel fuel nodes s e = Js.Throws) /\
  (Js.plainIds nodes s e -> Js.noOverflow nodes -> (size nodes <= fuel)%nat ->
   Js.findPath_fuel fuel nodes s e = Js.Throws ->
   nodes !! s = None \/ nodes !! e = None \/ ~ wellFormed nodes).
Proof.
  split.
  - intros Hmiss. unfold Js.findPath_fuel, Js.h.
    destruct Hmiss as [->| ->]; [reflexivity|].
    now destruct (Js.get nodes s).
  - intros Hplain Hrange Hfuel Hres.
    rewrite (findPath_plain nodes s e fuel Hplain Hrange Hfuel) in Hres.
    pose proof (findPath_post nodes s e (size nodes) ltac:(lia)) as Hpost.
    fold (findPath nodes s e) in Hpost.
    destruct (findPath nodes s e); try discriminate.
    destruct (nodes !! s) as [ns|] eqn:Hs; [|now left].
    destruct (nodes !! e) as [ne|] eqn:He; [|right; now left].
    right. right. intros Hwf. apply Hpost. eauto.
Qed.

Lemma findPath_throws_witness :
  Js.findPath_fuel 2 emptyIdGraph "g" "nowhere" = Js.Throws.
Proof.
  apply (findPath_throws emptyIdGraph "g" "nowhere" 2). right. reflexivity.
Defined.

(** X3: Start and goal the same node, whose id is not the name of a member of
    [Object.prototype]: the path is that node alone, whatever the rest of
    the graph looks like. *)
Theorem findPath_same_node (nodes : gmap string node) (s : string) (fuel : nat) :
  is_Some (nodes !! s) -> Js.inherited s = false ->
  Js.findPath_fuel fuel nodes s s = Js.Path [Js.Str s].
Proof.
  intros [n Hn] Hs. unfold Js.findPath_fuel, Js.h, Js.get. rewrite Hn.
  rewrite Js_searchLoop_eq. simpl. rewrite String.eqb_refl.
  destruct fuel; simpl; unfold Js.get; rewrite lookup_empty, Hs; reflexivity.
Qed.

Lemma findPath_same_node_witness :
  Js.findPath_fuel 10 GRAPH_NODES "n3" "n3" = Js.Path [Js.Str "n3"].
Proof. apply findPath_same_node; [eexists|]; reflexivity. Defined.

Lemma route_lower_bound (nodes : gmap string node) (s v : string) (p : list string) (c : R) :
  route nodes s v p c -> edgeLength nodes s v <= c.
Proof.
  induction 1 as [[n Hn]|u v p c Hr IH (nu & Hnu & Hv & Hvn)].
  - unfold edgeLength. rewrite Hn.
    replace (nx n - nx n) with 0 by lra. replace (ny n - ny n) with 0 by lra.
    rewrite hypot_0. lra.
  - destruct (route_nodes _ _ _ _ _ Hr) as [Hu Hs].
    pose proof (edgeLength_triangle nodes s u v Hs Hu Hvn). lra.
Qed.



(** X5: A goal that no neighbour list names cannot be reached from another
    node: the call returns null. *)
Theorem findPath_isolated_goal (nodes : gmap string node) (s e : string) :
  wellFormed nodes -> is_Some (nodes !! s) -> is_Some (nodes !! e) -> s <> e ->
  (forall u nu, nodes !! u = Some nu -> e ∉ neighbors nu) ->
  findPath nodes s e = Null.
Proof.
  intros Hwf Hs He Hne Hiso.
  assert (Hun : ~ reachable nodes s e).
  { intros (p & c & Hr). inversion Hr as [|u v p' c' Hr' (nu & Hnu & Hv & _)]; subst.
    - contradiction.
    - exact (Hiso u nu Hnu Hv). }
  pose proof (findPath_post nodes s e (size nodes) ltac:(lia)) as Hpost.
  fold (findPath nodes s e) in Hpost.
  destruct (findPath nodes s e) as [p| | |]; try reflexivity.
  - exfalso. destruct Hpost as (_ & _ & p0 & c & Hr & _). apply Hun. now exists p0, c.
  - exfalso. tauto.
  - exfalso. simpl in Hpost. tauto.
Qed.

Lemma findPath_isolated_goal_witness : findPath emptyIdGraph "g" "" = Null.
Proof.
  apply findPath_isolated_goal.
  - apply wellFormedb_sound. reflexivity.
  - eexists. reflexivity.
  - eexists. reflexivity.
  - discriminate.
  - intros u nu Hu Hin.
    destruct (decide (u = "")) as [->|H1].
    + replace (emptyIdGraph !! "") with (Some (mkNode 0 0 ["g"])) in Hu by reflexivity.
      injection Hu as <-. simpl in Hin. set_solver.
    + destruct (decide (u = "g")) as [->|H2].
      * replace (emptyIdGraph !! "g") with (Some (mkNode 1 0 [])) in Hu by reflexivity.
        injection Hu as <-. simpl in Hin. set_solver.
      * unfold emptyIdGraph in Hu.
        rewrite !lookup_insert_ne, lookup_empty in Hu by congruence. discriminate.
Defined.

(** ** More on the Bidirectionality panel *)

(** *** Helpers *)

Lemma angleDiff_range (a b : R) : - PI <= angleDiff a b <= PI.
Proof. unfold angleDiff. apply wrapPi_spec. Qed.

(** X6: [angleDiff a b] is the signed shortest turn from [b] to [a]: it is
    within half a turn, [b] plus it is [a] up to whole turns, it is 0 for
    equal angles, and swapping the arguments flips its sign unless it is
    exactly half a turn. *)
Theorem angleDiff_spec (a b : R) :
  - PI <= angleDiff a b <= PI /\
  (exists k : Z, b + angleDiff a b = a + 2 * PI * IZR k) /\
  angleDiff a a = 0 /\
  (angleDiff a b <> PI -> angleDiff a b <> - PI -> angleDiff b a = - angleDiff a b).
Proof.
  unfold angleDiff.
  destruct (wrapPi_spec (a - b)) as [Hr [k Hk]].
  destruct (wrapPi_spec (b - a)) as [Hr' [k' Hk']].
  split; [assumption|]. split; [exists k; lra|]. split.
  - replace (a - a) with 0 by lra. apply wrapPi_0.
  - intros H1 H2. apply (turn_unique _ _ (k' + k)%Z); [assumption|lra|].
    rewrite plus_IZR. lra.
Qed.

Lemma angleDiff_spec_witness :
  - PI <= angleDiff 1 0 <= PI /\
  (exists k : Z, 0 + angleDiff 1 0 = 1 + 2 * PI * IZR k) /\
  angleDiff 1 1 = 0 /\
  angleDiff 0 1 = - angleDiff 1 0.
Proof.
  destruct (angleDiff_spec 1 0) as (H1 & H2 & _ & H4).
  destruct (angleDiff_spec 1 1) as (_ & _ & H3 & _).
  assert (Hv : angleDiff 1 0 = 1).
  { unfold angleDiff. replace (1 - 0) with 1 by lra. apply wrapPi_id.
    pose proof PI2_1. lra. }
  repeat split; try assumption; try apply H1.
  apply H4; rewrite Hv; pose proof PI2_1; lra.
Defined.

(** *** The robot *)

Lemma move_cases (r : pose) (tgt : point) (dt : R) :
  move r tgt dt = r \/
  exists th, - PI <= th <= PI /\
    move r tgt dt =
    mkPose (clamp (rx r + cos th * (SPEED * dt)) 10 (WORLD_W - 10))
           (clamp (ry r + sin th * (SPEED * dt)) 10 (WORLD_H - 10)) th.
Proof.
  unfold move. destruct (Rgt_dec _ 2.5); [|now left].
  right. eexists. split; [|reflexivity]. apply wrapPi_spec.
Qed.

Lemma move_inWorld (r : pose) (tgt : point) (dt : R) :
  inWorld r -> inWorld (move r tgt dt).
Proof.
  intros Hr. destruct (move_cases r tgt dt) as [->|(th & Hth & ->)]; [assumption|].
  unfold inWorld, WORLD_W, WORLD_H in *. simpl.
  split; [apply clamp_range; lra|]. split; [apply clamp_range; lra|assumption].
Qed.

Lemma START_inWorld : inWorld START.
Proof. unfold inWorld, START, WORLD_W, WORLD_H. simpl. pose proof PI_RGT_0. lra. Qed.

Lemma tick_robot_cases (st : sim) (dtMs : R) (d : draws) :
  robot (tick st dtMs d) = robot st \/
  robot (tick st dtMs d) = movedPose st dtMs \/
  robot (tick st dtMs d) = START.
Proof.
  destruct (running st) eqn:Hrun; [|left; now rewrite tick_paused].
  destruct (Rlt_dec 0 (dtMs / 1000)) as [Hlo|Hlo];
    [|left; rewrite tick_bad_dt; [reflexivity|lra]].
  destruct (Rle_dec (dtMs / 1000) 0.25) as [Hhi|Hhi];
    [|left; rewrite tick_bad_dt; [reflexivity|lra]].
  rewrite tick_frame by (split; [assumption|lra]).
  destruct (Rgt_dec _ 28); [right; right; reflexivity|right; left; reflexivity].
Qed.

(** X7: In every state the panel can reach, the robot is inside the walls
    (10 px from each edge of the 400 x 300 world) and its heading is
    wrapped to [−π, π]. *)
Theorem robot_stays_in_world
    (p : priorMode) (m : simMode) (rnd : R) (evs : list event) :
  inWorld (robot (run (reset p m rnd) evs)).
Proof.
  assert (H0 : inWorld (robot (reset p m rnd))) by apply START_inWorld.
  revert H0. generalize (reset p m rnd).
  induction evs as [|ev evs IH]; intros st Hst; simpl; [assumption|].
  apply IH. destruct ev as [dtMs d| | |p' m' rnd']; simpl; try assumption.
  - destruct (tick_robot_cases st dtMs d) as [-> | [-> | ->]].
    + assumption.
    + now apply move_inWorld.
    + apply START_inWorld.
  - apply START_inWorld.
Qed.

(** X8: One MOVE step: within 2.5 px of the target the pose is kept; otherwise
    the heading turns by at most [TURN_RATE * dt] (before wrapping) and the
    robot, if it was inside the walls, ends no further than [SPEED * dt]
    from where it was. *)
Theorem move_bounded (r : pose) (tgt : point) (dt : R) :
  inWorld r -> 0 <= dt ->
  (hypot (px tgt - rx r) (py tgt - ry r) <= 2.5 -> move r tgt dt = r) /\
  (exists step, Rabs step <= TURN_RATE * dt /\
                (move r tgt dt = r \/ theta (move r tgt dt) = wrapPi (theta r + step))) /\
  hypot (rx (move r tgt dt) - rx r) (ry (move r tgt dt) - ry r) <= SPEED * dt.
Proof.
  intros (Hx & Hy & Hth) Hdt. unfold WORLD_W, WORLD_H in *.
  assert (Hv : 0 <= SPEED * dt) by (unfold SPEED; lra).
  split; [|split].
  - intros Hnear. unfold move.
    destruct (Rgt_dec _ 2.5) as [H|_]; [unfold Rgt in H; lra|reflexivity].
  - unfold move. destruct (Rgt_dec _ 2.5) as [_|_].
    + eexists. split; [|right; reflexivity].
      assert (Hb : - TURN_RATE * dt <= TURN_RATE * dt) by (unfold TURN_RATE; lra).
      pose proof (clamp_range (angleDiff (atan2 (py tgt - ry r) (px tgt - rx r)) (theta r))
                    _ _ Hb) as Hc.
      apply Rabs_le. lra.
    + exists 0. split; [rewrite Rabs_R0; unfold TURN_RATE; lra|now left].
  - destruct (move_cases r tgt dt) as [->|(th & _ & ->)].
    + replace (rx r - rx r) with 0 by lra. replace (ry r - ry r) with 0 by lra.
      rewrite hypot_0. assumption.
    + simpl. unfold WORLD_W, WORLD_H.
      set (v := SPEED * dt) in *.
      pose proof (clamp_range (rx r + cos th * v) 10 (400 - 10) ltac:(lra)) as Hcx.
      pose proof (clamp_range (ry r + sin th * v) 10 (300 - 10) ltac:(lra)) as Hcy.
      (* clamping towards a point inside does not increase the distance *)
      assert (Hdx : Rabs (clamp (rx r + cos th * v) 10 (400 - 10) - rx r) <= Rabs (cos th * v)).
      { unfold clamp in *. unfold Rmax, Rmin in *.
        repeat destruct (Rle_dec _ _); unfold Rabs; repeat destruct (Rcase_abs _); lra. }
      assert (Hdy : Rabs (clamp (ry r + sin th * v) 10 (300 - 10) - ry r) <= Rabs (sin th * v)).
      { unfold clamp in *. unfold Rmax, Rmin in *.
        repeat destruct (Rle_dec _ _); unfold Rabs; repeat destruct (Rcase_abs _); lra. }
      set (ex := clamp (rx r + cos th * v) 10 (400 - 10) - rx r) in *.
      set (ey := clamp (ry r + sin th * v) 10 (300 - 10) - ry r) in *.
      unfold hypot. rewrite <- (sqrt_Rsqr v Hv). apply sqrt_le_1_alt.
      pose proof (sin2_cos2 th) as Hsc. unfold Rsqr in *.
      assert (Hx2 : ex * ex <= (cos th * v) * (cos th * v)).
      { apply Rsqr_le_abs_1 in Hdx. unfold Rsqr in Hdx. exact Hdx. }
      assert (Hy2 : ey * ey <= (sin th * v) * (sin th * v)).
      { apply Rsqr_le_abs_1 in Hdy. unfold Rsqr in Hdy. exact Hdy. }
      nra.
Qed.

Lemma move_bounded_witness :
  (hypot (px VANTAGE - rx START) (py VANTAGE - ry START) <= 2.5 ->
   move START VANTAGE 0.1 = START) /\
  (exists step, Rabs step <= TURN_RATE * 0.1 /\
     (move START VANTAGE 0.1 = START \/
      theta (move START VANTAGE 0.1) = wrapPi (theta START + step))) /\
  hypot (rx (move START VANTAGE 0.1) - rx START) (ry (move START VANTAGE 0.1) - ry START)
    <= SPEED * 0.1.
Proof.
  apply (move_bounded START VANTAGE 0.1); [apply START_inWorld|lra].
Defined.

(** *** The run clock and the sense timer *)

Lemma clock_step (st : sim) (ev : event) :
  0 <= senseTimer st <= elapsed st /\ elapsed st <= 28 ->
  0 <= senseTimer (step st ev) <= elapsed (step st ev) /\ elapsed (step st ev) <= 28.
Proof.
  intros H. destruct ev as [dtMs d| | |p m rnd]; simpl; try assumption; [|lra].
  destruct (running st) eqn:Hrun; [|now rewrite tick_paused].
  destruct (Rlt_dec 0 (dtMs / 1000)) as [Hlo|Hlo];
    [|rewrite tick_bad_dt; [assumption|lra]].
  destruct (Rle_dec (dtMs / 1000) 0.25) as [Hhi|Hhi];
    [|rewrite tick_bad_dt; [assumption|lra]].
  rewrite tick_frame by (split; [assumption|lra]).
  destruct (Rgt_dec _ 28) as [Hover|Hin]; [simpl; lra|].
  unfold savedBack. cbn [senseTimer elapsed].
  destruct (senses st dtMs); unfold Rgt in Hin; lra.
Qed.

(** X9: In every state the panel can reach the run clock is between 0 and
    28 s, and the sense timer is between 0 and the run clock. *)
Theorem run_clock_bounded
    (p : priorMode) (m : simMode) (rnd : R) (evs : list event) :
  let st := run (reset p m rnd) evs in
  0 <= senseTimer st <= elapsed st /\ elapsed st <= 28.
Proof.
  cbv zeta.
  assert (H0 : 0 <= senseTimer (reset p m rnd) <= elapsed (reset p m rnd)
               /\ elapsed (reset p m rnd) <= 28) by (simpl; lra).
  revert H0. generalize (reset p m rnd).
  induction evs as [|ev evs IH]; intros st Hst; simpl; [assumption|].
  apply IH. now apply clock_step.
Qed.

(** *** The stored measurement record *)

Lemma measure_wellFormed (r : pose) (n : R) :
  vantageDistance r <= V_SENSE_RADIUS -> wellFormedRecord (measure r n).
Proof.
  intros Hin. unfold wellFormedRecord.
  split; [|split; [|split; [|split; [|split; [|split]]]]].
  - unfold measure. cbn [inVantage].
    destruct (Rle_dec _ _) as [_|H]; [reflexivity|contradiction].
  - apply measure_sigma_range.
  - unfold measure. cbn [meas]. apply wrapPi_spec.
  - unfold measure. cbn [err1]. split; [apply Rabs_pos|].
    apply Rabs_le. apply angleDiff_range.
  - unfold measure. cbn [err2]. split; [apply Rabs_pos|].
    apply Rabs_le. apply angleDiff_range.
  - unfold measure. cbn [winner err1 err2].
    destruct (Rle_dec _ _) as [H|H]; split; intros H'; try assumption;
      try reflexivity; try discriminate; contradiction.
  - unfold measure. cbn [winner err1 err2].
    destruct (Rle_dec _ _) as [H|H]; split; intros H'; try reflexivity;
      try discriminate; lra.
Qed.

Lemma senses_inside (st : sim) (dtMs : R) :
  senses st dtMs = true ->
  mode st = BIDIR /\ vantageDistance (movedPose st dtMs) <= V_SENSE_RADIUS
  /\ SENSE_PERIOD <= senseTimer st + dtMs / 1000.
Proof.
  unfold senses, shouldSense. destruct (mode st); [|discriminate].
  destruct (Rge_dec _ SENSE_PERIOD) as [Ht|]; [|discriminate].
  destruct (Rle_dec _ V_SENSE_RADIUS); [|discriminate].
  intros _. repeat split; [assumption|lra].
Qed.

Lemma record_step (st : sim) (ev : event) :
  (forall mr, measRef st = Some mr -> mode st = BIDIR /\ wellFormedRecord mr) ->
  forall mr, measRef (step st ev) = Some mr ->
             mode (step st ev) = BIDIR /\ wellFormedRecord mr.
Proof.
  intros H mr. destruct ev as [dtMs d| | |p m rnd]; simpl; try apply H; [|discriminate].
  destruct (running st) eqn:Hrun; [|rewrite tick_paused by assumption; apply H].
  destruct (Rlt_dec 0 (dtMs / 1000)) as [Hlo|Hlo];
    [|rewrite tick_bad_dt; [apply H|lra]].
  destruct (Rle_dec (dtMs / 1000) 0.25) as [Hhi|Hhi];
    [|rewrite tick_bad_dt; [apply H|lra]].
  rewrite tick_frame by (split; [assumption|lra]).
  destruct (Rgt_dec _ 28) as [Hover|Hin]; [discriminate|].
  unfold savedBack. cbn [measRef mode].
  destruct (senses st dtMs) eqn:Hs.
  - intros [= <-]. apply senses_inside in Hs as (Hm & Hv & _).
    split; [assumption|now apply measure_wellFormed].
  - destruct (mode st) eqn:Hm.
    + intros Hmr. destruct (H mr Hmr) as [_ Hw]. now split.
    + destruct (measRef st); discriminate.
Qed.

(** X10: Whenever a measurement record is stored, the panel is in BIDIR mode
    and the record is the one of a measurement taken inside the sensing
    radius: its in-vantage flag is set, sigma is within [0.045, 0.20], the
    measured bearing is wrapped, both errors are within [0, π], and the
    winner label is H1 exactly when err1 <= err2. *)
Theorem stored_record_wellFormed
    (p : priorMode) (m : simMode) (rnd : R) (evs : list event) (mr : measInfo) :
  measRef (run (reset p m rnd) evs) = Some mr ->
  mode (run (reset p m rnd) evs) = BIDIR /\ wellFormedRecord mr.
Proof.
  assert (H0 : forall mr, measRef (reset p m rnd) = Some mr ->
                          mode (reset p m rnd) = BIDIR /\ wellFormedRecord mr)
    by discriminate.
  revert mr. revert H0. generalize (reset p m rnd).
  induction evs as [|ev evs IH]; intros st Hst; simpl; [assumption|].
  apply IH. now apply record_step.
Qed.

Lemma atTheGate_record (n : R) :
  measRef (tick atTheGate 250 (mkDraws n 0)) = Some (measure insidePose n).
Proof.
  rewrite tick_no_reset by (try exact atTheGate_frameRuns; exact atTheGate_elapsed).
  unfold savedBack. cbn [measRef].
  rewrite atTheGate_senses, atTheGate_movedPose. reflexivity.
Qed.

Lemma stored_record_wellFormed_witness :
  mode (run (reset WEAK BIDIR 0) (approach ++ [Tick 250 noDraw])) = BIDIR /\
  wellFormedRecord (measure insidePose 0).
Proof.
  apply (stored_record_wellFormed WEAK BIDIR 0 (approach ++ [Tick 250 noDraw])).
  rewrite run_app. exact (atTheGate_record 0).
Defined.

(** *** The policy *)

(** X11: The BIDIR policy on a normalised belief: it commits to L1 when w1 is
    above 0.7, to L2 when w1 is below 0.3, and heads for the vantage point
    when w1 is strictly between the two. *)
Theorem bidir_policy_thresholds (st : sim) (dt : R) :
  mode st = BIDIR -> normalised (belief st) ->
  (0.7 < fst (belief st) -> target (topDown st dt) = L1) /\
  (fst (belief st) < 0.3 -> target (topDown st dt) = L2) /\
  (0.3 < fst (belief st) < 0.7 -> target (topDown st dt) = VANTAGE).
Proof.
  intros Hm (Hsum & H1 & H2). unfold topDown, confident, CONF_THRESH. rewrite Hm.
  repeat split; intros Hw.
  - destruct (Rge_dec _ 0.40) as [_|Hc].
    + destruct (Rge_dec _ _) as [_|Hg]; [reflexivity|lra].
    + exfalso. apply Hc. rewrite Rabs_right; lra.
  - destruct (Rge_dec _ 0.40) as [_|Hc].
    + destruct (Rge_dec _ _) as [Hg|_]; [lra|reflexivity].
    + exfalso. apply Hc. rewrite Rabs_left; lra.
  - destruct (Rge_dec _ 0.40) as [Hc|_]; [|reflexivity].
    exfalso. unfold Rabs in Hc. destruct (Rcase_abs _); lra.
Qed.

Lemma bidir_policy_thresholds_witness : target (topDown atTheGate 0.25) = VANTAGE.
Proof.
  destruct (bidir_policy_thresholds atTheGate 0.25) as (_ & _ & H).
  - now destruct atTheGate_cruising as (_ & -> & _).
  - exact atTheGate_normalised.
  - apply H. destruct atTheGate_cruising as (_ & _ & _ & -> & _). simpl. lra.
Defined.

Lemma dithering_step (st : sim) (ev : event) :
  dithering st -> sameConfig WEAK STUBBORN ev -> dithering (step st ev).
Proof.
  intros Hd Hev. destruct ev as [dtMs d| | |p m rnd]; simpl; try assumption.
  - destruct (running st) eqn:Hrun; [|now rewrite tick_paused].
    destruct (Rlt_dec 0 (dtMs / 1000)) as [Hlo|Hlo];
      [|rewrite tick_bad_dt; [assumption|lra]].
    destruct (Rle_dec (dtMs / 1000) 0.25) as [Hhi|Hhi];
      [|rewrite tick_bad_dt; [assumption|lra]].
    rewrite tick_frame by (split; [assumption|lra]).
    destruct Hd as (Hp & Hm & Hside & Ht & Hb & Hmeas).
    unfold STUB_DITHER_PERIOD in *.
    destruct (Rgt_dec _ 28) as [Hover|Hin].
    + unfold dithering, reset, STUB_DITHER_PERIOD. cbn. rewrite Hp, Hm.
      repeat split; try reflexivity; try lra.
      destruct (Rlt_dec _ 0.5); [now left|now right].
    + assert (Hns : senses st dtMs = false).
      { unfold senses, shouldSense. now rewrite Hm. }
      unfold dithering, savedBack.
      cbn [prior mode stubSide stubTimer belief measRef]. rewrite Hns, Hm, Hmeas.
      unfold topDown. rewrite Hm, Hp. cbn [stubTimer' stubSide'].
      unfold STUB_DITHER_PERIOD.
      destruct (Rgt_dec (stubTimer st + dtMs / 1000) 1.6) as [Hf|Hf].
      * repeat split; try assumption; try reflexivity; try lra.
        destruct Hside as [-> | ->]; [now right|now left].
      * unfold Rgt in Hf. repeat split; try assumption; try reflexivity; lra.
  - destruct Hev as [-> ->]. unfold dithering, reset, STUB_DITHER_PERIOD. cbn.
    repeat split; try reflexivity; try lra.
    destruct (Rlt_dec _ 0.5); [now left|now right].
Qed.

(** X12: STUBBORN mode under the weak prior: as long as the configuration is
    kept, the dither side is 0 or 1, the dither timer stays within
    [0, 1.6] s, the belief stays at [0.5, 0.5], no measurement record is
    stored, and the target of the next frame is L1 or L2, never the
    vantage point. *)
Theorem stubborn_weak_dithers (rnd : R) (evs : list event) (dt : R) :
  Forall (sameConfig WEAK STUBBORN) evs ->
  let st := run (reset WEAK STUBBORN rnd) evs in
  dithering st /\
  (target (topDown st dt) = L1 \/ target (topDown st dt) = L2).
Proof.
  intros Hevs. cbv zeta.
  assert (Hd : dithering (run (reset WEAK STUBBORN rnd) evs)).
  { assert (H0 : dithering (reset WEAK STUBBORN rnd)).
    { unfold dithering, reset, STUB_DITHER_PERIOD. cbn.
      repeat split; try reflexivity; try lra.
      destruct (Rlt_dec _ 0.5); [now left|now right]. }
    revert H0. generalize (reset WEAK STUBBORN rnd).
    induction Hevs as [|ev evs Hev _ IH]; intros st Hst; simpl; [assumption|].
    apply IH. now apply dithering_step. }
  split; [assumption|].
  destruct Hd as (Hp & Hm & Hside & _).
  unfold topDown. rewrite Hm, Hp. cbn [target].
  destruct (Rgt_dec _ _); destruct Hside as [-> | ->]; simpl; auto.
Qed.

Lemma stubborn_weak_dithers_witness :
  let st := run (reset WEAK STUBBORN 0) [Start; Tick 250 noDraw; Pause] in
  dithering st /\
  (target (topDown st 0.25) = L1 \/ target (topDown st 0.25) = L2).
Proof.
  apply (stubborn_weak_dithers 0 [Start; Tick 250 noDraw; Pause] 0.25).
  repeat constructor.
Defined.

(** *** The belief update *)

(** X13: The update is Bayes' rule with tempered likelihoods: when it is taken,
    the posterior odds are the prior odds times the ratio of the tempered
    likelihoods (written without division); and a measurement that fits
    both hypotheses equally well leaves a normalised belief as it is. *)
Theorem updateBelief_bayes (b : R * R) (m : measInfo) :
  normalised b ->
  let p1 := tempered (likelihood (err1 m) (sigma m)) in
  let p2 := tempered (likelihood (err2 m) (sigma m)) in
  (likelihoodSum b m > 1e-9 ->
   fst (updateBelief b m) * (snd b * p2) = snd (updateBelief b m) * (fst b * p1)) /\
  (err1 m = err2 m -> updateBelief b m = b).
Proof.
  intros (Hsum & H1 & H2) p1 p2. split.
  - intros Hs. unfold updateBelief. fold (likelihoodSum b m).
    destruct (Rgt_dec (likelihoodSum b m) 1e-9) as [_|H]; [|contradiction].
    cbn [fst snd]. fold p1 p2. unfold Rgt in Hs.
    assert (Hnz : likelihoodSum b m <> 0) by lra.
    field. exact Hnz.
  - intros He. unfold updateBelief. rewrite He.
    set (p := tempered (likelihood (err2 m) (sigma m))).
    assert (Hp : 0 < p) by apply tempered_pos.
    destruct (Rgt_dec _ 1e-9) as [_|_]; [|reflexivity].
    destruct b as [w1 w2]. cbn [fst snd] in *.
    replace (w1 * p + w2 * p) with p by nra.
    f_equal; field; lra.
Qed.

Lemma updateBelief_bayes_witness :
  let b := (0.5, 0.5) in
  let m := measure insidePose 0 in
  fst (updateBelief b m) * (snd b * tempered (likelihood (err2 m) (sigma m)))
  = snd (updateBelief b m) * (fst b * tempered (likelihood (err1 m) (sigma m))).
Proof.
  assert (Hn : normalised (0.5, 0.5)) by (unfold normalised; simpl; lra).
  destruct (updateBelief_bayes (0.5, 0.5) (measure insidePose 0) Hn) as [H _].
  apply H. now apply insidePose_noiseless.
Defined.

(** *** The sensing period *)

Lemma quiet_senseTimer (frames : list (R * draws)) : forall st,
  quietFrames st frames ->
  senseTimer (runFrames st frames) = senseTimer st + framesTime frames.
Proof.
  induction frames as [|[dtMs d] rest IH]; intros st Hq; simpl.
  - unfold runFrames, framesTime. simpl. lra.
  - destruct Hq as (Hf & Hns & Hel & Hrest).
    unfold runFrames, framesTime in *. simpl.
    rewrite (IH _ Hrest).
    rewrite tick_no_reset by assumption.
    unfold savedBack. cbn [senseTimer]. rewrite Hns. lra.
Qed.

Lemma sensing_frame_zeroes_timer (st : sim) (dtMs : R) (d : draws) :
  frameRuns st dtMs -> senses st dtMs = true -> senseTimer (tick st dtMs d) = 0.
Proof.
  intros Hf Hs. rewrite tick_frame by assumption.
  destruct (Rgt_dec _ 28); [reflexivity|].
  unfold savedBack. cbn [senseTimer]. now rewrite Hs.
Qed.

(** X14: Two measurements of one run are at least SENSE_PERIOD = 0.35 s of
    simulated time apart: after a frame that senses, if the frames that
    follow do not sense, a frame that senses again comes no sooner than
    0.35 s later. *)
Theorem sensing_frames_spaced
    (st0 : sim) (dt0 : R) (d0 : draws) (frames : list (R * draws)) (dtMs : R) :
  frameRuns st0 dt0 -> senses st0 dt0 = true ->
  let st := tick st0 dt0 d0 in
  quietFrames st frames ->
  senses (runFrames st frames) dtMs = true ->
  SENSE_PERIOD <= framesTime frames + dtMs / 1000.
Proof.
  intros Hf Hs st Hq Hs'.
  apply senses_inside in Hs' as (_ & _ & Ht).
  rewrite (quiet_senseTimer _ _ Hq) in Ht.
  unfold st in Ht. rewrite (sensing_frame_zeroes_timer _ _ _ Hf Hs) in Ht. lra.
Qed.

Lemma undecided_frame (st : sim) (x tm el : R) (d : draws) :
  undecidedAt st x tm el -> 10 <= x + 22.5 -> x + 22.5 < 197.5 -> el <= 20 ->
  frameRuns st 250 /\ movedPose st 250 = mkPose (x + 22.5) 150 0 /\
  elapsed st + 250 / 1000 <= 28 /\
  senses st 250
  = (if Rge_dec (tm + 250 / 1000) SENSE_PERIOD then true else false)
    && (if Rle_dec (200 - (x + 22.5)) V_SENSE_RADIUS then true else false).
Proof.
  intros (Hr & Hm & Hb & Hrob & Hst & Hel) Hlo Hhi Hel20.
  assert (Hmv : movedPose st 250 = mkPose (x + 22.5) 150 0).
  { unfold movedPose.
    rewrite undecided_targets_vantage by assumption. cbn [target].
    rewrite Hrob, move_cruise by lra. f_equal. lra. }
  split; [split; [assumption|lra]|]. split; [assumption|]. split; [lra|].
  unfold senses, shouldSense. rewrite Hmv, Hm, Hst.
  rewrite vantageDistance_on_axis by lra. reflexivity.
Qed.

Lemma afterOutlier_undecided : undecidedAt afterOutlier 150 0 1.
Proof.
  unfold afterOutlier.
  rewrite tick_no_reset by (try exact atTheGate_frameRuns; exact atTheGate_elapsed).
  unfold undecidedAt, savedBack. cbn [running mode belief robot senseTimer elapsed].
  rewrite atTheGate_senses, atTheGate_movedPose.
  destruct atTheGate_cruising as (_ & Hm & _ & Hb & _ & _ & Hel & _).
  rewrite Hm, Hel. repeat split; try reflexivity; try lra.
  rewrite updateBelief_skip; [assumption|].
  pose proof (insidePose_degenerate (belief atTheGate) atTheGate_normalised) as Hd.
  cbn [randn]. fold insidePose. unfold Rgt. lra.
Qed.

Lemma afterOutlier_quiet_frame :
  quietFrames afterOutlier [(250, noDraw)] /\
  undecidedAt (tick afterOutlier 250 noDraw) 172.5 0.25 1.25.
Proof.
  pose proof afterOutlier_undecided as Hu.
  destruct (undecided_frame _ _ _ _ noDraw Hu ltac:(lra) ltac:(lra) ltac:(lra))
    as (Hf & Hmv & Hel & Hs).
  assert (Hns : senses afterOutlier 250 = false).
  { rewrite Hs. destruct (Rge_dec _ SENSE_PERIOD) as [H|_];
      [unfold SENSE_PERIOD in H; lra|reflexivity]. }
  split; [simpl; repeat split; try assumption; apply Hf|].
  rewrite tick_no_reset by assumption.
  destruct Hu as (Hr & Hm & Hb & Hrob & Hst & Hel').
  unfold undecidedAt, savedBack. cbn [running mode belief robot senseTimer elapsed].
  rewrite Hns, Hmv, Hst, Hel'.
  repeat split; try assumption; try (f_equal; lra); lra.
Qed.

Lemma sensing_frames_spaced_witness :
  SENSE_PERIOD <= framesTime [(250, noDraw)] + 250 / 1000.
Proof.
  apply (sensing_frames_spaced atTheGate 250 (mkDraws 8 0) [(250, noDraw)] 250).
  - exact atTheGate_frameRuns.
  - exact atTheGate_senses.
  - exact (proj1 afterOutlier_quiet_frame).
  - fold afterOutlier. unfold runFrames. cbn [fold_left fst snd].
    destruct (undecided_frame _ _ _ _ noDraw (proj2 afterOutlier_quiet_frame)
                ltac:(lra) ltac:(lra) ltac:(lra)) as (_ & _ & _ & ->).
    destruct (Rge_dec _ SENSE_PERIOD) as [_|H]; [|unfold SENSE_PERIOD in H; lra].
    destruct (Rle_dec _ V_SENSE_RADIUS) as [_|H]; [|unfold V_SENSE_RADIUS in H; lra].
    reflexivity.
Defined.

(** ** More on the demo sequencer *)

(** X15: The unit guess of the loop, [dtRaw > 1 ? dtRaw / 1000 : dtRaw] clamped
    to [0, 0.05]: a frame time of more than 1 and at most 50 is read as
    milliseconds, one of at most 0.05 as seconds; everything else is cut to
    50 ms (so a frame time between 0.05 and 1, milliseconds included, counts
    as 50 ms), and a negative one to 0. *)
Theorem effectiveDt_units (dtRaw : R) :
  (1 < dtRaw <= 50 -> effectiveDt dtRaw = dtRaw / 1000) /\
  (0 <= dtRaw <= 0.05 -> effectiveDt dtRaw = dtRaw) /\
  (0.05 <= dtRaw <= 1 -> effectiveDt dtRaw = 0.05) /\
  (50 <= dtRaw -> effectiveDt dtRaw = 0.05) /\
  (dtRaw <= 0 -> effectiveDt dtRaw = 0).
Proof.
  unfold effectiveDt. repeat split; intros H.
  - destruct (Rgt_dec dtRaw 1) as [_|Hn]; [|unfold Rgt in Hn; lra].
    apply clamp_id. lra.
  - destruct (Rgt_dec dtRaw 1) as [Hg|_]; [unfold Rgt in Hg; lra|].
    apply clamp_id. lra.
  - destruct (Rgt_dec dtRaw 1) as [Hg|_]; [unfold Rgt in Hg; lra|].
    apply clamp_high; lra.
  - destruct (Rgt_dec dtRaw 1) as [_|Hn]; [|unfold Rgt in Hn; lra].
    apply clamp_high; lra.
  - destruct (Rgt_dec dtRaw 1) as [Hg|_]; [unfold Rgt in Hg; lra|].
    unfold clamp. rewrite Rmin_right by lra. apply Rmax_left. lra.
Qed.

Lemma effectiveDt_units_witness :
  effectiveDt 16 = 16 / 1000 /\ effectiveDt 0.5 = 0.05.
Proof.
  destruct (effectiveDt_units 16) as (H1 & _).
  destruct (effectiveDt_units 0.5) as (_ & _ & H3 & _).
  split; [apply H1; lra|apply H3; lra].
Defined.

Lemma timeline_step (seq : list phase) (c : seqCursor) (dtRaw : R) (cur : phase) :
  seq !! idx c = Some cur -> 0 <= t c ->
  Forall (fun p => 0 <= duration p) seq ->
  exists c' r cur',
    manageDemoTimeline seq c dtRaw = Some (c', r) /\
    seq !! idx c' = Some cur' /\ 0 <= t c' <= duration cur'.
Proof.
  intros Hcur Ht Hdur. unfold manageDemoTimeline. rewrite Hcur. simpl.
  pose proof (effectiveDt_range dtRaw) as Hdt.
  destruct (Rgt_dec _ (duration cur)) as [Hg|Hn].
  - assert (Hlen : (length seq <> 0)%nat).
    { apply lookup_lt_Some in Hcur. lia. }
    destruct (lookup_lt_is_Some_2 seq ((idx c + 1) mod length seq)) as [nxt Hnxt];
      [now apply Nat.mod_upper_bound|].
    rewrite Hnxt. simpl. exists (mkCursor ((idx c + 1) mod length seq) 0), (resetOnEnter nxt), nxt.
    split; [reflexivity|]. split; [assumption|]. simpl.
    rewrite Forall_forall in Hdur. specialize (Hdur nxt).
    split; [lra|]. apply Hdur. eapply list_elem_of_lookup_2, Hnxt.
  - exists (mkCursor (idx c) (t c + effectiveDt dtRaw)), false, cur.
    split; [reflexivity|]. split; [assumption|]. simpl. unfold Rgt in Hn. lra.
Qed.

(** X16: The sequencer never reads past its script: from the start of a
    non-empty sequence whose durations are not negative, after any series
    of frames the cursor is on a phase of the sequence and the time in the
    phase is between 0 and the phase's duration. *)
Theorem timeline_cursor_in_range (seq : list phase) (dts : list R) :
  seq <> [] -> Forall (fun p => 0 <= duration p) seq ->
  exists c cur,
    runTimeline seq (mkCursor 0 0) dts = Some c /\
    seq !! idx c = Some cur /\ 0 <= t c <= duration cur.
Proof.
  intros Hne Hdur.
  assert (H0 : exists cur, seq !! idx (mkCursor 0 0) = Some cur
                           /\ 0 <= t (mkCursor 0 0) <= duration cur).
  { destruct seq as [|p ps]; [contradiction|]. exists p. simpl.
    split; [reflexivity|]. inversion Hdur; subst. lra. }
  revert H0. generalize (mkCursor 0 0).
  induction dts as [|d dts IH]; intros c (cur & Hcur & Ht); simpl.
  - now exists c, cur.
  - destruct (timeline_step seq c d cur Hcur ltac:(lra) Hdur)
      as (c' & r & cur' & -> & Hcur' & Ht').
    apply IH. now exists cur'.
Qed.

Lemma timeline_cursor_in_range_witness :
  exists c cur,
    runTimeline DEMO_SEQUENCE (mkCursor 0 0) [16; 16; 0.05; 2000] = Some c /\
    DEMO_SEQUENCE !! idx c = Some cur /\ 0 <= t c <= duration cur.
Proof.
  apply (timeline_cursor_in_range DEMO_SEQUENCE [16; 16; 0.05; 2000]).
  - discriminate.
  - unfold DEMO_SEQUENCE. repeat constructor; simpl; lra.
Defined.

(** ** Level 2 auto-play panel: the physics *)

Section Level2Physics.

Import Level2.

Lemma moveAgent_inBounds (a : pose) (desired speed dt : R) :
  inBounds (moveAgent a desired speed dt).
Proof.
  unfold inBounds, moveAgent, MARGIN, WORLD_W, WORLD_H. cbn [rx ry theta].
  split; [apply clamp_range; lra|]. split; [apply clamp_range; lra|].
  apply wrapPi_spec.
Qed.

Lemma resetSim_inBounds (s : simState) : inBounds (agent (resetSim s)).
Proof.
  unfold inBounds, resetSim, HOME, MARGIN, WORLD_W, WORLD_H. simpl.
  pose proof PI_RGT_0. lra.
Qed.

Lemma resetSim_tidy (s : simState) :
  (foodIdx s < length (foods s))%nat -> tidy (resetSim s).
Proof.
  intros Hf. unfold tidy, resetSim, TRAIL_MAX. simpl.
  repeat split; try lia; lra.
Qed.

Lemma pushTrail_length (tr : list point) (p : point) :
  (length tr <= TRAIL_MAX)%nat ->
  length (pushTrail tr p) = Nat.min (S (length tr)) TRAIL_MAX.
Proof.
  intros Hle. unfold pushTrail.
  assert (Hl : length (tr ++ [p]) = S (length tr)).
  { rewrite length_app. simpl. lia. }
  rewrite Hl. destruct (Nat.ltb_spec TRAIL_MAX (S (length tr))) as [H|H].
  - destruct tr as [|q tr]; cbn [app tail length] in *; [unfold TRAIL_MAX in H; lia|].
    rewrite length_app. cbn [length]. lia.
  - rewrite Hl. lia.
Qed.

Lemma outbound_Some (s : simState) (n : noise) :
  (foodIdx s < length (foods s))%nat ->
  exists i a, outbound s n = Some (i, a) /\ (i < length (foods s))%nat.
Proof.
  intros Hf. unfold outbound.
  destruct (lookup_lt_is_Some_2 _ _ Hf) as [tg ->]. simpl.
  eexists _, _. split; [reflexivity|].
  destruct (Rlt_dec _ 18); [|assumption].
  apply Nat.mod_upper_bound. lia.
Qed.

(** What one physics step leaves in each field, when the food lookup
    succeeds. *)
Lemma physics_Some (curStep : phase) (s : simState) (dt : R) (n : noise) :
  (foodIdx s < length (foods s))%nat ->
  exists out, physics curStep s dt n
    = Some (let ret :=
              if String.eqb (phaseKind curStep) "RETURN"
              then homing (phaseMode curStep) s (snd out)
              else (snd out, lmLocked s, odo s) in
            let locked := snd (fst ret) in
            let odo1 := snd ret in
            let a := agent s in
            let desired := wallAvoid a (fst (fst ret)) in
            let a1 := moveAgent a desired (speedNow curStep locked a) dt in
            let drift1 := driftStep (drift s) dt n in
            let odo2 :=
              mkPoint (px odo1 + (rx a1 - rx a + bx drift1 * dt * noiseScale curStep))
                      (py odo1 + (ry a1 - ry a + by_ drift1 * dt * noiseScale curStep)) in
            let acc := trailAcc s + dt in
            let sample := if Rge_dec acc TRAIL_SAMPLE_DT then true else false in
            {| agent := a1; odo := odo2;
               trail := if sample then pushTrail (trail s) (mkPoint (rx a1) (ry a1))
                        else trail s;
               odoTrail := if sample
                           then pushTrail (odoTrail s)
                                  (mkPoint (px HOME + px odo2) (py HOME + py odo2))
                           else odoTrail s;
               drift := drift1; lmLocked := locked; foodIdx := fst out;
               foods := foods s; trailAcc := if sample then 0 else acc;
               desiredAngle := desired;
               homeBearing := atan2 (py HOME - ry a) (px HOME - rx a) |})
    /\ (fst out < length (foods s))%nat
    /\ (String.eqb (phaseKind curStep) "OUTBOUND" = false -> snd out = theta (agent s)).
Proof.
  intros Hf. unfold physics.
  destruct (String.eqb (phaseKind curStep) "OUTBOUND") eqn:Hk.
  - destruct (outbound_Some s n Hf) as (i & a & -> & Hi).
    exists (i, a). split; [reflexivity|]. split; [assumption|discriminate].
  - exists (foodIdx s, theta (agent s)). split; [reflexivity|]. split; [assumption|reflexivity].
Qed.

Lemma physics_inv (curStep : phase) (s : simState) (dt : R) (n : noise) :
  0 <= dt -> tidy s ->
  exists s', physics curStep s dt n = Some s' /\
             inBounds (agent s') /\ tidy s' /\ foods s' = foods s.
Proof.
  intros Hdt (Hlen & Hmax & Hf & Hacc).
  destruct (physics_Some curStep s dt n Hf) as (out & -> & Hout & _).
  eexists. split; [reflexivity|]. cbv zeta. cbn [agent].
  split; [apply moveAgent_inBounds|]. split; [|reflexivity].
  unfold tidy. cbn [trail odoTrail foodIdx foods trailAcc].
  destruct (Rge_dec _ TRAIL_SAMPLE_DT).
  - rewrite !pushTrail_length by lia. repeat split; try lia; try assumption; lra.
  - repeat split; try assumption; lra.
Qed.

Lemma frame_inv (seq : list phase) (w : refs) (dtRaw : R) (n : noise) :
  (idx (seqRef w) < length seq)%nat -> tidy (stateRef w) ->
  inBounds (agent (stateRef w)) ->
  exists w', frame seq w dtRaw n = Some w' /\
             (idx (seqRef w') < length seq)%nat /\ tidy (stateRef w') /\
             inBounds (agent (stateRef w')) /\
             foods (stateRef w') = foods (stateRef w).
Proof.
  intros Hidx Htidy Hin. unfold frame, manageDemoTimeline.
  destruct (lookup_lt_is_Some_2 _ _ Hidx) as [cur Hcur]. rewrite Hcur. simpl.
  assert (Hlen : (length seq <> 0)%nat) by lia.
  assert (Hnext : ((idx (seqRef w) + 1) mod length seq < length seq)%nat)
    by now apply Nat.mod_upper_bound.
  pose proof (effectiveDt_range dtRaw) as [Hdt _].
  assert (Hgo : forall c s0 curStep,
             seq !! idx c = Some curStep -> (idx c < length seq)%nat ->
             tidy s0 -> inBounds (agent s0) ->
             exists w', (curStep' ← seq !! idx c;
                         if paused curStep' then Some (mkRefs c s0)
                         else s1 ← physics curStep' s0 (effectiveDt dtRaw) n;
                              Some (mkRefs c s1)) = Some w' /\
                        (idx (seqRef w') < length seq)%nat /\ tidy (stateRef w') /\
                        inBounds (agent (stateRef w')) /\
                        foods (stateRef w') = foods s0).
  { intros c s0 curStep Hc Hi Ht Hb. rewrite Hc. simpl.
    destruct (paused curStep).
    - eexists. split; [reflexivity|]. cbn [seqRef stateRef]. auto.
    - destruct (physics_inv curStep s0 _ n Hdt Ht) as (s1 & -> & Hb1 & Ht1 & Hfo).
      simpl. eexists. split; [reflexivity|]. cbn [seqRef stateRef]. auto. }
  destruct (Rgt_dec _ (duration cur)).
  - destruct (lookup_lt_is_Some_2 _ _ Hnext) as [nxt Hnxt]. rewrite Hnxt. simpl.
    destruct (resetOnEnter nxt).
    + destruct (Hgo (mkCursor _ 0) (resetSim (stateRef w)) nxt Hnxt Hnext)
        as (w' & Hw' & H1 & H2 & H3 & H4).
      * apply resetSim_tidy, Htidy.
      * apply resetSim_inBounds.
      * exists w'. auto.
    + now apply (Hgo (mkCursor _ 0) _ nxt Hnxt Hnext).
  - now apply (Hgo (mkCursor (idx (seqRef w)) _) _ cur Hcur Hidx).
Qed.

Lemma runFrames_inv (seq : list phase) (fs : list (R * noise)) : forall w,
  (idx (seqRef w) < length seq)%nat -> tidy (stateRef w) ->
  inBounds (agent (stateRef w)) ->
  exists w', runFrames seq w fs = Some w' /\
             (idx (seqRef w') < length seq)%nat /\ tidy (stateRef w') /\
             inBounds (agent (stateRef w')) /\
             foods (stateRef w') = foods (stateRef w).
Proof.
  induction fs as [|[dtRaw n] fs IH]; intros w Hidx Htidy Hin; simpl.
  - now exists w.
  - destruct (frame_inv seq w dtRaw n Hidx Htidy Hin) as (w1 & -> & H1 & H2 & H3 & H4).
    rewrite <- H4. now apply IH.
Qed.

Lemma mounted_ok (p : point) (ps : list point) :
  tidy (mounted (p :: ps)) /\ inBounds (agent (mounted (p :: ps))).
Proof.
  split; [apply resetSim_tidy; simpl; lia|apply resetSim_inBounds].
Qed.

(** X17: With at least one food location and a non-empty script, the loop of
    the Level 2 panel never throws: every series of frames from the mounted
    panel gives new refs, with the cursor on a phase of the script and the
    agent inside the margins, its heading wrapped to [−π, π]. *)
Theorem level2_loop_never_throws
    (seq : list phase) (p : point) (ps : list point) (fs : list (R * noise)) :
  seq <> [] ->
  exists w', runFrames seq (mkRefs (mkCursor 0 0) (mounted (p :: ps))) fs = Some w' /\
             (idx (seqRef w') < length seq)%nat /\
             inBounds (agent (stateRef w')).
Proof.
  intros Hne.
  destruct (mounted_ok p ps) as [Ht Hb].
  destruct (runFrames_inv seq fs (mkRefs (mkCursor 0 0) (mounted (p :: ps))))
    as (w' & Hrun & Hidx & _ & Hin & _); try assumption.
  - simpl. destruct seq; [contradiction|simpl; lia].
  - now exists w'.
Qed.

Lemma level2_loop_never_throws_witness :
  exists w', runFrames DEMO_SEQUENCE
               (mkRefs (mkCursor 0 0) (mounted [mkPoint 100 100]))
               [(16, mkNoise 0 0 0); (16, mkNoise 1 0 0)] = Some w' /\
             (idx (seqRef w') < length DEMO_SEQUENCE)%nat /\
             inBounds (agent (stateRef w')).
Proof.
  apply (level2_loop_never_throws DEMO_SEQUENCE (mkPoint 100 100) []
           [(16, mkNoise 0 0 0); (16, mkNoise 1 0 0)]).
  discriminate.
Defined.

(** X18: The trails stay bounded and in step: after any series of frames the
    real trail and the odometry trail have the same length, at most
    TRAIL_MAX = 900 points, the food cursor is an index of the food list,
    and the food list is the one the panel started with. *)
Theorem level2_trails_bounded
    (seq : list phase) (p : point) (ps : list point) (fs : list (R * noise)) :
  seq <> [] ->
  exists w', runFrames seq (mkRefs (mkCursor 0 0) (mounted (p :: ps))) fs = Some w' /\
    let s := stateRef w' in
    length (trail s) = length (odoTrail s) /\
    (length (trail s) <= TRAIL_MAX)%nat /\
    (foodIdx s < length (foods s))%nat /\
    foods s = p :: ps.
Proof.
  intros Hne.
  destruct (mounted_ok p ps) as [Ht Hb].
  destruct (runFrames_inv seq fs (mkRefs (mkCursor 0 0) (mounted (p :: ps))))
    as (w' & Hrun & _ & (H1 & H2 & H3 & _) & _ & Hfo); try assumption.
  - simpl. destruct seq; [contradiction|simpl; lia].
  - exists w'. split; [assumption|]. cbv zeta. now repeat split.
Qed.

Lemma level2_trails_bounded_witness :
  exists w', runFrames DEMO_SEQUENCE
               (mkRefs (mkCursor 0 0) (mounted [mkPoint 100 100]))
               [(16, mkNoise 0 0 0); (16, mkNoise 1 0 0)] = Some w' /\
    let s := stateRef w' in
    length (trail s) = length (odoTrail s) /\
    (length (trail s) <= TRAIL_MAX)%nat /\
    (foodIdx s < length (foods s))%nat /\
    foods s = [mkPoint 100 100].
Proof.
  apply (level2_trails_bounded DEMO_SEQUENCE (mkPoint 100 100) []
           [(16, mkNoise 0 0 0); (16, mkNoise 1 0 0)]).
  discriminate.
Defined.

(** X19: A physics step throws exactly when the phase is OUTBOUND and the food
    cursor does not point at a food (as with the empty food list the refs
    start with). *)
Theorem physics_throws_iff (curStep : phase) (s : simState) (dt : R) (n : noise) :
  physics curStep s dt n = None <->
  phaseKind curStep = "OUTBOUND" /\ foods s !! foodIdx s = None.
Proof.
  unfold physics. destruct (String.eqb_spec (phaseKind curStep) "OUTBOUND") as [Hk|Hk].
  - unfold outbound. destruct (foods s !! foodIdx s) as [tg|]; simpl.
    + split; [discriminate|]. intros [_ H]. discriminate.
    + split; [now intros _|reflexivity].
  - simpl. split; [discriminate|]. intros [H _]. contradiction.
Qed.

Lemma COM_RET_fields (d : R) :
  let step := mkPhase "COM_RET" d "RETURN" "COMPASS" false false in
  String.eqb (phaseKind step) "OUTBOUND" = false /\
  String.eqb (phaseKind step) "RETURN" = true /\
  String.eqb (phaseMode step) "COMPASS" = true.
Proof. now repeat split. Qed.

(** X20: In a COMPASS phase the odometry is exact: if the believed position
    [HOME + odo] is the real position before a physics step, it is after
    it, whatever the drift samples. *)
Theorem compass_odometry_exact (curStep : phase) (s : simState) (dt : R) (n : noise) :
  phaseMode curStep = "COMPASS" ->
  (foodIdx s < length (foods s))%nat ->
  odometryExact s ->
  exists s', physics curStep s dt n = Some s' /\ odometryExact s'.
Proof.
  intros Hm Hf [Hx Hy].
  destruct (physics_Some curStep s dt n Hf) as (out & -> & _ & _).
  eexists. split; [reflexivity|]. cbv zeta.
  assert (Hns : noiseScale curStep = 0).
  { unfold noiseScale. now rewrite Hm. }
  assert (Hodo : snd (if String.eqb (phaseKind curStep) "RETURN"
                      then homing (phaseMode curStep) s (snd out)
                      else (snd out, lmLocked s, odo s)) = odo s).
  { destruct (String.eqb _ "RETURN"); [|reflexivity].
    unfold homing. now rewrite Hm. }
  unfold odometryExact. cbn [agent odo px py]. rewrite Hns, Hodo. lra.
Qed.

Lemma compass_odometry_exact_witness :
  exists s', physics (mkPhase "COM_RET" 6.2 "RETURN" "COMPASS" false false)
               (resetSim (initialState [mkPoint 100 100])) 0.016 (mkNoise 0 1 1) = Some s'
             /\ odometryExact s'.
Proof.
  apply (compass_odometry_exact (mkPhase "COM_RET" 6.2 "RETURN" "COMPASS" false false)
           (resetSim (initialState [mkPoint 100 100])) 0.016 (mkNoise 0 1 1)).
  - reflexivity.
  - simpl. lia.
  - unfold odometryExact. simpl. lra.
Defined.

(** X21: The landmark lock, in a RETURN phase of LANDMARK mode: once locked,
    the lock stays; an unlocked agent locks exactly when it is less than
    LANDMARK_LOCK_R + 6 = 24 from the landmark, and on that frame the
    believed position is re-anchored, so that after the step it differs
    from the real one by this frame's drift only; otherwise the odometry
    adds the step and the drift. *)
Theorem landmark_lock_reanchors (curStep : phase) (s : simState) (dt : R) (n : noise) :
  phaseKind curStep = "RETURN" -> phaseMode curStep = "LANDMARK" ->
  exists s', physics curStep s dt n = Some s' /\
    let dLm := hypot (rx (agent s) - px LANDMARK) (ry (agent s) - py LANDMARK) in
    (lmLocked s = true -> lmLocked s' = true) /\
    (lmLocked s = false -> dLm < 24 ->
     lmLocked s' = true /\
     px HOME + px (odo s') = rx (agent s') + bx (drift s') * dt /\
     py HOME + py (odo s') = ry (agent s') + by_ (drift s') * dt) /\
    (lmLocked s = false -> 24 <= dLm ->
     lmLocked s' = false /\
     px (odo s') = px (odo s) + (rx (agent s') - rx (agent s)) + bx (drift s') * dt /\
     py (odo s') = py (odo s) + (ry (agent s') - ry (agent s)) + by_ (drift s') * dt).
Proof.
  intros Hk Hm. unfold physics. rewrite Hk, Hm. simpl String.eqb. cbv iota.
  simpl mbind. eexists. split; [reflexivity|]. cbv zeta.
  cbn [lmLocked odo agent drift]. unfold homing. simpl String.eqb. cbv iota.
  unfold noiseScale. rewrite Hm. simpl String.eqb. simpl orb. cbv iota.
  unfold LANDMARK_LOCK_R.
  split; [|split].
  - intros ->. reflexivity.
  - intros -> Hd. simpl negb. cbv iota.
    destruct (Rlt_dec _ (18 + 6)) as [_|Hn]; [|exfalso; apply Hn; lra].
    unfold moveAgent, driftStep. cbn [fst snd px py rx ry bx by_].
    split; [reflexivity|]. split; lra.
  - intros -> Hd. simpl negb. cbv iota.
    destruct (Rlt_dec _ (18 + 6)) as [Hl|_]; [lra|].
    unfold moveAgent, driftStep. cbn [fst snd px py rx ry bx by_].
    split; [reflexivity|]. split; lra.
Qed.

Lemma landmark_lock_reanchors_witness :
  exists s', physics (mkPhase "LM_RET" 9 "RETURN" "LANDMARK" false false)
               atLandmark 0.016 (mkNoise 0 1 1) = Some s' /\
             lmLocked s' = true /\
             px HOME + px (odo s') = rx (agent s') + bx (drift s') * 0.016 /\
             py HOME + py (odo s') = ry (agent s') + by_ (drift s') * 0.016.
Proof.
  destruct (landmark_lock_reanchors (mkPhase "LM_RET" 9 "RETURN" "LANDMARK" false false)
              atLandmark 0.016 (mkNoise 0 1 1) eq_refl eq_refl)
    as (s' & Hs & _ & Hlock & _).
  exists s'. split; [exact Hs|]. apply Hlock; [reflexivity|].
  unfold atLandmark, LANDMARK. cbn [agent rx ry px py].
  replace (210 - 210) with 0 by lra. replace (170 - 170) with 0 by lra.
  rewrite hypot_0. lra.
Defined.

(** X22: The auto stop: in a RETURN phase of COMPASS mode, an agent inside the
    margins and less than 14 from HOME turns but does not move; in ODOMETRY
    mode there is no such stop, the speed is always SPEED. *)
Theorem auto_stop_at_home (curStep : phase) (s : simState) (dt : R) (n : noise) :
  phaseKind curStep = "RETURN" -> inBounds (agent s) ->
  (phaseMode curStep = "COMPASS" ->
   hypot (rx (agent s) - px HOME) (ry (agent s) - py HOME) < 14 ->
   exists s', physics curStep s dt n = Some s' /\
              rx (agent s') = rx (agent s) /\ ry (agent s') = ry (agent s)) /\
  (phaseMode curStep = "ODOMETRY" -> speedNow curStep (lmLocked s) (agent s) = SPEED).
Proof.
  intros Hk (Hx & Hy & _). split.
  - intros Hm Hd. unfold physics. rewrite Hk, Hm. simpl String.eqb. cbv iota.
    simpl mbind. eexists. split; [reflexivity|]. cbv zeta. cbn [agent].
    unfold speedNow. rewrite Hk, Hm. simpl String.eqb. simpl orb. simpl andb.
    destruct (Rlt_dec _ 14) as [_|Hn]; [|contradiction].
    unfold moveAgent. cbn [rx ry].
    split; (etransitivity; [apply clamp_id|]; lra).
  - intros Hm. unfold speedNow. rewrite Hk, Hm. reflexivity.
Qed.

Lemma auto_stop_at_home_witness :
  let step := mkPhase "COM_RET" 6.2 "RETURN" "COMPASS" false false in
  let s := resetSim (initialState []) in
  exists s', physics step s 0.016 (mkNoise 0 1 1) = Some s' /\
             rx (agent s') = rx (agent s) /\ ry (agent s') = ry (agent s).
Proof.
  apply (auto_stop_at_home (mkPhase "COM_RET" 6.2 "RETURN" "COMPASS" false false)
           (resetSim (initialState [])) 0.016 (mkNoise 0 1 1)).
  - reflexivity.
  - apply resetSim_inBounds.
  - reflexivity.
  - unfold resetSim, HOME, WORLD_W, WORLD_H. cbn [agent rx ry px py].
    replace (1000 - 140 - (1000 - 140)) with 0 by lra.
    replace (720 - 120 - (720 - 120)) with 0 by lra. rewrite hypot_0. lra.
Defined.

End Level2Physics.
(** ** Limitations panel *)

Section LimitationsPanel.

Import Limitations.

(** The squared distance from [p] to the point at parameter [s] of the
    line through [a] and [b] is least, over [0, 1], at the clamped
    parameter. *)
Lemma clamped_parameter_least (q D s : R) :
  0 < D -> 0 <= s <= 1 ->
  let t := clamp (q / D) 0 1 in
  t * t * D - 2 * t * q <= s * s * D - 2 * s * q.
Proof.
  intros HD Hs t.
  assert (Hq : q = q / D * D) by (field; lra).
  set (u := q / D) in *.
  assert (Ht : 0 <= t <= 1) by (apply clamp_range; lra).
  assert (Hcases : (u <= 0 /\ t = 0) \/ (0 <= u <= 1 /\ t = u) \/ (1 <= u /\ t = 1)).
  { destruct (Rle_dec u 0) as [H0|H0].
    - left. split; [assumption|]. unfold t, clamp. rewrite Rmin_right by lra.
      apply Rmax_left. assumption.
    - destruct (Rle_dec u 1) as [H1|H1].
      + right. left. split; [lra|]. apply clamp_id. lra.
      + right. right. split; [lra|]. apply clamp_high; lra. }
  rewrite Hq.
  destruct Hcases as [[Hu ->] | [[Hu ->] | [Hu ->]]].
  - assert (0 <= s * (s - 2 * u) * D); [|lra].
    apply Rmult_le_pos; [|lra]. apply Rmult_le_pos; lra.
  - assert (0 <= (s - u) * (s - u) * D); [|lra].
    apply Rmult_le_pos; [|lra]. apply Rle_0_sqr.
  - assert (0 <= (1 - s) * (2 * u - 1 - s) * D); [|lra].
    apply Rmult_le_pos; [|lra]. apply Rmult_le_pos; lra.
Qed.

Lemma closestPointOnSegment_on (p a b : point) :
  let cp := closestPointOnSegment p a b in
  onSegment a b (mkPoint (cx cp) (cy cp)).
Proof.
  intros cp. exists (ct cp). split; [|split; reflexivity].
  unfold cp, closestPointOnSegment. cbn [ct]. apply clamp_range. lra.
Qed.

(** X23: [closestPointOnSegment]: the parameter is within [0, 1], the point
    returned is the point of the segment at that parameter, and no point of
    the segment is closer to [p]; for a segment of length 0 it is [a]. *)
Theorem closestPointOnSegment_nearest (p a b : point) :
  let cp := closestPointOnSegment p a b in
  0 <= ct cp <= 1 /\
  onSegment a b (mkPoint (cx cp) (cy cp)) /\
  (forall c, onSegment a b c -> dist p (mkPoint (cx cp) (cy cp)) <= dist p c) /\
  (px a = px b -> py a = py b -> cx cp = px a /\ cy cp = py a).
Proof.
  intros cp.
  assert (Ht : 0 <= ct cp <= 1).
  { unfold cp, closestPointOnSegment. cbn [ct]. apply clamp_range. lra. }
  split; [assumption|]. split; [|split].
  - exists (ct cp). split; [assumption|]. split; reflexivity.
  - intros c (s & Hs & Hcx & Hcy). unfold dist, hypot. cbn [px py].
    apply sqrt_le_1_alt. rewrite Hcx, Hcy.
    unfold cp, closestPointOnSegment. cbn [cx cy].
    set (abx := px b - px a). set (aby := py b - py a).
    set (apx := px p - px a). set (apy := py p - py a).
    destruct (Req_dec_T (abx * abx + aby * aby) 0) as [Hz|Hnz].
    + (* a segment of length 0: every point of it is [a] *)
      assert (Hx0 : abx = 0) by nra. assert (Hy0 : aby = 0) by nra.
      rewrite Hx0, Hy0. lra.
    + set (D := abx * abx + aby * aby) in *.
      set (q := apx * abx + apy * aby).
      assert (HD : 0 < D) by (unfold D in *; nra).
      pose proof (clamped_parameter_least q D s HD Hs) as Hmin. cbv zeta in Hmin.
      set (t := clamp (q / D) 0 1) in *.
      replace (px p - (px a + t * abx)) with (apx - t * abx) by (unfold apx; lra).
      replace (py p - (py a + t * aby)) with (apy - t * aby) by (unfold apy; lra).
      replace (px p - (px a + s * abx)) with (apx - s * abx) by (unfold apx; lra).
      replace (py p - (py a + s * aby)) with (apy - s * aby) by (unfold apy; lra).
      unfold D, q in Hmin. nra.
  - intros Hx Hy. unfold cp, closestPointOnSegment. cbn [cx cy].
    rewrite Hx, Hy. split; lra.
Qed.

Lemma closestPointOnSegment_nearest_witness :
  let p := mkPoint 0 10 in
  let cp := closestPointOnSegment p (mkPoint 0 0) (mkPoint 10 0) in
  dist p (mkPoint (cx cp) (cy cp)) <= dist p (mkPoint 10 0).
Proof.
  destruct (closestPointOnSegment_nearest (mkPoint 0 10) (mkPoint 0 0) (mkPoint 10 0))
    as (_ & _ & H & _).
  apply H. exists 1. simpl. lra.
Defined.

(** *** The lookahead point *)

Lemma segments_lookup (path : list point) (j : nat) (a b : point) :
  segments path !! j = Some (a, b) -> path !! j = Some a /\ path !! S j = Some b.
Proof.
  unfold segments. intros H.
  apply lookup_zip_with_Some in H as (x & y & [= -> ->] & Hx & Hy).
  split; [assumption|]. now rewrite lookup_tail in Hy.
Qed.

(** What the first loop keeps: the best segment is a segment of the path
    and the best point is on it. *)
Lemma closestLoop_on_segment (path : list point) (pos : point) (segs : list (point * point)) :
  forall i b,
    (forall j a b', segs !! j = Some (a, b') ->
                    path !! (i + j)%nat = Some a /\ path !! S (i + j) = Some b') ->
    (exists a b', path !! seg b = Some a /\ path !! S (seg b) = Some b'
                  /\ onSegment a b' (pt b)) ->
    exists a b', path !! seg (closestLoop pos i segs b) = Some a
                 /\ path !! S (seg (closestLoop pos i segs b)) = Some b'
                 /\ onSegment a b' (pt (closestLoop pos i segs b)).
Proof.
  induction segs as [|[a0 b0] rest IH]; intros i b Hsegs Hb; simpl; [assumption|].
  apply IH.
  - intros j a b' Hj. specialize (Hsegs (S j) a b' Hj).
    now replace (S i + j)%nat with (i + S j)%nat by lia.
  - destruct (ltScore _ _); [|assumption].
    cbn [seg pt]. destruct (Hsegs 0%nat a0 b0 eq_refl) as [Ha Hb0].
    rewrite Nat.add_0_r in Ha, Hb0. exists a0, b0.
    split; [assumption|]. split; [assumption|].
    apply (closestPointOnSegment_on pos a0 b0).
Qed.

Lemma endOfPath_on_path (path : list point) :
  (2 <= length path)%nat -> exists c, endOfPath path = At c /\ onPath path c.
Proof.
  intros Hlen. unfold endOfPath. rewrite last_lookup.
  destruct (lookup_lt_is_Some_2 path (pred (length path)) ltac:(lia)) as [b Hb].
  destruct (lookup_lt_is_Some_2 path (pred (pred (length path))) ltac:(lia)) as [a Ha].
  rewrite Hb. exists b. split; [reflexivity|].
  exists (pred (pred (length path))), a, b. split; [assumption|]. split.
  - now replace (S (pred (pred (length path)))) with (pred (length path)) by lia.
  - exists 1. split; [lra|]. split; lra.
Qed.

(** The second loop ends within its budget, at a point of the path. *)
Lemma march_on_path (path : list point) (fuel : nat) : forall remaining i cur,
  (2 <= length path)%nat ->
  (length path - 1 - i <= fuel)%nat ->
  (exists a b, path !! i = Some a /\ path !! S i = Some b /\ onSegment a b cur) ->
  exists c, march fuel path remaining i cur = At c /\ onPath path c.
Proof.
  induction fuel as [|fuel IH]; intros remaining i cur Hlen Hfuel (a & b & Ha & Hb & Hon).
  - simpl. apply lookup_lt_Some in Hb.
    destruct (Nat.ltb_spec i (length path - 1)) as [Hi|Hi]; [lia|].
    rewrite andb_false_r. now apply endOfPath_on_path.
  - cbn [march].
    destruct (Rgt_dec remaining 0) as [Hrem|Hrem]; [|now apply endOfPath_on_path].
    destruct (Nat.ltb_spec i (length path - 1)) as [Hi|Hi];
      [|now apply endOfPath_on_path].
    cbn [andb]. replace (i + 1)%nat with (S i) by lia. rewrite Hb.
    assert (Hnext : (S i < length path - 1)%nat ->
              exists a' b', path !! S i = Some a' /\ path !! S (S i) = Some b'
                            /\ onSegment a' b' b).
    { intros Hlt. destruct (lookup_lt_is_Some_2 path (S (S i)) ltac:(lia)) as [b' Hb'].
      exists b, b'. split; [assumption|]. split; [assumption|].
      exists 0. split; [lra|]. split; lra. }
    assert (Hrec : forall rem', exists c, march fuel path rem' (S i) b = At c /\ onPath path c).
    { intros rem'. destruct (Nat.lt_ge_cases (S i) (length path - 1)) as [Hlt|Hge].
      - apply IH; [assumption|lia|now apply Hnext].
      - destruct fuel; cbn [march];
          destruct (Nat.ltb_spec (S i) (length path - 1)) as [H|_]; try lia;
          rewrite andb_false_r; now apply endOfPath_on_path. }
    destruct (Rlt_dec _ 1e-6) as [Hshort|Hlong]; [apply Hrec|].
    destruct (Rle_dec remaining _) as [Hle|Hgt]; [|apply Hrec].
    eexists. split; [reflexivity|].
    exists i, a, b. split; [assumption|]. split; [assumption|].
    destruct Hon as (s & Hs & Hx & Hy).
    set (segLen := hypot (px b - px cur) (py b - py cur)) in *.
    assert (Hpos : 0 < segLen) by lra.
    set (lam := remaining / segLen).
    assert (Hlam : 0 <= lam <= 1).
    { unfold lam. split.
      - apply Rlt_le, Rdiv_lt_0_compat; [unfold Rgt in Hrem|]; lra.
      - apply Rmult_le_reg_r with segLen; [assumption|].
        unfold Rdiv. rewrite Rmult_assoc, Rinv_l by lra. lra. }
    exists (s + lam * (1 - s)). split; [nra|]. cbn [px py].
    replace ((px b - px cur) / segLen * remaining) with ((px b - px cur) * lam)
      by (unfold lam; field; lra).
    replace ((py b - py cur) / segLen * remaining) with ((py b - py cur) * lam)
      by (unfold lam; field; lra).
    rewrite Hx, Hy. split; ring.
Qed.

Lemma lookahead_At (path : list point) (pos0 : point) (lookahead : R) :
  (2 <= length path)%nat ->
  exists c, getLookaheadPointOn path pos0 lookahead = At c /\ onPath path c.
Proof.
  intros Hlen. destruct path as [|p0 [|p1 rest]]; simpl in Hlen; try lia.
  unfold getLookaheadPointOn.
  set (path := p0 :: p1 :: rest) in *.
  destruct (closestLoop_on_segment path pos0 (segments path) 0 (mkBest Inf 0 p0 0))
    as (a & b & Ha & Hb & Hon).
  - intros j a b' Hj. now apply segments_lookup.
  - exists p0, p1. cbn [seg pt]. split; [reflexivity|]. split; [reflexivity|].
    exists 0. split; [lra|]. split; lra.
  - apply march_on_path; [simpl; lia|lia|]. now exists a, b.
Qed.

(** X24: [getLookaheadPoint] on a path of at least two points: the loops end and
    the result is a point of the path; with a lookahead that is not
    positive it is the END of the path, not the projection of the position. *)
Theorem getLookaheadPoint_on_path (path : list point) (pos0 : point) (lookahead : R) :
  (2 <= length path)%nat ->
  (exists c, getLookaheadPointOn path pos0 lookahead = At c /\ onPath path c) /\
  (lookahead <= 0 -> getLookaheadPointOn path pos0 lookahead = endOfPath path).
Proof.
  intros Hlen. split; [now apply lookahead_At|].
  destruct path as [|p0 rest]; [reflexivity|].
  intros Hla. unfold getLookaheadPointOn. destruct (length (p0 :: rest)); cbn [march];
    (destruct (Rgt_dec lookahead 0) as [H|_]; [unfold Rgt in H; lra|reflexivity]).
Qed.

Lemma getLookaheadPoint_on_path_witness :
  (exists c, getLookaheadPoint (mkPoint 20 150) 45 = At c /\ onPath PATH c) /\
  (0 <= 0 -> getLookaheadPoint (mkPoint 20 150) 0 = endOfPath PATH).
Proof.
  split.
  - apply (getLookaheadPoint_on_path PATH (mkPoint 20 150) 45). simpl. lia.
  - apply (getLookaheadPoint_on_path PATH (mkPoint 20 150) 0). simpl. lia.
Defined.

(** *** The two agents *)

Lemma hypot_polar (th v : R) : hypot (cos th * v) (sin th * v) = Rabs v.
Proof.
  unfold hypot. rewrite <- sqrt_Rsqr_abs. f_equal.
  pose proof (sin2_cos2 th) as H. unfold Rsqr in *. nra.
Qed.

(** X25: Agent A's updater, for a waypoint index inside the path and a wait
    that is not negative: it does not throw; the index stays inside the
    path and goes up by at most one; the wait stays non-negative; while
    the agent waits, its pose and index are frozen and the detector is not
    run; it reports the finish only at the last waypoint, without moving;
    and it moves by at most 90 px/s. *)
Theorem agentA_update_safe
    (path : list point) (prev : naive) (osc : oscillation) (dtSec : R) :
  (index prev < length path)%nat -> 0 <= wait prev ->
  exists next osc' fin,
    updateA path prev osc dtSec = Some (next, osc', fin) /\
    (index next < length path)%nat /\
    (index prev <= index next <= S (index prev))%nat /\
    0 <= wait next /\
    (0 < wait prev -> pos next = pos prev /\ index next = index prev /\ osc' = osc) /\
    (fin = true -> next = prev /\ S (index prev) = length path) /\
    hypot (rx (pos next) - rx (pos prev)) (ry (pos next) - ry (pos prev))
    <= 90 * Rabs dtSec.
Proof.
  intros Hidx Hwait. unfold updateA.
  assert (Hstill : hypot (rx (pos prev) - rx (pos prev)) (ry (pos prev) - ry (pos prev))
                   <= 90 * Rabs dtSec).
  { replace (rx (pos prev) - rx (pos prev)) with 0 by lra.
    replace (ry (pos prev) - ry (pos prev)) with 0 by lra.
    rewrite hypot_0. pose proof (Rabs_pos dtSec). lra. }
  destruct (Rgt_dec (wait prev) 0) as [Hw|Hw].
  - eexists _, _, _. split; [reflexivity|]. cbn [index wait pos].
    repeat split; try lia; try assumption; try discriminate. apply Rmax_l.
  - destruct (lookup_lt_is_Some_2 _ _ Hidx) as [target Htarget].
    rewrite Htarget. cbn [mbind option_bind].
    destruct (Rlt_dec _ 10) as [Hnear|Hfar];
      [destruct (Nat.ltb_spec (index prev) (length path - 1)) as [Hlt|Hge]|];
      cbn [andb negb].
    + (* advance to the next waypoint, then steer *)
      destruct (lookup_lt_is_Some_2 path (S (index prev)) ltac:(lia)) as [tgt Htgt].
      rewrite Htgt. cbn [mbind option_bind].
      eexists _, _, _. split; [reflexivity|]. cbn [index wait pos rx ry].
      split; [lia|]. split; [lia|]. split; [lra|].
      split; [intros H; unfold Rgt in Hw; lra|]. split; [discriminate|].
      destruct (Rlt_dec _ 0.45); [|assumption].
      match goal with
      | |- hypot (_ + cos ?th * ?v - _) (_ + sin ?th * ?v - _) <= _ =>
          replace (rx (pos prev) + cos th * v - rx (pos prev)) with (cos th * v) by lra;
          replace (ry (pos prev) + sin th * v - ry (pos prev)) with (sin th * v) by lra;
          rewrite hypot_polar
      end.
      rewrite Rabs_mult, (Rabs_right 90) by lra. lra.
    + (* the last waypoint is reached *)
      eexists _, _, _. split; [reflexivity|].
      split; [assumption|]. split; [lia|]. split; [assumption|].
      split; [intros H; unfold Rgt in Hw; lra|]. split; [|assumption].
      intros _. split; [reflexivity|lia].
    + rewrite Htarget. cbn [mbind option_bind].
      eexists _, _, _. split; [reflexivity|]. cbn [index wait pos rx ry].
      split; [lia|]. split; [lia|]. split; [lra|].
      split; [intros H; unfold Rgt in Hw; lra|]. split; [discriminate|].
      destruct (Rlt_dec _ 0.45); [|assumption].
      match goal with
      | |- hypot (_ + cos ?th * ?v - _) (_ + sin ?th * ?v - _) <= _ =>
          replace (rx (pos prev) + cos th * v - rx (pos prev)) with (cos th * v) by lra;
          replace (ry (pos prev) + sin th * v - ry (pos prev)) with (sin th * v) by lra;
          rewrite hypot_polar
      end.
      rewrite Rabs_mult, (Rabs_right 90) by lra. lra.
Qed.

Lemma agentA_update_safe_witness :
  let prev := mkNaive (mkPose 20 150 0) 1 0 in
  let osc := mkOsc 0 0 0.5 0.5 false 0 in
  exists next osc' fin,
    updateA PATH prev osc 0.016 = Some (next, osc', fin) /\
    (index next < length PATH)%nat /\
    (index prev <= index next <= S (index prev))%nat /\
    0 <= wait next /\
    (0 < wait prev -> pos next = pos prev /\ index next = index prev /\ osc' = osc) /\
    (fin = true -> next = prev /\ S (index prev) = length PATH) /\
    hypot (rx (pos next) - rx (pos prev)) (ry (pos next) - ry (pos prev))
    <= 90 * Rabs 0.016.
Proof.
  apply (agentA_update_safe PATH (mkNaive (mkPose 20 150 0) 1 0)
           (mkOsc 0 0 0.5 0.5 false 0) 0.016).
  - simpl. lia.
  - simpl. lra.
Defined.

(** X26: Agent B's updater on a path of at least two points, for a frame time
    that is not negative: it does not throw; it reports the finish exactly
    when the agent is less than 10 from the end of the path, and then does
    not move; otherwise the heading is wrapped and the agent moves by
    between half and the whole of 90 px/s. *)
Theorem agentB_update_speed (path : list point) (prev : pose) (dtSec : R) :
  (2 <= length path)%nat -> 0 <= dtSec ->
  exists next fin endPt,
    updateB path prev dtSec = Some (next, fin) /\ last path = Some endPt /\
    (fin = true <-> dist (mkPoint (rx prev) (ry prev)) endPt < 10) /\
    (fin = true -> next = prev) /\
    (fin = false ->
     - PI <= theta next <= PI /\
     45 * dtSec <= hypot (rx next - rx prev) (ry next - ry prev) <= 90 * dtSec).
Proof.
  intros Hlen Hdt. unfold updateB.
  destruct (lookup_lt_is_Some_2 path (pred (length path)) ltac:(lia)) as [endPt Hend].
  rewrite <- last_lookup in Hend. rewrite Hend. cbn [mbind option_bind].
  destruct (Rlt_dec _ 10) as [Hnear|Hfar].
  - exists prev, true, endPt. split; [reflexivity|]. split; [reflexivity|].
    split; [now split|]. split; [reflexivity|discriminate].
  - destruct (lookahead_At path (mkPoint (rx prev) (ry prev)) 45 Hlen) as (c & -> & _).
    eexists _, false, endPt. split; [reflexivity|]. split; [reflexivity|].
    split; [split; [discriminate|contradiction]|]. split; [discriminate|].
    intros _. cbn [theta rx ry]. split; [apply wrapPi_spec|].
    match goal with
    | |- _ <= hypot (_ + cos ?th * ?sp * ?v - _) (_ + sin ?th * ?sp * ?v - _) <= _ =>
        replace (rx prev + cos th * sp * v - rx prev) with (cos th * (sp * v)) by lra;
        replace (ry prev + sin th * sp * v - ry prev) with (sin th * (sp * v)) by lra;
        rewrite hypot_polar;
        pose proof (clamp_range (Rabs (wrapPi (atan2 (py c - ry prev) (px c - rx prev)
                                               - theta prev)) / 1.2) 0 0.5 ltac:(lra)) as Hv
    end.
    rewrite Rabs_right by nra. nra.
Qed.

Lemma agentB_update_speed_witness :
  exists next fin endPt,
    updateB PATH (mkPose 20 150 0) 0.016 = Some (next, fin) /\ last PATH = Some endPt /\
    (fin = true <-> dist (mkPoint 20 150) endPt < 10) /\
    (fin = true -> next = mkPose 20 150 0) /\
    (fin = false ->
     - PI <= theta next <= PI /\
     45 * 0.016 <= hypot (rx next - 20) (ry next - 150) <= 90 * 0.016).
Proof.
  apply (agentB_update_speed PATH (mkPose 20 150 0) 0.016).
  - simpl. lia.
  - lra.
Defined.

(** X27: The oscillation warning of agent A is shown exactly while its timer
    runs: if the flag is set exactly when [flagT] is positive, this is so
    after the detector has run; and the timer never exceeds 0.8 s when the
    frame time is not negative. *)
Theorem oscillation_flag_iff_timer (osc : oscillation) (angleDiff dtSec : R) :
  0 <= dtSec ->
  (flag osc = true <-> 0 < flagT osc) -> flagT osc <= 0.8 ->
  let osc' := detect osc angleDiff dtSec in
  (flag osc' = true <-> 0 < flagT osc') /\ flagT osc' <= 0.8.
Proof.
  intros Hdt Hinv Hmax. unfold detect. cbv zeta. cbn [flag flagT].
  destruct (Rle_dec (oscT osc - dtSec) 0) as [Hexp|Hexp].
  - destruct (4 <=? _)%nat.
    + destruct (Rgt_dec 0.8 0) as [_|H]; [|exfalso; apply H; lra].
      destruct (Rle_dec (0.8 - dtSec) 0) as [Hle|Hgt].
      * split; [|lra]. split; [discriminate|lra].
      * split; [|lra]. split; [intros _; lra|reflexivity].
    + destruct (Rgt_dec 0 0) as [H|_]; [unfold Rgt in H; lra|].
      split; [|lra]. split; [discriminate|lra].
  - destruct (Rgt_dec (flagT osc) 0) as [Hpos|Hnpos].
    + destruct (Rle_dec (flagT osc - dtSec) 0) as [Hle|Hgt].
      * split; [|lra]. split; [discriminate|lra].
      * split; [|lra]. split; [intros _; lra|intros _; apply Hinv; exact Hpos].
    + split; [|assumption]. unfold Rgt in Hnpos.
      split; [intros H; apply Hinv in H; lra|lra].
Qed.

Lemma oscillation_flag_iff_timer_witness :
  let osc' := detect (mkOsc 0 0 0.5 0.5 false 0) 0.3 0.016 in
  (flag osc' = true <-> 0 < flagT osc') /\ flagT osc' <= 0.8.
Proof.
  apply (oscillation_flag_iff_timer (mkOsc 0 0 0.5 0.5 false 0) 0.3 0.016).
  - lra.
  - simpl. split; [discriminate|lra].
  - simpl. lra.
Defined.

End LimitationsPanel.
(** ** Level 3 panel *)

Section Level3Panel.

Import Level3.

Lemma reachable_step (nodes : gmap string node) (s u v : string) :
  reachable nodes s u -> edge nodes u v -> reachable nodes s v.
Proof.
  intros (p & c & Hr) He. eexists _, _. eapply route_step; eassumption.
Qed.

Lemma GRAPH_NODES_keys (t : string) :
  is_Some (GRAPH_NODES !! t) ->
  t ∈ ["start"; "n1"; "n2"; "n3"; "n4"; "center"; "n5"; "n6"; "goal_A"; "goal_B"].
Proof.
  intros [n H]. unfold GRAPH_NODES in H.
  repeat (apply lookup_insert_Some in H as [[<- _]|[_ H]]; [set_solver|]).
  rewrite lookup_empty in H. discriminate.
Qed.

Ltac graph_edge :=
  eexists; split; [reflexivity|split; [set_solver|eexists; reflexivity]].

(** Every node of the Level 3 graph can be reached from [start]. *)
Lemma GRAPH_NODES_reachable (t : string) :
  is_Some (GRAPH_NODES !! t) -> reachable GRAPH_NODES "start" t.
Proof.
  intros Ht. apply GRAPH_NODES_keys in Ht.
  assert (R0 : reachable GRAPH_NODES "start" "start").
  { eexists _, _. apply route_start. eexists. reflexivity. }
  assert (R1 : reachable GRAPH_NODES "start" "n1")
    by (apply (reachable_step _ _ "start"); [assumption|graph_edge]).
  assert (R2 : reachable GRAPH_NODES "start" "n2")
    by (apply (reachable_step _ _ "start"); [assumption|graph_edge]).
  assert (R3 : reachable GRAPH_NODES "start" "n3")
    by (apply (reachable_step _ _ "n1"); [assumption|graph_edge]).
  assert (R4 : reachable GRAPH_NODES "start" "n4")
    by (apply (reachable_step _ _ "n2"); [assumption|graph_edge]).
  assert (Rc : reachable GRAPH_NODES "start" "center")
    by (apply (reachable_step _ _ "n3"); [assumption|graph_edge]).
  assert (R5 : reachable GRAPH_NODES "start" "n5")
    by (apply (reachable_step _ _ "n3"); [assumption|graph_edge]).
  assert (R6 : reachable GRAPH_NODES "start" "n6")
    by (apply (reachable_step _ _ "n4"); [assumption|graph_edge]).
  assert (RA : reachable GRAPH_NODES "start" "goal_A")
    by (apply (reachable_step _ _ "n5"); [assumption|graph_edge]).
  assert (RB : reachable GRAPH_NODES "start" "goal_B")
    by (apply (reachable_step _ _ "n6"); [assumption|graph_edge]).
  repeat (apply elem_of_cons in Ht as [-> | Ht]; [assumption|]).
  now apply elem_of_nil in Ht.
Qed.

Lemma LEARNED_ROUTE_route :
  exists c, route GRAPH_NODES "start" "goal_A" LEARNED_ROUTE c.
Proof.
  eexists. unfold LEARNED_ROUTE.
  change ["start"; "n1"; "n3"; "n5"; "goal_A"]
    with (((((["start"] ++ ["n1"]) ++ ["n3"]) ++ ["n5"]) ++ ["goal_A"]) : list string).
  eapply (route_step _ _ "n5"); [|graph_edge].
  eapply (route_step _ _ "n3"); [|graph_edge].
  eapply (route_step _ _ "n1"); [|graph_edge].
  eapply (route_step _ _ "start"); [|graph_edge].
  apply route_start. eexists. reflexivity.
Qed.

(** What [findPath] gives the map agent: a shortest route from [start]
    to the goal. *)
Lemma map_plan (targetId : goal) :
  exists p c,
    Js.findPath_fuel (size GRAPH_NODES) GRAPH_NODES "start" (goalName targetId)
    = Js.Path (Js.ids p) /\
    route GRAPH_NODES "start" (goalName targetId) p c /\
    forall q c', route GRAPH_NODES "start" (goalName targetId) q c' -> c <= c'.
Proof.
  assert (Ht : is_Some (GRAPH_NODES !! goalName targetId))
    by (destruct targetId; eexists; reflexivity).
  rewrite (findPath_plain GRAPH_NODES "start" (goalName targetId) (size GRAPH_NODES)
             (GRAPH_NODES_plain _ Ht) GRAPH_NODES_noOverflow (le_n _)).
  pose proof (findPath_post GRAPH_NODES "start" (goalName targetId)
                (size GRAPH_NODES) (le_n _)) as Hpost.
  fold (findPath GRAPH_NODES "start" (goalName targetId)) in Hpost.
  destruct (findPath GRAPH_NODES "start" (goalName targetId)) as [p| | |].
  - destruct Hpost as (_ & _ & p0 & c & Hroute & Hopt & Hp).
    exists p, c. split; [reflexivity|]. rewrite Hp; [now split|].
    intros w Hw. destruct (route_elem_nodes _ _ _ _ _ Hroute w Hw) as [n Hn].
    unfold truthy. destruct (String.eqb_spec w "") as [->|]; [discriminate Hn|reflexivity].
  - destruct Hpost as (_ & _ & Hnot). exfalso. apply Hnot.
    now apply GRAPH_NODES_reachable.
  - exfalso. apply Hpost. split; [exact GRAPH_NODES_wellFormed|].
    split; [eexists; reflexivity|assumption].
  - now destruct Hpost as (_ & _ & []).
Qed.

Lemma keyOf_ids (p : list string) : Js.keyOf <$> Js.ids p = p.
Proof. induction p as [|a p IH]; [reflexivity|]. simpl. now f_equal. Qed.

(** X28: [recalculatePath]: in MAP mode the call does not throw, the plan is a
    shortest route of the graph from [start] to the goal it is called
    with, and the path index is 0; in ROUTE mode the plan is the learned
    route, which is a route of the graph from [start] to [goal_A],
    whatever the goal; in VECTOR mode the plan is empty and the path index
    is kept. *)
Theorem recalculatePath_plans (s : panel) (targetId : goal) :
  (mode s = MAP ->
   exists p c,
     recalculatePath s targetId = Some (mkPanel (agent s) (goalId s) MAP p 0) /\
     route GRAPH_NODES "start" (goalName targetId) p c /\
     forall q c', route GRAPH_NODES "start" (goalName targetId) q c' -> c <= c') /\
  (mode s = ROUTE ->
   recalculatePath s targetId
   = Some (mkPanel (agent s) (goalId s) ROUTE LEARNED_ROUTE 0) /\
   exists c, route GRAPH_NODES "start" "goal_A" LEARNED_ROUTE c) /\
  (mode s = VECTOR ->
   recalculatePath s targetId
   = Some (mkPanel (agent s) (goalId s) VECTOR [] (currentPathIndex s))).
Proof.
  split; [|split].
  - intros Hm. destruct (map_plan targetId) as (p & c & Hf & Hr & Hopt).
    exists p, c. unfold recalculatePath. rewrite Hm, Hf, keyOf_ids. now repeat split.
  - intros Hm. unfold recalculatePath. rewrite Hm.
    split; [reflexivity|exact LEARNED_ROUTE_route].
  - intros Hm. unfold recalculatePath. now rewrite Hm.
Qed.

Lemma recalculatePath_plans_witness :
  let s := mkPanel (mkPose 50 50 0) goal_B MAP [] 0 in
  exists p c,
    recalculatePath s goal_B = Some (mkPanel (agent s) (goalId s) MAP p 0) /\
    route GRAPH_NODES "start" "goal_B" p c /\
    forall q c', route GRAPH_NODES "start" "goal_B" q c' -> c <= c'.
Proof.
  apply (recalculatePath_plans (mkPanel (mkPose 50 50 0) goal_B MAP [] 0) goal_B).
  reflexivity.
Defined.

Lemma withHeading_xy (a : pose) (x1 y1 : R) :
  rx (withHeading a x1 y1) = x1 /\ ry (withHeading a x1 y1) = y1.
Proof. now split. Qed.

Lemma step_still (a : pose) (dt : R) :
  hypot (rx a - rx a) (ry a - ry a) <= 0.1 * Rabs dt.
Proof.
  replace (rx a - rx a) with 0 by lra. replace (ry a - ry a) with 0 by lra.
  rewrite hypot_0. pose proof (Rabs_pos dt). lra.
Qed.

Lemma step_polar (a : pose) (th dt : R) :
  hypot (rx a + cos th * (0.1 * dt) - rx a) (ry a + sin th * (0.1 * dt) - ry a)
  <= 0.1 * Rabs dt.
Proof.
  replace (rx a + cos th * (0.1 * dt) - rx a) with (cos th * (0.1 * dt)) by lra.
  replace (ry a + sin th * (0.1 * dt) - ry a) with (sin th * (0.1 * dt)) by lra.
  rewrite hypot_polar, Rabs_mult, (Rabs_right 0.1) by lra. lra.
Qed.

(** X29: Following a plan (ROUTE or MAP mode) whose ids are nodes of the graph,
    with the path index inside the plan: the frame does not throw; the plan
    is kept; the index stays inside the plan and goes up by at most one;
    on a frame that advances the index the agent does not move; and the
    agent moves by at most 0.1 px per unit of frame time. *)
Theorem level3_follow_path (s : panel) (dt : R) :
  mode s <> VECTOR ->
  (forall id, id ∈ plannedPath s -> is_Some (GRAPH_NODES !! id)) ->
  (currentPathIndex s < length (plannedPath s))%nat ->
  exists s', gameLoop s dt = Some s' /\
    plannedPath s' = plannedPath s /\ mode s' = mode s /\ goalId s' = goalId s /\
    (currentPathIndex s' < length (plannedPath s))%nat /\
    (currentPathIndex s <= currentPathIndex s' <= S (currentPathIndex s))%nat /\
    (currentPathIndex s' = S (currentPathIndex s) ->
     rx (agent s') = rx (agent s) /\ ry (agent s') = ry (agent s)) /\
    hypot (rx (agent s') - rx (agent s)) (ry (agent s') - ry (agent s))
    <= 0.1 * Rabs dt.
Proof.
  intros Hm Hplan Hidx. unfold gameLoop.
  destruct (lookup_lt_is_Some_2 _ _ Hidx) as [tid Htid].
  assert (Hnode : is_Some (GRAPH_NODES !! tid)).
  { apply Hplan. eapply list_elem_of_lookup_2, Htid. }
  destruct Hnode as [tn Htn].
  assert (Htruthy : truthy tid = true).
  { unfold truthy. destruct (String.eqb_spec tid "") as [->|]; [discriminate Htn|reflexivity]. }
  assert (Hgoal : exists s', match plannedPath s !! currentPathIndex s with
      | Some targetNodeId =>
          if truthy targetNodeId then
            match Js.get GRAPH_NODES targetNodeId with
            | Js.Own targetNode =>
                let dist := hypot (nx targetNode - rx (agent s))
                                  (ny targetNode - ry (agent s)) in
                if Rlt_dec dist 5 then
                  Some (mkPanel (withHeading (agent s) (rx (agent s)) (ry (agent s)))
                          (goalId s) (mode s) (plannedPath s)
                          (if (currentPathIndex s <? length (plannedPath s) - 1)%nat
                           then currentPathIndex s + 1 else currentPathIndex s)%nat)
                else
                  let angle := atan2 (ny targetNode - ry (agent s))
                                     (nx targetNode - rx (agent s)) in
                  Some (mkPanel (withHeading (agent s) (rx (agent s) + cos angle * (0.1 * dt))
                                               (ry (agent s) + sin angle * (0.1 * dt)))
                          (goalId s) (mode s) (plannedPath s) (currentPathIndex s))
            | _ => None
            end
          else Some (mkPanel (withHeading (agent s) (rx (agent s)) (ry (agent s)))
                       (goalId s) (mode s) (plannedPath s) (currentPathIndex s))
      | None => Some (mkPanel (withHeading (agent s) (rx (agent s)) (ry (agent s)))
                        (goalId s) (mode s) (plannedPath s) (currentPathIndex s))
      end = Some s' /\
    plannedPath s' = plannedPath s /\ mode s' = mode s /\ goalId s' = goalId s /\
    (currentPathIndex s' < length (plannedPath s))%nat /\
    (currentPathIndex s <= currentPathIndex s' <= S (currentPathIndex s))%nat /\
    (currentPathIndex s' = S (currentPathIndex s) ->
     rx (agent s') = rx (agent s) /\ ry (agent s') = ry (agent s)) /\
    hypot (rx (agent s') - rx (agent s)) (ry (agent s') - ry (agent s))
    <= 0.1 * Rabs dt).
  { rewrite Htid, Htruthy. unfold Js.get. rewrite Htn. cbv zeta.
    destruct (Rlt_dec _ 5).
    - eexists. split; [reflexivity|].
      cbn [plannedPath mode goalId currentPathIndex agent].
      destruct (withHeading_xy (agent s) (rx (agent s)) (ry (agent s))) as [-> ->].
      destruct (Nat.ltb_spec (currentPathIndex s) (length (plannedPath s) - 1));
        repeat split; try lia; apply step_still.
    - eexists. split; [reflexivity|].
      cbn [plannedPath mode goalId currentPathIndex agent].
      match goal with
      | |- context [withHeading ?a ?x ?y] =>
          destruct (withHeading_xy a x y) as [-> ->]
      end.
      repeat split; try lia. apply step_polar. }
  destruct (mode s); [contradiction|exact Hgoal|exact Hgoal].
Qed.

Lemma level3_follow_path_witness :
  let s := mkPanel (mkPose 50 50 0) goal_B ROUTE LEARNED_ROUTE 0 in
  exists s', gameLoop s 16 = Some s' /\
    plannedPath s' = plannedPath s /\ mode s' = mode s /\ goalId s' = goalId s /\
    (currentPathIndex s' < length (plannedPath s))%nat /\
    (currentPathIndex s <= currentPathIndex s' <= S (currentPathIndex s))%nat /\
    (currentPathIndex s' = S (currentPathIndex s) ->
     rx (agent s') = rx (agent s) /\ ry (agent s') = ry (agent s)) /\
    hypot (rx (agent s') - rx (agent s)) (ry (agent s') - ry (agent s))
    <= 0.1 * Rabs 16.
Proof.
  apply (level3_follow_path (mkPanel (mkPose 50 50 0) goal_B ROUTE LEARNED_ROUTE 0) 16).
  - discriminate.
  - intros id Hid. cbn [plannedPath] in Hid. unfold LEARNED_ROUTE in Hid.
    repeat (apply elem_of_cons in Hid as [-> | Hid]; [eexists; reflexivity|]).
    now apply elem_of_nil in Hid.
  - simpl. lia.
Defined.

(** X30: VECTOR mode, heading straight for the goal: the frame does not throw,
    an agent that is not inside the wall is not inside it after the frame
    (a step into the wall is undone), the goal, the plan and the path index
    are left alone, and the agent moves by at most 0.1 px per unit of frame
    time. *)
Theorem vector_mode_stops_at_wall (s : panel) (dt : R) :
  mode s = VECTOR ->
  insideWall (rx (agent s)) (ry (agent s)) = false ->
  exists s', gameLoop s dt = Some s' /\
    insideWall (rx (agent s')) (ry (agent s')) = false /\
    goalId s' = goalId s /\
    plannedPath s' = plannedPath s /\ currentPathIndex s' = currentPathIndex s /\
    hypot (rx (agent s') - rx (agent s)) (ry (agent s') - ry (agent s))
    <= 0.1 * Rabs dt.
Proof.
  intros Hm Hout. unfold gameLoop. rewrite Hm.
  assert (Hg : exists g, Js.get GRAPH_NODES (goalName (goalId s)) = Js.Own g)
    by (destruct (goalId s); eexists; reflexivity).
  destruct Hg as [g ->]. cbv zeta.
  eexists. split; [reflexivity|]. cbn [agent goalId plannedPath currentPathIndex].
  match goal with
  | |- context [withHeading ?a ?x ?y] => destruct (withHeading_xy a x y) as [-> ->]
  end.
  match goal with
  | |- context [if insideWall ?x ?y then _ else _] =>
      destruct (insideWall x y) eqn:Hhit
  end.
  - repeat split; [assumption|apply step_still].
  - repeat split; [assumption|apply step_polar].
Qed.

Lemma vector_mode_stops_at_wall_witness :
  let s := mkPanel (mkPose 50 50 0) goal_A VECTOR [] 0 in
  exists s', gameLoop s 16 = Some s' /\
    insideWall (rx (agent s')) (ry (agent s')) = false /\
    goalId s' = goalId s /\
    plannedPath s' = plannedPath s /\ currentPathIndex s' = currentPathIndex s /\
    hypot (rx (agent s') - rx (agent s)) (ry (agent s') - ry (agent s))
    <= 0.1 * Rabs 16.
Proof.
  apply (vector_mode_stops_at_wall (mkPanel (mkPose 50 50 0) goal_A VECTOR [] 0) 16).
  - reflexivity.
  - unfold insideWall. cbn [agent rx ry].
    destruct (Rgt_dec 50 100) as [H|_]; [unfold Rgt in H; lra|reflexivity].
Defined.

End Level3Panel.
